(** * mesos_exporter: the master-state collector and its helpers

    A shallow embedding of [master_state.go] (the state collector, the range
    codec, the settable counters, the token refresh and the collectors that
    fetch and translate the Mesos endpoints), followed by the properties
    checked against it. The file has five parts: the embedding, the
    vocabulary the properties are stated in, the concrete inputs they are
    tried on, lemmas, and the properties by component.

    Conventions of the embedding.
    - A Go [string] and a Go [[]byte] are both a Rocq [string]: a sequence of
      8-bit [ascii] values.
    - [uint64] is a [Z] in the range 0 .. 2^64-1 with the wrap-around of every
      operation written out; [float64] is the kernel's binary64 [float].
    - A Go [map] whose iteration order does not matter is a [gmap]; a map that
      the code ranges over is a list in the order of that iteration (Go fixes
      no order, so the properties quantify over every list).
    - Code that mutates an object returns the new object; logging, the error
      counter, the output channel and the state of the HTTP client are fields
      of an explicit [world], threaded by the monad [M]. A computation of [M]
      returns, or parks its goroutine for ever on a channel ([Blocked]), or
      panics ([Panicked]).
    - The clock, the parsing and signing of keys, the HTTP exchanges and the
      JSON decoder are the outside world: the field [network] of the world
      gives, for the n-th fetch, the answers it gets. *)

From Stdlib Require Import ZArith Lia Ascii String Floats Uint63.
From stdpp Require Import base option list gmap strings.

Local Open Scope string_scope.
Local Open Scope list_scope.
Local Open Scope Z_scope.

(** ** Bytes and strings (packages [bytes], [strings], [strconv]) *)

(** The double quote, byte 34. *)
Definition dquote : ascii := "034"%char.

Definition byte_val (c : ascii) : Z := Z.of_N (N_of_ascii c).

Fixpoint mem_byte (c : ascii) (cutset : string) : bool :=
  match cutset with
  | EmptyString => false
  | String d r => Ascii.eqb c d || mem_byte c r
  end.

Fixpoint trimLeftASCII (cutset s : string) : string :=
  match s with
  | EmptyString => EmptyString
  | String c r => if mem_byte c cutset then trimLeftASCII cutset r else s
  end.

Fixpoint trimRightASCII (cutset s : string) : string :=
  match s with
  | EmptyString => EmptyString
  | String c r =>
      match trimRightASCII cutset r with
      | EmptyString => if mem_byte c cutset then EmptyString else String c EmptyString
      | r' => String c r'
      end
  end.

(** [bytes.Trim] and [strings.Trim] with a cutset of ASCII bytes: the bytes of
    the cutset are sliced off the right end, then off the left end. *)
Definition Trim (s cutset : string) : string :=
  trimLeftASCII cutset (trimRightASCII cutset s).

Fixpoint rev_onto (s acc : string) : string :=
  match s with
  | EmptyString => acc
  | String c r => rev_onto r (String c acc)
  end.

Definition rev_string (s : string) : string := rev_onto s EmptyString.

(** [strings.TrimSuffix s "/"]. *)
Definition TrimSuffix_slash (s : string) : string :=
  match rev_string s with
  | String "/" r => rev_string r
  | _ => s
  end.

(** [bytes.Split] with a one-byte separator: always at least one piece. *)
Fixpoint Split (s : string) (sep : ascii) : list string :=
  match s with
  | EmptyString => [EmptyString]
  | String c r =>
      if Ascii.eqb c sep then EmptyString :: Split r sep
      else match Split r sep with
           | h :: t => String c h :: t
           | [] => [String c EmptyString]
           end
  end.

(** [bytes.SplitN r sep 2] with a one-byte separator: the text before the
    first separator and the text after it, or the text alone when it holds no
    separator. *)
Fixpoint SplitN2 (s : string) (sep : ascii) : list string :=
  match s with
  | EmptyString => [EmptyString]
  | String c r =>
      if Ascii.eqb c sep then [EmptyString; r]
      else match SplitN2 r sep with
           | [h] => [String c h]
           | h :: t => String c h :: t
           | [] => [String c EmptyString]
           end
  end.

(** White space as [unicode.IsSpace] has it, in UTF-8: the six ASCII spaces,
    U+0085, U+00A0, U+1680, U+2000..U+200A, U+2028, U+2029, U+202F, U+205F and
    U+3000. [space2] and [space3] recognise the two-byte and three-byte
    encodings. *)
Definition asciiSpace (c : ascii) : bool :=
  let v := byte_val c in
  (v =? 9) || (v =? 10) || (v =? 11) || (v =? 12) || (v =? 13) || (v =? 32).

Definition space3 (b0 b1 b2 : Z) : bool :=
  ((b0 =? 225) && (b1 =? 154) && (b2 =? 128))
  || ((b0 =? 226) && (b1 =? 128)
      && (((128 <=? b2) && (b2 <=? 138)) || (b2 =? 168) || (b2 =? 169) || (b2 =? 175)))
  || ((b0 =? 226) && (b1 =? 129) && (b2 =? 159))
  || ((b0 =? 227) && (b1 =? 128) && (b2 =? 128)).

Definition space2 (b0 b1 : Z) : bool :=
  (b0 =? 194) && ((b1 =? 133) || (b1 =? 160)).

Fixpoint trimLeftSpace (s : string) : string :=
  match s with
  | EmptyString => EmptyString
  | String c0 r0 =>
      if asciiSpace c0 then trimLeftSpace r0
      else match r0 with
           | String c1 r1 =>
               if space2 (byte_val c0) (byte_val c1) then trimLeftSpace r1
               else match r1 with
                    | String c2 r2 =>
                        if space3 (byte_val c0) (byte_val c1) (byte_val c2)
                        then trimLeftSpace r2 else s
                    | EmptyString => s
                    end
           | EmptyString => s
           end
  end.

(** The same from the right end, on the reversed text: the last rune is a
    white space exactly when the text ends with one of the encodings. *)
Fixpoint trimLeftSpace_rev (s : string) : string :=
  match s with
  | EmptyString => EmptyString
  | String c0 r0 =>
      if asciiSpace c0 then trimLeftSpace_rev r0
      else match r0 with
           | String c1 r1 =>
               if space2 (byte_val c1) (byte_val c0) then trimLeftSpace_rev r1
               else match r1 with
                    | String c2 r2 =>
                        if space3 (byte_val c2) (byte_val c1) (byte_val c0)
                        then trimLeftSpace_rev r2 else s
                    | EmptyString => s
                    end
           | EmptyString => s
           end
  end.

(** [bytes.TrimSpace]. *)
Definition TrimSpace (s : string) : string :=
  rev_string (trimLeftSpace_rev (rev_string (trimLeftSpace s))).

(** Errors of [strconv.ParseUint] and of the range decoder. *)
Inductive error : Type :=
  | ErrSyntax (fn s : string)
  | ErrRange (fn s : string)
  | ErrBadRange (r : string).

Definition maxUint64 : Z := 2 ^ 64 - 1.

Definition is_digit (c : ascii) : bool :=
  (48 <=? byte_val c) && (byte_val c <=? 57).

(** The loop of [strconv.ParseUint s 10 64] over the bytes of [s], [n] the
    value read so far. The result is [inl] the value or [inr] the kind of
    error ([true]: out of range, [false]: syntax). *)
Fixpoint parse_digits (s : string) (n : Z) : Z + bool :=
  match s with
  | EmptyString => inl n
  | String c r =>
      if is_digit c then
        let d := byte_val c - 48 in
        if maxUint64 / 10 + 1 <=? n then inr true
        else
          let n10 := (n * 10) mod 2 ^ 64 in
          let n1 := (n10 + d) mod 2 ^ 64 in
          if (n1 <? n10) || (maxUint64 <? n1) then inr true
          else parse_digits r n1
      else inr false
  end.

(** [strconv.ParseUint s 10 64]. *)
Definition ParseUint (s : string) : Z + error :=
  match s with
  | EmptyString => inr (ErrSyntax "ParseUint" s)
  | _ =>
      match parse_digits s 0 with
      | inl n => inl n
      | inr true => inr (ErrRange "ParseUint" s)
      | inr false => inr (ErrSyntax "ParseUint" s)
      end
  end.

(** [fmt.Sprintf "%d"] of an unsigned integer: its decimal digits. *)
Definition digit_char (d : Z) : ascii := ascii_of_N (Z.to_N (48 + d)).

Fixpoint format_digits (fuel : nat) (n : Z) (acc : string) : string :=
  match fuel with
  | O => acc
  | S fuel' =>
      let acc' := String (digit_char (n mod 10)) acc in
      if n / 10 =? 0 then acc' else format_digits fuel' (n / 10) acc'
  end.

Definition FormatUint (n : Z) : string :=
  format_digits (S (Z.to_nat (Z.log2 n))) n EmptyString.

(** ** The range codec *)

(** [type ranges [][2]uint64]. *)
Definition ranges : Type := list (Z * Z).

(** The loop of [UnmarshalJSON] over the comma-separated segments, [rs] the
    slice behind the receiver: every decoded pair is appended to it at once. *)
Fixpoint unmarshal_segments (segs : list string) (rs : ranges) : ranges * option error :=
  match segs with
  | [] => (rs, None)
  | r :: segs' =>
      match SplitN2 r "-" with
      | [p0; p1] =>
          match ParseUint (TrimSpace p0) with
          | inr e => (rs, Some e)
          | inl lo =>
              match ParseUint (TrimSpace p1) with
              | inr e => (rs, Some e)
              | inl hi => unmarshal_segments segs' (rs ++ [(lo, hi)])
              end
          end
      | _ => (rs, Some (ErrBadRange r))
      end
  end.

(** The bytes sliced off both ends of the input: '[', ']' and the double quote. *)
Definition range_cutset : string := String "[" (String "]" (String dquote EmptyString)).

(** [func (rs *ranges) UnmarshalJSON(data []byte) (err error)]: the receiver
    after the call and the error returned ([None] for nil). *)
Definition ranges_UnmarshalJSON (rs : ranges) (data : string) : ranges * option error :=
  let data := Trim data range_cutset in
  if (String.length data =? 0)%nat then (rs, None)
  else unmarshal_segments (Split data ",") rs.

(** [func (rs ranges) size() uint64]. *)
Definition ranges_size (rs : ranges) : Z :=
  fold_left (fun sz r => (sz + (1 + (r.2 - r.1) mod 2 ^ 64) mod 2 ^ 64) mod 2 ^ 64) rs 0.

(** ** Label names and attribute values *)

Definition is_letter (c : ascii) : bool :=
  let v := byte_val c in
  ((65 <=? v) && (v <=? 90)) || ((97 <=? v) && (v <=? 122)).

Definition is_underscore (c : ascii) : bool := byte_val c =? 95.

(** [[:word:]]: the ASCII letters, the digits and the underscore. *)
Definition is_word (c : ascii) : bool := is_letter c || is_digit c || is_underscore c.

Definition is_cont (lo hi : Z) (c : ascii) : bool :=
  (lo <=? byte_val c) && (byte_val c <=? hi).

(** The width in bytes of the rune at the head of a non-empty text, as
    [utf8.DecodeRuneInString] steps over it: the length of a well-formed
    encoding, and 1 for an ASCII byte or for a byte that starts none. *)
Definition rune_len (s : string) : nat :=
  match s with
  | EmptyString => 0%nat
  | String c0 r0 =>
      let b0 := byte_val c0 in
      let two (lo hi : Z) : nat :=
        match r0 with
        | String c1 _ => if is_cont lo hi c1 then 2%nat else 1%nat
        | _ => 1%nat
        end in
      let three (lo hi : Z) : nat :=
        match r0 with
        | String c1 (String c2 _) =>
            if is_cont lo hi c1 && is_cont 128 191 c2 then 3%nat else 1%nat
        | _ => 1%nat
        end in
      let four (lo hi : Z) : nat :=
        match r0 with
        | String c1 (String c2 (String c3 _)) =>
            if is_cont lo hi c1 && is_cont 128 191 c2 && is_cont 128 191 c3
            then 4%nat else 1%nat
        | _ => 1%nat
        end in
      if b0 <? 194 then 1%nat
      else if b0 <=? 223 then two 128 191
      else if b0 =? 224 then three 160 191
      else if b0 =? 237 then three 128 159
      else if b0 <=? 239 then three 128 191
      else if b0 =? 240 then four 144 191
      else if b0 <=? 243 then four 128 191
      else if b0 =? 244 then four 128 143
      else 1%nat
  end.

(** The replacement loop of [invalidLabelNameCharRE.ReplaceAllString label "_"]
    for the expression [(^[^a-zA-Z_])|([^a-zA-Z0-9_])]: every match is one
    rune, the first alternative can only match at the start of the text.
    [first] says the loop is at the start, [skip] counts the bytes still to
    step over of a rune that was replaced. *)
Fixpoint normalise_from (first : bool) (skip : nat) (s : string) : string :=
  match s with
  | EmptyString => EmptyString
  | String c r =>
      match skip with
      | S k => normalise_from false k r
      | O =>
          if is_letter c || is_underscore c || (negb first && is_digit c)
          then String c (normalise_from false 0 r)
          else String "_" (normalise_from false (rune_len s - 1) r)
      end
  end.

(** [func normaliseLabel(label string) string]. *)
Definition normaliseLabel (label : string) : string := normalise_from true 0 label.

(** [func normaliseLabelList(labelList []string) []string]. *)
Definition normaliseLabelList (labelList : list string) : list string :=
  fold_left (fun normalisedLabelList label => normalisedLabelList ++ [normaliseLabel label])
    labelList [].

(** [func stringInSlice(string string, slice []string) bool]. *)
Fixpoint stringInSlice (str : string) (slice : list string) : bool :=
  match slice with
  | [] => false
  | elem :: rest => if String.eqb str elem then true else stringInSlice str rest
  end.

(** [prometheus.Labels] is [map[string]string]; reading a key that is not in
    the map gives the empty string. *)
Definition Labels_get (labels : gmap string string) (label : string) : string :=
  default EmptyString (labels !! label).

(** [func getLabelValuesFromMap(labels prometheus.Labels, orderedLabelKeys []string) []string]. *)
Definition getLabelValuesFromMap (labels : gmap string string)
    (orderedLabelKeys : list string) : list string :=
  fold_left (fun labelValues label => labelValues ++ [Labels_get labels label])
    orderedLabelKeys [].

(** The class of [text]: [[-[:word:]/.]]. *)
Definition text_class (c : ascii) : bool :=
  (byte_val c =? 45) || is_word c || (byte_val c =? 47) || (byte_val c =? 46).

Fixpoint all_bytes (p : ascii -> bool) (s : string) : bool :=
  match s with
  | EmptyString => true
  | String c r => p c && all_bytes p r
  end.

(** [text.MatchString value] for [^[-[:word:]/.]*$]: the whole text is made of
    bytes of the class (a rune of two or more bytes, or a byte that is not
    UTF-8, is not in the class). *)
Definition text_MatchString (value : string) : bool := all_bytes text_class value.

Inductive drop_error : Type := errDropAttribute.

(** [func attributeString(attribute json.RawMessage) (string, error)]. *)
Definition attributeString (attribute : string) : string * option drop_error :=
  let value := Trim attribute (String dquote EmptyString) in
  if text_MatchString value then (value, None)
  else (EmptyString, Some errDropAttribute).

(** ** The metrics library (package [prometheus]), as far as the exporter uses it *)

Inductive ValueType : Type := CounterValue | GaugeValue.

(** [prometheus.Desc]: the name, the help text, the names of the variable
    labels, and whether the descriptor was built with an error. *)
Record Desc : Type := mkDesc {
  fqName : string;
  help : string;
  variableLabels : list string;
  desc_err : bool
}.

(** [prometheus.BuildFQName]. *)
Definition BuildFQName (namespace subsystem name : string) : string :=
  if String.eqb name "" then ""
  else if negb (String.eqb namespace "") && negb (String.eqb subsystem "")
       then namespace +:+ "_" +:+ subsystem +:+ "_" +:+ name
  else if negb (String.eqb namespace "") then namespace +:+ "_" +:+ name
  else if negb (String.eqb subsystem "") then subsystem +:+ "_" +:+ name
  else name.

Definition valid_name (colon : bool) (s : string) : bool :=
  match s with
  | EmptyString => false
  | String c r =>
      (is_letter c || is_underscore c || (colon && (byte_val c =? 58)))
      && all_bytes (fun c => is_word c || (colon && (byte_val c =? 58))) r
  end.

(** A label name must be a valid name that does not start with two underscores. *)
Definition checkLabelName (l : string) : bool :=
  valid_name false l
  && negb match l with String a (String b _) => is_underscore a && is_underscore b | _ => false end.

Fixpoint has_duplicates (l : list string) : bool :=
  match l with
  | [] => false
  | x :: r => stringInSlice x r || has_duplicates r
  end.

(** [prometheus.NewDesc fqName help variableLabels prometheus.Labels{}]: the
    descriptor carries an error when the name or a label name is not valid or
    when a label name is repeated. *)
Definition NewDesc (fqName help : string) (variableLabels : list string) : Desc :=
  mkDesc fqName help variableLabels
    (negb (valid_name true fqName)
     || negb (forallb checkLabelName variableLabels)
     || has_duplicates variableLabels).

(** A value of the interface [prometheus.Metric] as it travels on the output
    channel: nil, or a sample of a descriptor with its label values. *)
Inductive Metric : Type :=
  | NilMetric
  | Sample (desc : Desc) (valueType : ValueType) (value : float) (labelValues : list string).

(** [prometheus.NewConstMetric]: an error when the descriptor has one or when
    the number of label values is not the number of variable labels. *)
Definition NewConstMetric (desc : Desc) (valueType : ValueType) (value : float)
    (labelValues : list string) : option Metric :=
  if desc_err desc then None
  else if negb (length labelValues =? length (variableLabels desc))%nat then None
  else Some (Sample desc valueType value labelValues).

(** [*prometheus.GaugeVec]: one gauge per tuple of label values, created by
    the first [WithLabelValues] and kept until the vector is reset. *)
Record GaugeVec : Type := mkGaugeVec {
  gv_desc : Desc;
  gv_children : gmap (list string) float
}.

Definition NewGaugeVec (namespace subsystem name help : string) (labels : list string) : GaugeVec :=
  mkGaugeVec (NewDesc (BuildFQName namespace subsystem name) help labels) ∅.

(** [func gauge(subsystem, name, help string, labels ...string) *prometheus.GaugeVec]. *)
Definition gauge (subsystem name help : string) (labels : list string) : GaugeVec :=
  NewGaugeVec "mesos" subsystem name help labels.

(** [type settableCounterVec struct]. *)
Record settableCounterVec : Type := mkSettableCounterVec {
  scv_desc : Desc;
  scv_values : list Metric
}.

(** [type settableCounter struct]; [sc_value] is nil until the first [Set]. *)
Record settableCounter : Type := mkSettableCounter {
  sc_desc : Desc;
  sc_value : Metric
}.

(** [func newSettableCounter(subsystem, name, help string) *settableCounter]. *)
Definition newSettableCounter (subsystem name help : string) : settableCounter :=
  mkSettableCounter (NewDesc (BuildFQName "mesos" subsystem name) help []) NilMetric.

(** [func counter(subsystem, name, help string, labels ...string) *settableCounterVec]. *)
Definition counter (subsystem name help : string) (labels : list string) : settableCounterVec :=
  let desc := NewDesc (BuildFQName "mesos" subsystem name) help labels in
  mkSettableCounterVec desc [].

(** The metric objects the collectors keep as keys of their [metrics] maps,
    by dynamic type. *)
Inductive MetricVec : Type :=
  | GaugeVecC (g : GaugeVec)
  | CounterVecC (c : settableCounterVec)
  | CounterC (c : settableCounter).

(** ** The HTTP client and the world around a scrape *)

(** [type authInfo struct]. *)
Record authInfo : Type := mkAuthInfo {
  username : string;
  password : string;
  loginURL : string;
  token : string;
  tokenExpire : Z;
  signingKey : string;
  strictMode : bool;
  privateKey : string;
  skipSSLVerify : bool
}.

(** [type httpClient struct]. *)
Record httpClient : Type := mkHttpClient {
  url : string;
  auth : authInfo;
  userAgent : string
}.

Definition set_tokenExpire (t : Z) (a : authInfo) : authInfo :=
  mkAuthInfo (username a) (password a) (loginURL a) (token a) t (signingKey a)
    (strictMode a) (privateKey a) (skipSSLVerify a).

Definition set_token (tok : string) (a : authInfo) : authInfo :=
  mkAuthInfo (username a) (password a) (loginURL a) tok (tokenExpire a) (signingKey a)
    (strictMode a) (privateKey a) (skipSSLVerify a).

Definition set_auth (a : authInfo) (c : httpClient) : httpClient :=
  mkHttpClient (url c) a (userAgent c).

(** [type resources struct]. *)
Record resources : Type := mkResources {
  CPUs : float;
  Disk : float;
  Mem : float;
  Ports : ranges
}.

(** [type slave struct]. [Attributes] is a Go map that the collector ranges
    over: it is kept as the list of its entries in the order of the iteration. *)
Record slave : Type := mkSlave {
  PID : string;
  Hostname : string;
  Id : string;
  Port : Z;
  Used : resources;
  Unreserved : resources;
  Total : resources;
  Attributes : list (string * string)
}.

(** [type state struct], without the frameworks, which no collector of this
    file reads. *)
Record state : Type := mkState {
  Slaves : list slave
}.

(** [type versionFields struct]. *)
Record versionFields : Type := mkVersionFields {
  BuildDate : string;
  BuildTime : float;
  GitSHA : string;
  GitTag : string;
  Version : string
}.

(** [type metricMap map[string]float64]. *)
Abbreviation metricMap := (gmap string float).

(** What the outside world answers to one token refresh: the clock read by
    [authToken] and by [signingToken] (Unix seconds), whether the PEM key
    parses, the signed assertion if signing succeeds, whether the login request
    can be marshalled and built, whether the POST gets a response, and the
    token of the response if its body decodes. *)
Record auth_env : Type := mkAuthEnv {
  now_auth : Z;
  key_parses : bool;
  now_sign : Z;
  signed : option string;
  marshal_ok : bool;
  login_request_ok : bool;
  login_transport_ok : bool;
  login_token : option string
}.

(** What [json.Decoder.Decode] leaves in a target and whether it returned nil. *)
Record decoded (T : Type) : Type := mkDecoded {
  dec_value : T;
  dec_ok : bool
}.
Arguments mkDecoded {T} _ _.
Arguments dec_value {T} _.
Arguments dec_ok {T} _.

(** What the outside world answers to one [fetchAndDecode]: whether the GET
    request can be built, the answers to a token refresh, whether the GET gets
    a response, and the decoding of the body into each kind of target. *)
Record fetch_env : Type := mkFetchEnv {
  request_ok : bool;
  refresh : auth_env;
  transport_ok : bool;
  body_state : decoded state;
  body_version : decoded versionFields;
  body_metrics : decoded metricMap
}.

Inductive log_level : Type := DebugLevel | WarnLevel | ErrorLevel.

Inductive log_field : Type :=
  | F_url (u : string)
  | F_error
  | F_uid (u : string)
  | F_expires (t : Z)
  | F_counter
  | F_metric (d : Desc).

Record log_entry : Type := mkLog {
  level : log_level;
  message : string;
  fields : list log_field
}.

(** The state a scrape runs in and changes: the process-wide error counter,
    the log, the metrics sent on the registry's channel, the HTTP client that
    the collectors share (with its token cache), and the outside world as the
    sequence of its answers, [requests] counting the fetches made so far. *)
Record world : Type := mkWorld {
  errorCounter : nat;
  logged : list log_entry;
  sent : list Metric;
  http : httpClient;
  requests : nat;
  network : nat -> fetch_env
}.

(** How a call ends: it returns, it parks the goroutine for ever on a channel,
    or it panics. *)
Inductive result (A : Type) : Type :=
  | Ok (a : A)
  | Blocked
  | Panicked.
Arguments Ok {A} _.
Arguments Blocked {A}.
Arguments Panicked {A}.

Definition M (A : Type) : Type := world -> result A * world.

Definition ret {A : Type} (a : A) : M A := fun w => (Ok a, w).

Definition bind {A B : Type} (m : M A) (k : A -> M B) : M B :=
  fun w =>
    match m w with
    | (Ok a, w') => k a w'
    | (Blocked, w') => (Blocked, w')
    | (Panicked, w') => (Panicked, w')
    end.

Definition panic {A : Type} : M A := fun w => (Panicked, w).

Notation "x <- c1 ;; c2" := (bind c1 (fun x => c2))
  (at level 20, c1 at level 99, c2 at level 200, only parsing).
Notation "' pat <- c1 ;; c2" := (bind c1 (fun x => match x with pat => c2 end))
  (at level 20, pat pattern, c1 at level 99, c2 at level 200, only parsing).
Notation "c1 ;; c2" := (bind c1 (fun _ => c2))
  (at level 100, c2 at level 200, only parsing, right associativity).

Definition get_world : M world := fun w => (Ok w, w).

Definition log_entry_add (l : log_level) (msg : string) (fs : list log_field) : M unit :=
  fun w => (Ok tt, mkWorld (errorCounter w) (logged w ++ [mkLog l msg fs]) (sent w)
                     (http w) (requests w) (network w)).

(** [errorCounter.Inc()]. *)
Definition errorCounter_Inc : M unit :=
  fun w => (Ok tt, mkWorld (S (errorCounter w)) (logged w) (sent w)
                     (http w) (requests w) (network w)).

(** [ch <- v] on the channel the registry reads. *)
Definition send (v : Metric) : M unit :=
  fun w => (Ok tt, mkWorld (errorCounter w) (logged w) (sent w ++ [v])
                     (http w) (requests w) (network w)).

Definition put_auth (a : authInfo) : M unit :=
  fun w => (Ok tt, mkWorld (errorCounter w) (logged w) (sent w)
                     (set_auth a (http w)) (requests w) (network w)).

(** The answers of the outside world to the fetch that starts now. *)
Definition next_fetch : M fetch_env :=
  fun w => (Ok (network w (requests w)),
            mkWorld (errorCounter w) (logged w) (sent w) (http w) (S (requests w)) (network w)).

(** A buffered channel local to one goroutine: [make(chan T, cap)] and [<-ch].
    A receive from an empty channel waits for a sender; a channel that no
    other goroutine knows never gets one. *)
Record chan (A : Type) : Type := mkChan {
  chan_cap : nat;
  chan_buf : list A
}.
Arguments mkChan {A} _ _.
Arguments chan_cap {A} _.
Arguments chan_buf {A} _.

Definition make_chan (A : Type) (cap : nat) : chan A := mkChan cap [].

Definition chan_recv {A : Type} (ch : chan A) : M (A * chan A) :=
  match chan_buf ch with
  | x :: rest => ret (x, mkChan (chan_cap ch) rest)
  | [] => fun w => (Blocked, w)
  end.

(** ** The settable counters *)

Fixpoint send_all (vs : list Metric) : M unit :=
  match vs with
  | [] => ret tt
  | v :: rest => send v ;; send_all rest
  end.

(** [func (c *settableCounterVec) Collect(ch chan<- prometheus.Metric)]. *)
Definition settableCounterVec_Collect (c : settableCounterVec) : M settableCounterVec :=
  send_all (scv_values c) ;;
  ret (mkSettableCounterVec (scv_desc c) []).

(** [func (c *settableCounterVec) Set(value float64, labelValues ...string)];
    [prometheus.MustNewConstMetric] panics on an error. *)
Definition settableCounterVec_Set (c : settableCounterVec) (value : float)
    (labelValues : list string) : M settableCounterVec :=
  match NewConstMetric (scv_desc c) CounterValue value labelValues with
  | Some m => ret (mkSettableCounterVec (scv_desc c) (scv_values c ++ [m]))
  | None => panic
  end.

(** [func (c *settableCounter) Collect(ch chan<- prometheus.Metric)]. *)
Definition settableCounter_Collect (c : settableCounter) : M settableCounter :=
  (match sc_value c with
   | NilMetric => log_entry_add WarnLevel "NIL value" [F_counter]
   | _ => ret tt
   end) ;;
  send (sc_value c) ;;
  ret c.

(** [func (c *settableCounter) Set(value float64)]. *)
Definition settableCounter_Set (c : settableCounter) (value : float) : M settableCounter :=
  match NewConstMetric (sc_desc c) CounterValue value [] with
  | Some m => ret (mkSettableCounter (sc_desc c) m)
  | None => panic
  end.

(** [vec.WithLabelValues(lvs...).Set(v)]: the gauge of the tuple is created
    if it is new and takes the value; a wrong number of label values panics. *)
Definition GaugeVec_Set (g : GaugeVec) (lvs : list string) (v : float) : M GaugeVec :=
  if (length lvs =? length (variableLabels (gv_desc g)))%nat
  then ret (mkGaugeVec (gv_desc g) (<[lvs := v]> (gv_children g)))
  else panic.

(** [vec.Collect(ch)]: every gauge the vector holds is sent. *)
Definition GaugeVec_Collect (g : GaugeVec) : M GaugeVec :=
  send_all (map (fun kv => Sample (gv_desc g) GaugeValue kv.2 kv.1)
              (map_to_list (gv_children g))) ;;
  ret g.

(** [c.Collect(ch)] on a key of a [metrics] map, by its dynamic type. *)
Definition MetricVec_Collect (c : MetricVec) : M MetricVec :=
  match c with
  | GaugeVecC g => g' <- GaugeVec_Collect g ;; ret (GaugeVecC g')
  | CounterVecC v => v' <- settableCounterVec_Collect v ;; ret (CounterVecC v')
  | CounterC s => s' <- settableCounter_Collect s ;; ret (CounterC s')
  end.

(** ** Token refresh and fetching *)

(** [func signingToken(httpClient *httpClient) string]. A key that does not
    parse is logged and [signKey] stays nil; [token.SignedString(signKey)]
    then dereferences the nil key and panics. *)
Definition signingToken (e : auth_env) : M string :=
  (if key_parses e then ret tt
   else log_entry_add ErrorLevel "Error parsing privateKey" [F_error]) ;;
  w <- get_world ;;
  let expireToken := now_sign e + 3600 in
  put_auth (set_tokenExpire expireToken (auth (http w))) ;;
  log_entry_add DebugLevel "creating token"
    [F_uid (username (auth (http w))); F_expires expireToken] ;;
  if negb (key_parses e) then panic
  else
    match signed e with
    | None => log_entry_add ErrorLevel "Error creating login token" [F_error] ;; ret ""
    | Some tokenString => ret tokenString
    end.

(** The body of the [if] of [authToken]: [Some s] when it returns [s] from
    the function, [None] when control reaches the end of the [if]. *)
Definition refresh_token (e : auth_env) : M (option string) :=
  w <- get_world ;;
  let url := loginURL (auth (http w)) in
  signingToken' <- signingToken e ;;
  if negb (marshal_ok e) then
    log_entry_add ErrorLevel "Error creating JSON request" [F_error] ;; ret (Some "")
  else if negb (login_request_ok e) then
    log_entry_add ErrorLevel "Error creating HTTP request" [F_url url; F_error] ;; ret (Some "")
  else if negb (login_transport_ok e) then
    log_entry_add ErrorLevel "Error fetching URL" [F_url url; F_error] ;;
    errorCounter_Inc ;; ret (Some "")
  else
    match login_token e with
    | None =>
        log_entry_add ErrorLevel "Error decoding response body" [F_url url; F_error] ;;
        errorCounter_Inc ;; ret (Some "")
    | Some tok =>
        w' <- get_world ;;
        put_auth (set_token ("token=" +:+ tok) (auth (http w'))) ;;
        ret None
    end.

(** [func authToken(httpClient *httpClient) string]. *)
Definition authToken (e : auth_env) : M string :=
  w <- get_world ;;
  let currentTime := now_auth e in
  early <- (if tokenExpire (auth (http w)) <? currentTime then refresh_token e else ret None) ;;
  match early with
  | Some s => ret s
  | None => w' <- get_world ;; ret (token (auth (http w')))
  end.

(** [func (httpClient *httpClient) fetchAndDecode(endpoint string, target interface{}) bool]:
    the flag returned and the target after the call. [pick] reads the body as
    a value of the target's type. The request headers have no effect on the
    state and are left out. *)
Definition fetchAndDecode {T : Type} (pick : fetch_env -> decoded T)
    (endpoint : string) (target : T) : M (bool * T) :=
  e <- next_fetch ;;
  w <- get_world ;;
  let url := TrimSuffix_slash (url (http w)) +:+ endpoint in
  if negb (request_ok e) then
    log_entry_add ErrorLevel "Error creating HTTP request" [F_url url; F_error] ;;
    ret (false, target)
  else
    (if strictMode (auth (http w)) then authToken (refresh e) ;; ret tt else ret tt) ;;
    log_entry_add DebugLevel "fetching URL" [F_url url] ;;
    if negb (transport_ok e) then
      log_entry_add ErrorLevel "Error fetching URL" [F_url url; F_error] ;;
      errorCounter_Inc ;; ret (false, target)
    else if negb (dec_ok (pick e)) then
      log_entry_add ErrorLevel "Error decoding response body" [F_url url; F_error] ;;
      errorCounter_Inc ;; ret (false, dec_value (pick e))
    else ret (true, dec_value (pick e)).

(** ** The state collector *)

(** [float64(size)] for a [uint64]: both halves of the number are below 2^32
    and convert exactly, so does the product by 2^32, and the sum rounds once. *)
Definition float64_of_uint64 (n : Z) : float :=
  PrimFloat.add
    (PrimFloat.mul (PrimFloat.of_uint63 (Uint63.of_Z (n / 2 ^ 32))) 4294967296%float)
    (PrimFloat.of_uint63 (Uint63.of_Z (n mod 2 ^ 32))).

Definition labels : list string := ["slave"; "hostname"; "port"; "id"].

(** The label values every slave gauge is set with:
    [s.PID, s.Hostname, fmt.Sprintf("%d", s.Port), s.Id]. *)
Definition slave_label_values (s : slave) : list string :=
  [PID s; Hostname s; FormatUint (Port s); Id s].

(** The loop over [st.Slaves] of a gauge: the collector is asserted to be a gauge
    vector, which gets the gauge of the slave and sets it. *)
Fixpoint set_slave_gauges (value : slave -> float) (slaves : list slave) (c : MetricVec)
    : M MetricVec :=
  match slaves with
  | [] => ret c
  | s :: rest =>
      match c with
      | GaugeVecC g =>
          g' <- GaugeVec_Set g (slave_label_values s) (value s) ;;
          set_slave_gauges value rest (GaugeVecC g')
      | _ => panic
      end
  end.

Definition setter : Type := state -> MetricVec -> M MetricVec.

Definition slave_gauge (name help : string) (value : slave -> float) : MetricVec * setter :=
  (GaugeVecC (NewGaugeVec "mesos" "slave" name help labels),
   fun st c => set_slave_gauges value (Slaves st) c).

Definition times_1024 (x : float) : float := PrimFloat.mul x 1024%float.

(** The twelve gauges of [newMasterStateCollector], in the order of the source. *)
Definition slave_gauges : list (MetricVec * setter) :=
  [ slave_gauge "cpus" "Total slave CPUs (fractional)" (fun s => CPUs (Total s));
    slave_gauge "cpus_used" "Used slave CPUs (fractional)" (fun s => CPUs (Used s));
    slave_gauge "cpus_unreserved" "Unreserved slave CPUs (fractional)"
      (fun s => CPUs (Unreserved s));
    slave_gauge "mem_bytes" "Total slave memory in bytes" (fun s => times_1024 (Mem (Total s)));
    slave_gauge "mem_used_bytes" "Used slave memory in bytes"
      (fun s => times_1024 (Mem (Used s)));
    slave_gauge "mem_unreserved_bytes" "Unreserved slave memory in bytes"
      (fun s => times_1024 (Mem (Unreserved s)));
    slave_gauge "disk_bytes" "Total slave disk space in bytes"
      (fun s => times_1024 (Disk (Total s)));
    slave_gauge "disk_used_bytes" "Used slave disk space in bytes"
      (fun s => times_1024 (Disk (Used s)));
    slave_gauge "disk_unreserved_bytes" "Unreserved slave disk in bytes"
      (fun s => times_1024 (Disk (Unreserved s)));
    slave_gauge "ports" "Total slave ports"
      (fun s => float64_of_uint64 (ranges_size (Ports (Total s))));
    slave_gauge "ports_used" "Used slave ports"
      (fun s => float64_of_uint64 (ranges_size (Ports (Used s))));
    slave_gauge "ports_unreserved" "Unreserved slave ports"
      (fun s => float64_of_uint64 (ranges_size (Ports (Unreserved s)))) ].

(** [for key, value := range s.Attributes { ... }] of the attribute metric. *)
Fixpoint export_attributes (normalisedAttributeLabels : list string)
    (attributes : list (string * string)) (slaveAttributesExport : gmap string string)
    : gmap string string :=
  match attributes with
  | [] => slaveAttributesExport
  | (key, value) :: rest =>
      let normalisedLabel := normaliseLabel key in
      export_attributes normalisedAttributeLabels rest
        (if stringInSlice normalisedLabel normalisedAttributeLabels then
           match attributeString value with
           | (attribute, None) => <[normalisedLabel := attribute]> slaveAttributesExport
           | (_, Some _) => slaveAttributesExport
           end
         else slaveAttributesExport)
  end.

(** The map [slaveAttributesExport] the attribute metric builds for a slave. *)
Definition slaveAttributesExport (normalisedAttributeLabels : list string) (s : slave)
    : gmap string string :=
  export_attributes normalisedAttributeLabels (Attributes s)
    (fold_left (fun m label => <[label := ""]> m) normalisedAttributeLabels
       {["slave" := PID s]}).

(** The function of the attribute metric (lines 173-193). *)
Fixpoint set_slave_attributes (normalisedAttributeLabels slaveAttributesLabelsExport : list string)
    (slaves : list slave) (c : MetricVec) : M MetricVec :=
  match slaves with
  | [] => ret c
  | s :: rest =>
      let export := slaveAttributesExport normalisedAttributeLabels s in
      match c with
      | CounterVecC v =>
          v' <- settableCounterVec_Set v 1%float
                  (getLabelValuesFromMap export slaveAttributesLabelsExport) ;;
          set_slave_attributes normalisedAttributeLabels slaveAttributesLabelsExport rest
            (CounterVecC v')
      | _ => panic
      end
  end.

(** [type masterCollector struct]: [metrics] in the order the map is ranged over. *)
Record masterCollector : Type := mkMasterCollector {
  master_metrics : list (MetricVec * setter)
}.

(** [func newMasterStateCollector(httpClient *httpClient, slaveAttributeLabels []string) prometheus.Collector]. *)
Definition newMasterStateCollector (slaveAttributeLabels : list string) : masterCollector :=
  mkMasterCollector
    (slave_gauges ++
     if (0 <? length slaveAttributeLabels)%nat then
       let normalisedAttributeLabels := normaliseLabelList slaveAttributeLabels in
       let slaveAttributesLabelsExport := labels ++ normalisedAttributeLabels in
       [ (CounterVecC (counter "slave" "attributes" "Attributes assigned to slaves"
                         slaveAttributesLabelsExport),
          fun st c => set_slave_attributes normalisedAttributeLabels
                        slaveAttributesLabelsExport (Slaves st) c) ]
     else []).

(** [for c, set := range c.metrics { set(&s, c); c.Collect(ch) }]. *)
Fixpoint collect_state_metrics (s : state) (metrics : list (MetricVec * setter))
    : M (list (MetricVec * setter)) :=
  match metrics with
  | [] => ret []
  | (c, set) :: rest =>
      c1 <- set s c ;;
      c2 <- MetricVec_Collect c1 ;;
      rest' <- collect_state_metrics s rest ;;
      ret ((c2, set) :: rest')
  end.

(** [func (c *masterCollector) Collect(ch chan<- prometheus.Metric)]. *)
Definition masterCollector_Collect (c : masterCollector) : M masterCollector :=
  '(_, s) <- fetchAndDecode body_state "/state" (mkState []) ;;
  metrics <- collect_state_metrics s (master_metrics c) ;;
  ret (mkMasterCollector metrics).

(** ** The numeric-map collector *)

(** [const LogErrNotFoundInMap]. *)
Definition LogErrNotFoundInMap : string := "Couldn't find key in map".

(** [type metricsCollectorFunctor func(metricMap, prometheus.Collector) error]:
    the collector after the call and the error returned ([None] for nil). *)
Definition metricsCollectorFunctor : Type := metricMap -> MetricVec -> MetricVec * option string.

(** [type metricCollector struct]: [metrics] in the order the map is ranged over. *)
Record metricCollector : Type := mkMetricCollector {
  mc_metrics : list (MetricVec * metricsCollectorFunctor)
}.

(** [func newMetricCollector(httpClient *httpClient, metrics map[...]...) prometheus.Collector]. *)
Definition newMetricCollector (metrics : list (MetricVec * metricsCollectorFunctor))
    : metricCollector :=
  mkMetricCollector metrics.

(** [for cm, f := range c.metrics { ... }] of [metricCollector.Collect]. The
    channel [ch] of the error branch is made there and received from at once. *)
Fixpoint collect_map_metrics (m : metricMap) (metrics : list (MetricVec * metricsCollectorFunctor))
    : M (list (MetricVec * metricsCollectorFunctor)) :=
  match metrics with
  | [] => ret []
  | (cm, f) :: rest =>
      let '(cm1, err) := f m cm in
      match err with
      | Some _ =>
          let ch := make_chan Desc 1 in
          '(d, _) <- chan_recv ch ;;
          log_entry_add ErrorLevel "Error extracting metric" [F_metric d; F_error] ;;
          errorCounter_Inc ;;
          rest' <- collect_map_metrics m rest ;;
          ret ((cm1, f) :: rest')
      | None =>
          cm2 <- MetricVec_Collect cm1 ;;
          rest' <- collect_map_metrics m rest ;;
          ret ((cm2, f) :: rest')
      end
  end.

(** [func (c *metricCollector) Collect(ch chan<- prometheus.Metric)]. *)
Definition metricCollector_Collect (c : metricCollector) : M metricCollector :=
  '(_, m) <- fetchAndDecode body_metrics "/metrics/snapshot" (∅ : metricMap) ;;
  metrics <- collect_map_metrics m (mc_metrics c) ;;
  ret (mkMetricCollector metrics).

(** ** The version collector and the grouped collector *)

Section Exporter.

(** [fmt.Sprintf("%f", x)] of a [float64], left abstract. *)
Variable Sprintf_f : float -> string.

(** [type versionCollector struct]. *)
Record versionCollector : Type := mkVersionCollector {
  version_metric : GaugeVec
}.

(** [func newVersionCollector(httpclient *httpClient) prometheus.Collector]. *)
Definition newVersionCollector : versionCollector :=
  let labels := ["build_date"; "build_time"; "git_sha"; "git_tag"; "version"] in
  mkVersionCollector
    (gauge "" "version"
       "Version information for the mesos slave/master stored in labeling" labels).

Definition zero_versionFields : versionFields := mkVersionFields "" 0%float "" "" "".

(** [func (v *versionCollector) Collect(ch chan<- prometheus.Metric)]. *)
Definition versionCollector_Collect (v : versionCollector) : M versionCollector :=
  '(ok, vf) <- fetchAndDecode body_version "/version" zero_versionFields ;;
  if ok : bool then
    g <- GaugeVec_Set (version_metric v)
           [BuildDate vf; Sprintf_f (BuildTime vf); GitSHA vf; GitTag vf; Version vf] 1%float ;;
    g' <- GaugeVec_Collect g ;;
    ret (mkVersionCollector g')
  else ret v.

(** The collectors of this file behind the interface [prometheus.Collector];
    [type groupedCollector struct] holds a slice of them. *)
#[warnings="-register-all"]
Inductive Collector : Type :=
  | MasterCollector (c : masterCollector)
  | MetricCollector (c : metricCollector)
  | VersionCollector (c : versionCollector)
  | GroupedCollector (Collectors : list Collector).

(** [func newGroupedCollector(collectors ...prometheus.Collector) prometheus.Collector]. *)
Definition newGroupedCollector (collectors : list Collector) : Collector :=
  GroupedCollector collectors.

(** [func newStandardCollector(httpClient *httpClient, metrics map[...]...) prometheus.Collector]. *)
Definition newStandardCollector (metrics : list (MetricVec * metricsCollectorFunctor))
    : Collector :=
  newGroupedCollector
    [ MetricCollector (newMetricCollector metrics);
      VersionCollector newVersionCollector ].

(** [collector.Collect(ch)] through the interface; for a grouped collector
    [func (c *groupedCollector) Collect(ch chan<- prometheus.Metric)], the
    members in the order of the slice. *)
Fixpoint Collect (c : Collector) : M Collector :=
  match c with
  | MasterCollector m => m' <- masterCollector_Collect m ;; ret (MasterCollector m')
  | MetricCollector m => m' <- metricCollector_Collect m ;; ret (MetricCollector m')
  | VersionCollector v => v' <- versionCollector_Collect v ;; ret (VersionCollector v')
  | GroupedCollector cs =>
      cs' <- (fix collect_members (cs : list Collector) : M (list Collector) :=
                match cs with
                | [] => ret []
                | collector :: rest =>
                    collector' <- Collect collector ;;
                    rest' <- collect_members rest ;;
                    ret (collector' :: rest')
                end) cs ;;
      ret (GroupedCollector cs')
  end.

End Exporter.

(** ** Describing the metrics *)

(** [c.Describe(ch)] on a key of a [metrics] map, by its dynamic type: the
    descriptors sent on [ch]. A [settableCounter] warns of a nil descriptor
    before it sends it; [sc_desc] is never nil. *)
Definition MetricVec_Describe (c : MetricVec) : list Desc :=
  match c with
  | GaugeVecC g => [gv_desc g]
  | CounterVecC v => [scv_desc v]
  | CounterC s => [sc_desc s]
  end.

(** [func (c *masterCollector) Describe(ch chan<- *prometheus.Desc)]. *)
Definition masterCollector_Describe (c : masterCollector) : list Desc :=
  flat_map (fun entry => MetricVec_Describe entry.1) (master_metrics c).

(** [func (c *metricCollector) Describe(ch chan<- *prometheus.Desc)]. *)
Definition metricCollector_Describe (c : metricCollector) : list Desc :=
  flat_map (fun entry => MetricVec_Describe entry.1) (mc_metrics c).

(** [func (v *versionCollector) Describe(ch chan<- *prometheus.Desc)]. *)
Definition versionCollector_Describe (v : versionCollector) : list Desc :=
  [gv_desc (version_metric v)].

(** [collector.Describe(ch)] through the interface; for a grouped collector
    [func (c *groupedCollector) Describe(ch chan<- *prometheus.Desc)]. *)
Fixpoint Describe (c : Collector) : list Desc :=
  match c with
  | MasterCollector m => masterCollector_Describe m
  | MetricCollector m => metricCollector_Describe m
  | VersionCollector v => versionCollector_Describe v
  | GroupedCollector cs =>
      (fix describe_members (cs : list Collector) : list Desc :=
         match cs with
         | [] => []
         | collector :: rest => Describe collector ++ describe_members rest
         end) cs
  end.

(** * The vocabulary of the properties *)

(** The bytes other than [sep]. *)
Definition not_byte (sep : ascii) (c : ascii) : bool := negb (Ascii.eqb c sep).

(** The text is empty or starts with a decimal digit. *)
Definition head_digit (s : string) : bool :=
  match s with
  | EmptyString => true
  | String c _ => is_digit c
  end.

(** A bound is numeric when it is a non-empty text of decimal digits. *)
Definition numeric (b : string) : bool :=
  match b with
  | EmptyString => false
  | _ => all_bytes is_digit b
  end.

(** The comma-separated segments of an input of the range decoder: none when
    nothing is left once the wrapping brackets and quotes are sliced off. *)
Definition segments (data : string) : list string :=
  match Trim data range_cutset with
  | EmptyString => []
  | text => Split text ","
  end.

(** A segment [lo-hi] read at its first separator. *)
Definition segment_bounds (r p0 p1 : string) : Prop :=
  r = p0 +:+ String "-" p1 /\ all_bytes (not_byte "-") p0 = true.

(** The segment holds no [-]. *)
Definition missing_separator (r : string) : Prop :=
  all_bytes (not_byte "-") r = true.

(** The segment holds a [-], and the text before the first one or the text
    after it is, white space apart, not numeric. *)
Definition non_numeric_bound (r : string) : Prop :=
  exists p0 p1, segment_bounds r p0 p1
    /\ (numeric (TrimSpace p0) = false \/ numeric (TrimSpace p1) = false).

(** A malformed segment: the separator is missing or a bound is not numeric. *)
Definition malformed (r : string) : Prop :=
  missing_separator r \/ non_numeric_bound r.

(** A segment denotes the pair of the numbers its two bounds read as. *)
Definition segment_denotes (r : string) (p : Z * Z) : Prop :=
  exists p0 p1, segment_bounds r p0 p1
    /\ ParseUint (TrimSpace p0) = inl p.1 /\ ParseUint (TrimSpace p1) = inl p.2.

(** The sum of the sizes of the intervals, over the integers. *)
Definition sum_sizes (rs : ranges) : Z :=
  fold_right (fun r acc => (r.2 - r.1 + 1) + acc) 0 rs.

(** The text [a-b]. *)
Definition interval_text (a b : Z) : string := FormatUint a +:+ "-" +:+ FormatUint b.

(** The text [a-b,c-d]. *)
Definition range_text (a b c d : Z) : string :=
  interval_text a b +:+ "," +:+ interval_text c d.

(** The world after more metrics were sent. *)
Definition sent_more (vs : list Metric) (w : world) : world :=
  mkWorld (errorCounter w) (logged w) (sent w ++ vs) (http w) (requests w) (network w).

(** The world after one more entry was logged. *)
Definition logged_more (e : log_entry) (w : world) : world :=
  mkWorld (errorCounter w) (logged w ++ [e]) (sent w) (http w) (requests w) (network w).

(** [Set] for each pair of a value and its label values, in order. *)
Fixpoint set_each (c : settableCounterVec) (sets : list (float * list string))
    : M settableCounterVec :=
  match sets with
  | [] => ret c
  | (value, labelValues) :: rest =>
      c' <- settableCounterVec_Set c value labelValues ;; set_each c' rest
  end.

(** The entry [Collect] logs for a counter without a value. *)
Definition nil_value_warning : log_entry := mkLog WarnLevel "NIL value" [F_counter].

(** [n] drains of a single-value counter in a row, with no [Set] in between. *)
Fixpoint drain_times (n : nat) (c : settableCounter) : M settableCounter :=
  match n with
  | O => ret c
  | S k => c' <- settableCounter_Collect c ;; drain_times k c'
  end.

(** The refresh fails after the signing step: the login request cannot be
    marshalled or built, the POST gets no response, or its body does not decode. *)
Definition refresh_fails (e : auth_env) : Prop :=
  marshal_ok e = false \/ login_request_ok e = false
  \/ login_transport_ok e = false \/ login_token e = None.

(** [authToken] called once for each answer of the outside world, in order. *)
Fixpoint authToken_each (es : list auth_env) : M (list string) :=
  match es with
  | [] => ret []
  | e :: rest => t <- authToken e ;; ts <- authToken_each rest ;; ret (t :: ts)
  end.

(** The characters an attribute value may be made of, as the code has them:
    the ASCII letters and digits, the underscore, and [-], [/] and [.]. *)
Definition text_char (c : ascii) : Prop :=
  (65 <= byte_val c <= 90) \/ (97 <= byte_val c <= 122) \/ (48 <= byte_val c <= 57)
  \/ c = "_"%char \/ c = "-"%char \/ c = "/"%char \/ c = "."%char.

(** The characters of the charset the specification names: the word
    characters, [/] and [.]. *)
Definition spec_char (c : ascii) : Prop :=
  (65 <= byte_val c <= 90) \/ (97 <= byte_val c <= 122) \/ (48 <= byte_val c <= 57)
  \/ c = "_"%char \/ c = "/"%char \/ c = "."%char.

(** The value a configured label takes on a node: the accepted value of the
    last attribute, in the order the attributes are ranged over, whose
    normalised key is the label, and [current] when there is none. *)
Fixpoint label_value (label : string) (attributes : list (string * string))
    (current : string) : string :=
  match attributes with
  | [] => current
  | (key, raw) :: rest =>
      label_value label rest
        (if String.eqb (normaliseLabel key) label then
           match attributeString raw with
           | (value, None) => value
           | (_, Some _) => current
           end
         else current)
  end.

(** The label values of the attribute sample of a node. *)
Definition attribute_label_values (normalisedAttributeLabels : list string) (s : slave)
    : list string :=
  [PID s; ""; ""; ""]
  ++ map (fun label => label_value label (Attributes s) "") normalisedAttributeLabels.

(** What a call leaves alone: the metrics sent, the answers of the outside
    world and the count of the fetches. *)
Definition same_traffic (w w1 : world) : Prop :=
  sent w1 = sent w /\ network w1 = network w /\ requests w1 = requests w.

(** A call of [authToken] signs with a key that does not parse: the stored
    expiry has passed and the key is not a PEM key. *)
Definition signing_panics (e : auth_env) (a : authInfo) : bool :=
  (tokenExpire a <? now_auth e) && negb (key_parses e).

(** The fetch that starts in [w] asks for a token and the signing panics. *)
Definition fetch_panics (w : world) : bool :=
  let e := network w (requests w) in
  request_ok e && strictMode (auth (http w)) && signing_panics (refresh e) (auth (http w)).

(** The metrics of the entries are collected one after the other, each after
    its function ran: what the loop of the collector does for functions that
    return no error. *)
Fixpoint collect_each (m : metricMap) (metrics : list (MetricVec * metricsCollectorFunctor))
    : M unit :=
  match metrics with
  | [] => ret tt
  | (cm, f) :: rest => MetricVec_Collect (f m cm).1 ;; collect_each m rest
  end.

(** The metrics a metric object sends when it is collected. *)
Definition MetricVec_samples (c : MetricVec) : list Metric :=
  match c with
  | GaugeVecC g =>
      map (fun kv => Sample (gv_desc g) GaugeValue kv.2 kv.1) (map_to_list (gv_children g))
  | CounterVecC v => scv_values v
  | CounterC s => [sc_value s]
  end.

(** The metrics the entries of a [metrics] map send when they are collected
    in order. *)
Definition entries_samples (metrics : list (MetricVec * setter)) : list Metric :=
  flat_map (fun entry => MetricVec_samples entry.1) metrics.

(** The gauges of a vector after it was set for each slave in turn. *)
Definition set_children (value : slave -> float) (slaves : list slave)
    (children : gmap (list string) float) : gmap (list string) float :=
  fold_left (fun ch s => <[slave_label_values s := value s]> ch) slaves children.

(** An entry of the state collector that is one of its slave gauges. *)
Definition slave_gauge_entry (entry : MetricVec * setter) : Prop :=
  exists g value,
    entry = (GaugeVecC g, fun st c => set_slave_gauges value (Slaves st) c)
    /\ length (variableLabels (gv_desc g)) = 4%nat.

(** The text is made of ASCII bytes. *)
Definition is_ascii (c : ascii) : bool := byte_val c <? 128.

(** The number a text of decimal digits stands for, read after the digits
    of [n]. *)
Fixpoint digits_value (s : string) (n : Z) : Z :=
  match s with
  | EmptyString => n
  | String c r => digits_value r (n * 10 + (byte_val c - 48))
  end.

(** The number a bound stands for. *)
Definition decimal_value (b : string) : Z := digits_value b 0.

(** A segment [lo-hi] reads as a pair: around the first [-] stand, white
    space apart, the decimal digits of two numbers below 2^64. *)
Definition segment_reads (r : string) (p : Z * Z) : Prop :=
  exists p0 p1, segment_bounds r p0 p1
    /\ numeric (TrimSpace p0) = true /\ decimal_value (TrimSpace p0) = p.1
    /\ numeric (TrimSpace p1) = true /\ decimal_value (TrimSpace p1) = p.2
    /\ 0 <= p.1 <= maxUint64 /\ 0 <= p.2 <= maxUint64.

(** The text of a list of intervals, separated by a comma and a space. *)
Fixpoint intervals_text (pairs : list (Z * Z)) : string :=
  match pairs with
  | [] => ""
  | [p] => interval_text p.1 p.2
  | p :: rest => interval_text p.1 p.2 +:+ ", " +:+ intervals_text rest
  end.

(** A list of intervals written as a JSON string that holds the intervals
    in square brackets. *)
Definition ranges_text (pairs : list (Z * Z)) : string :=
  String dquote ("[" +:+ intervals_text pairs +:+ "]" +:+ String dquote "").

(** Every bound of the set is a [uint64]. *)
Definition in_uint64 (rs : ranges) : Prop :=
  Forall (fun p => 0 <= p.1 <= maxUint64 /\ 0 <= p.2 <= maxUint64) rs.

(** The bytes of the text of intervals: digits, [-], [,] and the space. *)
Definition interval_byte (c : ascii) : bool :=
  is_digit c || Ascii.eqb c "-" || Ascii.eqb c "," || Ascii.eqb c " ".

(** One turn of the loop over the attributes of a node. *)
Definition export_attribute (norm : list string) (attribute : string * string)
    (m : gmap string string) : gmap string string :=
  if stringInSlice (normaliseLabel attribute.1) norm then
    match attributeString attribute.2 with
    | (value, None) => <[normaliseLabel attribute.1 := value]> m
    | (_, Some _) => m
    end
  else m.

(** The normalised keys of the attributes of a node. *)
Definition normalised_keys (attributes : list (string * string)) : list string :=
  map (fun attribute => normaliseLabel attribute.1) attributes.

(** Everything a refresh needs works: the key parses, the login request is
    marshalled and built, the POST gets a response, and its body decodes to
    the token [tok]. *)
Definition refresh_succeeds (e : auth_env) (tok : string) : Prop :=
  key_parses e = true /\ marshal_ok e = true /\ login_request_ok e = true
  /\ login_transport_ok e = true /\ login_token e = Some tok.

(** The number of errors a call of [authToken] adds to the error counter. *)
Definition refresh_errors (e : auth_env) (a : authInfo) : nat :=
  if (tokenExpire a <? now_auth e) && marshal_ok e && login_request_ok e
     && negb (login_transport_ok e && bool_decide (is_Some (login_token e)))
  then 1%nat else 0%nat.

(** The URL [fetchAndDecode] requests. *)
Definition request_url (c : httpClient) (endpoint : string) : string :=
  TrimSuffix_slash (url c) +:+ endpoint.

(** The names, the help texts and the values of the twelve slave gauges. *)
Definition slave_gauge_table : list (string * string * (slave -> float)) :=
  [ ("cpus", "Total slave CPUs (fractional)", fun s => CPUs (Total s));
    ("cpus_used", "Used slave CPUs (fractional)", fun s => CPUs (Used s));
    ("cpus_unreserved", "Unreserved slave CPUs (fractional)", fun s => CPUs (Unreserved s));
    ("mem_bytes", "Total slave memory in bytes", fun s => times_1024 (Mem (Total s)));
    ("mem_used_bytes", "Used slave memory in bytes", fun s => times_1024 (Mem (Used s)));
    ("mem_unreserved_bytes", "Unreserved slave memory in bytes",
     fun s => times_1024 (Mem (Unreserved s)));
    ("disk_bytes", "Total slave disk space in bytes", fun s => times_1024 (Disk (Total s)));
    ("disk_used_bytes", "Used slave disk space in bytes",
     fun s => times_1024 (Disk (Used s)));
    ("disk_unreserved_bytes", "Unreserved slave disk in bytes",
     fun s => times_1024 (Disk (Unreserved s)));
    ("ports", "Total slave ports", fun s => float64_of_uint64 (ranges_size (Ports (Total s))));
    ("ports_used", "Used slave ports",
     fun s => float64_of_uint64 (ranges_size (Ports (Used s))));
    ("ports_unreserved", "Unreserved slave ports",
     fun s => float64_of_uint64 (ranges_size (Ports (Unreserved s)))) ].

(** The last slave of the list that has the label values [lvs]. *)
Definition slave_labelled (lvs : list string) (slaves : list slave) : option slave :=
  last (filter (fun s => slave_label_values s = lvs) slaves).

(** The sample of a slave gauge. *)
Definition gauge_sample (name help : string) (value : float) (lvs : list string) : Metric :=
  Sample (gv_desc (gauge "slave" name help labels)) GaugeValue value lvs.

(** A label name the metrics library reserves: it starts with two underscores. *)
Definition reserved_label (l : string) : bool :=
  match l with
  | String a (String b _) => is_underscore a && is_underscore b
  | _ => false
  end.

(** Attribute labels a descriptor can be built for: none is empty or
    normalises to a reserved name, and the normalised names differ from one
    another and from the four identity labels. *)
Definition usable_labels (slaveAttributeLabels : list string) : Prop :=
  Forall (fun label => label <> "" /\ reserved_label (normaliseLabel label) = false)
    slaveAttributeLabels
  /\ NoDup (labels ++ normaliseLabelList slaveAttributeLabels).

(** The descriptor of the attribute metric. *)
Definition attributes_desc (slaveAttributeLabels : list string) : Desc :=
  scv_desc (counter "slave" "attributes" "Attributes assigned to slaves"
              (labels ++ normaliseLabelList slaveAttributeLabels)).

(** The sample of a slave in the attribute metric. *)
Definition attribute_sample (slaveAttributeLabels : list string) (s : slave) : Metric :=
  Sample (attributes_desc slaveAttributeLabels) CounterValue 1%float
    (attribute_label_values (normaliseLabelList slaveAttributeLabels) s).

(** An entry of the state collector for a gauge vector and the value it
    takes for a slave. *)
Definition gauge_entry (p : GaugeVec * (slave -> float)) : MetricVec * setter :=
  (GaugeVecC p.1, fun st c => set_slave_gauges p.2 (Slaves st) c).

(** The gauge vector of an entry after it was set for the slaves of a state. *)
Definition gauge_after (st : state) (p : GaugeVec * (slave -> float)) : GaugeVec :=
  mkGaugeVec (gv_desc p.1) (set_children p.2 (Slaves st) (gv_children p.1)).

(** A metric is a sample of one of the descriptors, with one label value per
    label name. *)
Definition described (descs : list Desc) (m : Metric) : Prop :=
  exists d vt v lvs,
    m = Sample d vt v lvs /\ d ∈ descs /\ length lvs = length (variableLabels d).

(** The gauge vectors of a new state collector with the values they take. *)
Definition new_slave_gauges : list (GaugeVec * (slave -> float)) :=
  map (fun t => (gauge "slave" t.1.1 t.1.2 labels, t.2)) slave_gauge_table.

(** The samples the slave gauges of a new state collector send for a state. *)
Definition slave_gauge_samples (st : state) : list Metric :=
  flat_map (fun p => MetricVec_samples (GaugeVecC (gauge_after st p))) new_slave_gauges.

(** The entry of the attribute metric in a new state collector. *)
Definition attributes_entry (slaveAttributeLabels : list string) : MetricVec * setter :=
  let norm := normaliseLabelList slaveAttributeLabels in
  (CounterVecC (counter "slave" "attributes" "Attributes assigned to slaves" (labels ++ norm)),
   fun st c => set_slave_attributes norm (labels ++ norm) (Slaves st) c).

(** The label values of the version gauge for a build. *)
Definition version_label_values (Sprintf_f : float -> string) (vf : versionFields)
    : list string :=
  [BuildDate vf; Sprintf_f (BuildTime vf); GitSHA vf; GitTag vf; Version vf].

(** [Collect] of each member of a grouped collector in turn. *)
Fixpoint collect_members (Sprintf_f : float -> string) (cs : list Collector)
    : M (list Collector) :=
  match cs with
  | [] => ret []
  | collector :: rest =>
      collector' <- Collect Sprintf_f collector ;;
      rest' <- collect_members Sprintf_f rest ;;
      ret (collector' :: rest')
  end.

(** * Concrete inputs *)

(** Answers of an outside world in which nothing works. *)
Definition no_refresh : auth_env := mkAuthEnv 0 false 0 None false false false None.

(** The answers to a fetch whose request cannot even be built. *)
Definition no_answer : fetch_env :=
  mkFetchEnv false no_refresh false
    (mkDecoded (mkState []) false)
    (mkDecoded (mkVersionFields "" 0%float "" "" "") false)
    (mkDecoded (∅ : metricMap) false).

(** A client without credentials, not in strict mode. *)
Definition plain_client : httpClient :=
  mkHttpClient "http://master:5050" (mkAuthInfo "" "" "" "" 0 "" false "" false) "mesos_exporter".

(** A world before any scrape, with no upstream to answer. *)
Definition idle_world : world := mkWorld 0 [] [] plain_client 0 (fun _ => no_answer).

(** A dynamic-label counter with the labels [slave] and [rack]. *)
Definition attributes_counter : settableCounterVec :=
  counter "slave" "attributes" "Attributes assigned to slaves" ["slave"; "rack"].

(** A slave whose attribute [rack] holds a space. *)
Definition spaced_slave : slave :=
  mkSlave "slave(2)@10.0.0.2:5051" "node2" "S2" 5051
    (mkResources 0%float 0%float 0%float [])
    (mkResources 0%float 0%float 0%float [])
    (mkResources 0%float 0%float 0%float [])
    [("rack", String dquote ("a b" +:+ String dquote ""))].

(** Two calls of [Set] on [attributes_counter]. *)
Definition two_sets : list (float * list string) :=
  [(1%float, ["a"; "3"]); (1%float, ["b"; ""])].

(** A single-value counter, as the constructor builds it. *)
Definition uptime_counter : settableCounter :=
  newSettableCounter "master" "uptime_seconds" "Uptime in seconds".

(** A slave with four CPUs, 1.5 of them used, the ports 31000-32000 and the
    attributes [rack] and [zone]. *)
Definition rack_slave : slave :=
  mkSlave "slave(1)@10.0.0.1:5051" "node1" "S1" 5051
    (mkResources 1.5%float 0%float 512%float [])
    (mkResources 2.5%float 100%float 512%float [(31000, 32000)])
    (mkResources 4%float 100%float 1024%float [(31000, 32000)])
    [("rack", String dquote ("3" +:+ String dquote ""));
     ("zone", String dquote ("x" +:+ String dquote ""))].

(** The state that holds [rack_slave] alone. *)
Definition rack_state : state := mkState [rack_slave].

(** The attribute metric of a collector configured with the label [rack]. *)
Definition rack_metric : MetricVec * setter :=
  (CounterVecC (counter "slave" "attributes" "Attributes assigned to slaves"
                  (labels ++ normaliseLabelList ["rack"])),
   fun st c => set_slave_attributes (normaliseLabelList ["rack"])
                 (labels ++ normaliseLabelList ["rack"]) (Slaves st) c).

(** Modelled from the spec: an extraction function of the numeric-map
    collector (the exporter's own are declared outside this file). It reads
    the key [key] of the snapshot into a single-value counter and reports
    [LogErrNotFoundInMap] when the key is absent. *)
Definition counter_from_key (key : string) : metricsCollectorFunctor :=
  fun m c =>
    match m !! key with
    | None => (c, Some LogErrNotFoundInMap)
    | Some value =>
        match c with
        | CounterC s =>
            (CounterC (mkSettableCounter (sc_desc s) (Sample (sc_desc s) CounterValue value [])),
             None)
        | _ => (c, Some "not a counter")
        end
    end.

(** The answers to a fetch that succeeds: a state of one slave, a version,
    and a snapshot that holds [master/elected] and no uptime. *)
Definition first_answer : fetch_env :=
  mkFetchEnv true no_refresh true
    (mkDecoded rack_state true)
    (mkDecoded (mkVersionFields "2019-05-02" 0%float "58cc918" "1.7.2" "1.7.2") true)
    (mkDecoded ({["master/elected" := 1%float]} : metricMap) true).

(** The world of two scrapes: the first fetch gets [first_answer], every
    later one fails. *)
Definition flaky_world : world :=
  mkWorld 0 [] [] plain_client 0
    (fun n => match n with O => first_answer | S _ => no_answer end).

(** The single-value counter of the key [master/elected]. *)
Definition elected_counter : settableCounter :=
  newSettableCounter "master" "elected" "1 if master is elected leader, 0 otherwise".

(** A world whose client is in strict mode with a token that expired at 900. *)
Definition stale_world : world :=
  mkWorld 0 [] []
    (mkHttpClient "http://master:5050"
       (mkAuthInfo "exporter" "" "https://master/login" "token=old" 900 "PEM" true "" false)
       "mesos_exporter")
    0 (fun _ => no_answer).

(** A world whose client is in strict mode with an expired token and a key
    that is no PEM key; the GET request can be built. *)
Definition unsigned_world : world :=
  mkWorld 0 [] []
    (mkHttpClient "http://master:5050"
       (mkAuthInfo "exporter" "" "https://master/login" "token=old" 900 "not a key" true ""
          false)
       "mesos_exporter")
    0 (fun _ => mkFetchEnv true (mkAuthEnv 1000 false 1000 None true true true None) true
                  (mkDecoded rack_state true)
                  (mkDecoded (mkVersionFields "" 0%float "" "" "") true)
                  (mkDecoded (∅ : metricMap) true)).

(** The answers to a refresh at the time [now] whose POST gets no response. *)
Definition login_down (now : Z) : auth_env :=
  mkAuthEnv now true now (Some "assertion") true true false None.

(** A rendering of [%f] for the inputs of the examples, whose build time is
    zero. *)
Definition six_decimals (x : float) : string := "0.000000".

(** * Lemmas *)

(** ** Bytes and strings *)

Lemma append_nil (s : string) : "" +:+ s = s.
Proof. reflexivity. Qed.

Lemma append_cons (c : ascii) (s t : string) : String c s +:+ t = String c (s +:+ t).
Proof. reflexivity. Qed.

Lemma append_empty_r (s : string) : s +:+ "" = s.
Proof.
  induction s as [|c s IH]; [reflexivity |].
  now rewrite append_cons, IH.
Qed.

Lemma append_assoc (a b c : string) : (a +:+ b) +:+ c = a +:+ (b +:+ c).
Proof.
  induction a as [|x a IH]; [reflexivity |].
  now rewrite !append_cons, IH.
Qed.

Lemma all_bytes_append (p : ascii -> bool) (a b : string) :
  all_bytes p (a +:+ b) = all_bytes p a && all_bytes p b.
Proof.
  induction a as [|x a IH]; [reflexivity |].
  rewrite append_cons. simpl. rewrite IH. now rewrite andb_assoc.
Qed.

Lemma all_bytes_impl (p q : ascii -> bool) (s : string) :
  (forall c, p c = true -> q c = true) -> all_bytes p s = true -> all_bytes q s = true.
Proof.
  intros Hpq. induction s as [|c s IH]; simpl; [reflexivity |].
  intros [Hc Hs]%andb_true_iff. rewrite (Hpq _ Hc). simpl. now apply IH.
Qed.

Lemma rev_onto_append (s acc : string) : rev_onto s acc = rev_string s +:+ acc.
Proof.
  unfold rev_string. revert acc.
  induction s as [|c s IH]; intros acc; simpl; [reflexivity |].
  rewrite IH, (IH (String c "")), append_assoc. reflexivity.
Qed.

Lemma rev_string_cons (c : ascii) (s : string) :
  rev_string (String c s) = rev_string s +:+ String c "".
Proof. unfold rev_string at 1. simpl. apply rev_onto_append. Qed.

Lemma rev_string_append (a b : string) :
  rev_string (a +:+ b) = rev_string b +:+ rev_string a.
Proof.
  induction a as [|c a IH].
  - now rewrite append_nil, append_empty_r.
  - now rewrite append_cons, !rev_string_cons, IH, append_assoc.
Qed.

Lemma rev_string_involutive (s : string) : rev_string (rev_string s) = s.
Proof.
  induction s as [|c s IH]; [reflexivity |].
  rewrite rev_string_cons, rev_string_append, IH. reflexivity.
Qed.

Lemma all_bytes_rev (p : ascii -> bool) (s : string) :
  all_bytes p (rev_string s) = all_bytes p s.
Proof.
  induction s as [|c s IH]; [reflexivity |].
  rewrite rev_string_cons, all_bytes_append, IH. simpl.
  rewrite andb_true_r. apply andb_comm.
Qed.

(** ** The range codec *)

Lemma trimRightASCII_id (cutset s : string) :
  all_bytes (fun c => negb (mem_byte c cutset)) s = true -> trimRightASCII cutset s = s.
Proof.
  induction s as [|c r IH]; simpl; [reflexivity |].
  intros [Hc Hr]%andb_true_iff. rewrite (IH Hr).
  apply negb_true_iff in Hc. rewrite Hc. now destruct r.
Qed.

Lemma trimLeftASCII_id (cutset s : string) :
  all_bytes (fun c => negb (mem_byte c cutset)) s = true -> trimLeftASCII cutset s = s.
Proof.
  destruct s as [|c r]; simpl; [reflexivity |].
  intros [Hc _]%andb_true_iff. apply negb_true_iff in Hc. now rewrite Hc.
Qed.

Lemma Trim_id (cutset s : string) :
  all_bytes (fun c => negb (mem_byte c cutset)) s = true -> Trim s cutset = s.
Proof.
  intros H. unfold Trim. rewrite (trimRightASCII_id _ _ H). now apply trimLeftASCII_id.
Qed.

Lemma Split_no_sep (s : string) (sep : ascii) :
  all_bytes (not_byte sep) s = true -> Split s sep = [s].
Proof.
  induction s as [|c r IH]; simpl; [reflexivity |].
  intros [Hc Hr]%andb_true_iff. unfold not_byte in Hc.
  apply negb_true_iff in Hc. rewrite Hc, (IH Hr). reflexivity.
Qed.

Lemma Split_append (s1 s2 : string) (sep : ascii) :
  all_bytes (not_byte sep) s1 = true ->
  Split (s1 +:+ String sep s2) sep = s1 :: Split s2 sep.
Proof.
  induction s1 as [|c r IH]; intros H.
  - rewrite append_nil. simpl. now rewrite Ascii.eqb_refl.
  - rewrite append_cons. simpl in *. apply andb_true_iff in H as [Hc Hr].
    unfold not_byte in Hc. apply negb_true_iff in Hc. rewrite Hc, (IH Hr). reflexivity.
Qed.

Lemma SplitN2_no_sep (s : string) (sep : ascii) :
  all_bytes (not_byte sep) s = true -> SplitN2 s sep = [s].
Proof.
  induction s as [|c r IH]; simpl; [reflexivity |].
  intros [Hc Hr]%andb_true_iff. unfold not_byte in Hc.
  apply negb_true_iff in Hc. rewrite Hc, (IH Hr). reflexivity.
Qed.

Lemma SplitN2_append (p0 p1 : string) (sep : ascii) :
  all_bytes (not_byte sep) p0 = true ->
  SplitN2 (p0 +:+ String sep p1) sep = [p0; p1].
Proof.
  induction p0 as [|c r IH]; intros H.
  - rewrite append_nil. simpl. now rewrite Ascii.eqb_refl.
  - rewrite append_cons. simpl in *. apply andb_true_iff in H as [Hc Hr].
    unfold not_byte in Hc. apply negb_true_iff in Hc. rewrite Hc, (IH Hr). reflexivity.
Qed.

(** [SplitN2] gives the text alone when it holds no separator, and otherwise
    the text before the first separator and the text after it. *)
Lemma SplitN2_cases (s : string) (sep : ascii) :
  (all_bytes (not_byte sep) s = true /\ SplitN2 s sep = [s])
  \/ (exists p0 p1, s = p0 +:+ String sep p1
        /\ all_bytes (not_byte sep) p0 = true /\ SplitN2 s sep = [p0; p1]).
Proof.
  induction s as [|c r IH]; simpl.
  - left. split; reflexivity.
  - destruct (Ascii.eqb c sep) eqn:Hc.
    + right. exists "", r. apply Ascii.eqb_eq in Hc. subst c.
      repeat split; reflexivity.
    + unfold not_byte at 1. rewrite Hc. simpl.
      destruct IH as [[Hr ->] | (p0 & p1 & -> & Hp0 & ->)].
      * left. split; [exact Hr | reflexivity].
      * right. exists (String c p0), p1. simpl. unfold not_byte at 1. rewrite Hc, Hp0.
        repeat split; reflexivity.
Qed.

Lemma is_digit_bounds (c : ascii) : is_digit c = true -> 48 <= byte_val c <= 57.
Proof. unfold is_digit. intros [H1 H2]%andb_true_iff. lia. Qed.

(** Rewrites the comparisons of a goal that the bounds at hand decide. *)
Ltac decide_comparisons :=
  repeat match goal with
    | |- context [?a =? ?b] =>
        first [ replace (a =? b) with false by (symmetry; apply Z.eqb_neq; lia)
              | replace (a =? b) with true by (symmetry; apply Z.eqb_eq; lia) ]
    | |- context [?a <=? ?b] =>
        first [ replace (a <=? b) with false by (symmetry; apply Z.leb_gt; lia)
              | replace (a <=? b) with true by (symmetry; apply Z.leb_le; lia) ]
    | |- context [?a <? ?b] =>
        first [ replace (a <? b) with false by (symmetry; apply Z.ltb_ge; lia)
              | replace (a <? b) with true by (symmetry; apply Z.ltb_lt; lia) ]
    end.

Lemma digit_not_asciiSpace (c : ascii) : is_digit c = true -> asciiSpace c = false.
Proof.
  intros H%is_digit_bounds. unfold asciiSpace. cbv zeta. decide_comparisons. reflexivity.
Qed.

Lemma digit_not_space2_l (c : ascii) (x : Z) : is_digit c = true -> space2 (byte_val c) x = false.
Proof. intros H%is_digit_bounds. unfold space2. decide_comparisons. reflexivity. Qed.

Lemma digit_not_space2_r (c : ascii) (x : Z) : is_digit c = true -> space2 x (byte_val c) = false.
Proof.
  intros H%is_digit_bounds. unfold space2. decide_comparisons.
  now rewrite andb_false_r.
Qed.

Lemma digit_not_space3_l (c : ascii) (x y : Z) :
  is_digit c = true -> space3 (byte_val c) x y = false.
Proof. intros H%is_digit_bounds. unfold space3. decide_comparisons. reflexivity. Qed.

Lemma digit_not_space3_r (c : ascii) (x y : Z) :
  is_digit c = true -> space3 x y (byte_val c) = false.
Proof.
  intros H%is_digit_bounds. unfold space3. decide_comparisons.
  now rewrite !andb_false_r.
Qed.

Lemma trimLeftSpace_head_digit (s : string) : head_digit s = true -> trimLeftSpace s = s.
Proof.
  destruct s as [|c0 r0]; [reflexivity |]. simpl. intros H.
  rewrite (digit_not_asciiSpace _ H).
  destruct r0 as [|c1 r1]; [reflexivity |].
  rewrite (digit_not_space2_l _ _ H).
  destruct r1 as [|c2 r2]; [reflexivity |].
  now rewrite (digit_not_space3_l _ _ _ H).
Qed.

Lemma trimLeftSpace_rev_head_digit (s : string) :
  head_digit s = true -> trimLeftSpace_rev s = s.
Proof.
  destruct s as [|c0 r0]; [reflexivity |]. simpl. intros H.
  rewrite (digit_not_asciiSpace _ H).
  destruct r0 as [|c1 r1]; [reflexivity |].
  rewrite (digit_not_space2_r _ _ H).
  destruct r1 as [|c2 r2]; [reflexivity |].
  now rewrite (digit_not_space3_r _ _ _ H).
Qed.

Lemma all_digits_head (s : string) : all_bytes is_digit s = true -> head_digit s = true.
Proof. destruct s; simpl; [reflexivity |]. now intros [H _]%andb_true_iff. Qed.

(** White space is only sliced off around a text: a text of digits is kept. *)
Lemma TrimSpace_digits (s : string) : all_bytes is_digit s = true -> TrimSpace s = s.
Proof.
  intros H. unfold TrimSpace.
  rewrite (trimLeftSpace_head_digit s) by now apply all_digits_head.
  rewrite trimLeftSpace_rev_head_digit.
  - apply rev_string_involutive.
  - apply all_digits_head. now rewrite all_bytes_rev.
Qed.

Lemma digit_char_val (d : Z) :
  0 <= d <= 9 -> is_digit (digit_char d) = true /\ byte_val (digit_char d) - 48 = d.
Proof.
  intros H.
  assert (d = 0 \/ d = 1 \/ d = 2 \/ d = 3 \/ d = 4 \/ d = 5 \/ d = 6 \/ d = 7
          \/ d = 8 \/ d = 9) as Hd by lia.
  repeat (destruct Hd as [-> | Hd]; [split; reflexivity |]).
  subst d. split; reflexivity.
Qed.

Lemma parse_digits_step (d n : Z) (r : string) :
  0 <= d <= 9 -> 0 <= n -> n * 10 + d <= maxUint64 ->
  parse_digits (String (digit_char d) r) n = parse_digits r (n * 10 + d).
Proof.
  intros Hd Hn Hmax. destruct (digit_char_val d Hd) as [Hdig Hval].
  simpl. rewrite Hdig, Hval. unfold maxUint64 in *.
  assert (n * 10 mod 2 ^ 64 = n * 10) as -> by (apply Z.mod_small; lia).
  assert ((n * 10 + d) mod 2 ^ 64 = n * 10 + d) as -> by (apply Z.mod_small; lia).
  replace ((2 ^ 64 - 1) / 10 + 1 <=? n) with false
    by (symmetry; apply Z.leb_gt; change ((2 ^ 64 - 1) / 10 + 1) with 1844674407370955162; lia).
  decide_comparisons. reflexivity.
Qed.

Lemma parse_format_digits (fuel : nat) :
  forall n acc, 0 <= n <= maxUint64 -> n < 2 ^ Z.of_nat fuel ->
    parse_digits (format_digits fuel n acc) 0 = parse_digits acc n.
Proof.
  induction fuel as [|fuel IH]; intros n acc Hn Hfuel.
  - change (2 ^ Z.of_nat 0) with 1 in Hfuel. assert (n = 0) as -> by lia. reflexivity.
  - simpl format_digits.
    assert (0 <= n mod 10 <= 9) as Hd by (pose proof (Z.mod_pos_bound n 10); lia).
    assert (n = n / 10 * 10 + n mod 10) as Hdiv by (pose proof (Z.div_mod n 10); lia).
    assert (0 <= n / 10) as Hq by (apply Z.div_pos; lia).
    destruct (n / 10 =? 0) eqn:Hz.
    + apply Z.eqb_eq in Hz. rewrite parse_digits_step by lia.
      f_equal. lia.
    + rewrite IH.
      * rewrite parse_digits_step by lia. f_equal. lia.
      * lia.
      * rewrite Nat2Z.inj_succ, Z.pow_succ_r in Hfuel by lia. lia.
Qed.

Lemma format_digits_all_digits (fuel : nat) :
  forall n acc, 0 <= n -> all_bytes is_digit acc = true ->
    all_bytes is_digit (format_digits fuel n acc) = true.
Proof.
  induction fuel as [|fuel IH]; intros n acc Hn Hacc; [exact Hacc |].
  simpl format_digits.
  assert (0 <= n mod 10 <= 9) as Hd by (pose proof (Z.mod_pos_bound n 10); lia).
  assert (all_bytes is_digit (String (digit_char (n mod 10)) acc) = true) as Hacc'.
  { simpl. rewrite Hacc. now destruct (digit_char_val _ Hd) as [-> _]. }
  destruct (n / 10 =? 0); [exact Hacc' |].
  apply IH; [apply Z.div_pos; lia | exact Hacc'].
Qed.

Lemma format_digits_nonempty (fuel : nat) (n : Z) (acc : string) :
  format_digits (S fuel) n acc <> "".
Proof.
  revert n acc. induction fuel as [|fuel IH]; intros n acc.
  - simpl. now destruct (n / 10 =? 0).
  - change (format_digits (S (S fuel)) n acc)
      with (if n / 10 =? 0 then String (digit_char (n mod 10)) acc
            else format_digits (S fuel) (n / 10) (String (digit_char (n mod 10)) acc)).
    destruct (n / 10 =? 0); [discriminate | apply IH].
Qed.

Lemma FormatUint_digits (n : Z) : 0 <= n -> all_bytes is_digit (FormatUint n) = true.
Proof. intros H. now apply format_digits_all_digits. Qed.

Lemma FormatUint_nonempty (n : Z) : FormatUint n <> "".
Proof. apply format_digits_nonempty. Qed.

(** Reading back the decimal digits of a [uint64] gives the number. *)
Lemma ParseUint_FormatUint (n : Z) :
  0 <= n <= maxUint64 -> ParseUint (FormatUint n) = inl n.
Proof.
  intros Hn. unfold ParseUint.
  destruct (FormatUint n) eqn:Hf; [now apply FormatUint_nonempty in Hf |].
  rewrite <- Hf. unfold FormatUint. rewrite parse_format_digits; [reflexivity | exact Hn |].
  destruct (Z.eq_dec n 0) as [-> | Hne]; [reflexivity |].
  rewrite Nat2Z.inj_succ, Z2Nat.id by apply Z.log2_nonneg.
  apply Z.log2_spec. lia.
Qed.

Lemma parse_digits_all_digits (s : string) :
  forall n v, parse_digits s n = inl v -> all_bytes is_digit s = true.
Proof.
  induction s as [|c r IH]; intros n v; simpl; [reflexivity |].
  destruct (is_digit c); [| discriminate].
  destruct (maxUint64 / 10 + 1 <=? n); [discriminate |].
  destruct (_ || _); [discriminate |].
  intros H. simpl. exact (IH _ _ H).
Qed.

Lemma ParseUint_numeric (s : string) (v : Z) : ParseUint s = inl v -> numeric s = true.
Proof.
  unfold ParseUint, numeric. destruct s as [|c r]; [discriminate |].
  destruct (parse_digits (String c r) 0) as [n | []] eqn:Hp; try discriminate.
  intros _. exact (parse_digits_all_digits _ _ _ Hp).
Qed.

Lemma ParseUint_not_numeric (s : string) :
  numeric s = false -> exists e, ParseUint s = inr e.
Proof.
  intros Hn. destruct (ParseUint s) as [v | e] eqn:Hp; [| now exists e].
  apply ParseUint_numeric in Hp. congruence.
Qed.

Lemma UnmarshalJSON_segments (rs : ranges) (data : string) :
  ranges_UnmarshalJSON rs data = unmarshal_segments (segments data) rs.
Proof.
  unfold ranges_UnmarshalJSON, segments.
  now destruct (Trim data range_cutset).
Qed.

Lemma segment_bounds_SplitN2 (r p0 p1 : string) :
  segment_bounds r p0 p1 -> SplitN2 r "-" = [p0; p1].
Proof. intros [-> H]. now apply SplitN2_append. Qed.

Lemma unmarshal_segments_denoted (pre : list string) (pairs : list (Z * Z)) :
  Forall2 segment_denotes pre pairs ->
  forall rest rs,
    unmarshal_segments (pre ++ rest) rs = unmarshal_segments rest (rs ++ pairs).
Proof.
  induction 1 as [|r p pre pairs (p0 & p1 & Hb & H0 & H1) _ IH]; intros rest rs.
  - now rewrite app_nil_r.
  - simpl. rewrite (segment_bounds_SplitN2 _ _ _ Hb), H0, H1, IH.
    destruct p as [lo hi]. simpl. now rewrite <- app_assoc.
Qed.

Lemma unmarshal_segments_malformed (bad : string) (rest : list string) (rs : ranges) :
  malformed bad -> exists e, unmarshal_segments (bad :: rest) rs = (rs, Some e).
Proof.
  intros [Hmiss | (p0 & p1 & Hb & Hnum)]; simpl.
  - rewrite (SplitN2_no_sep _ _ Hmiss). now eexists.
  - rewrite (segment_bounds_SplitN2 _ _ _ Hb).
    destruct (ParseUint (TrimSpace p0)) as [lo | e] eqn:H0; [| now eexists].
    destruct Hnum as [Hn | Hn].
    + apply ParseUint_numeric in H0. congruence.
    + destruct (ParseUint_not_numeric _ Hn) as [e ->]. now eexists.
Qed.

(** One turn of the loop either returns an error and leaves the slice as it
    is, or appends the pair the segment denotes and goes on. *)
Lemma unmarshal_segments_turn (r : string) (rest : list string) (rs : ranges) :
  (exists e, unmarshal_segments (r :: rest) rs = (rs, Some e))
  \/ (exists p, segment_denotes r p
        /\ unmarshal_segments (r :: rest) rs = unmarshal_segments rest (rs ++ [p])).
Proof.
  simpl. destruct (SplitN2_cases r "-") as [[_ ->] | (p0 & p1 & Hr & Hp0 & ->)].
  - left. now eexists.
  - destruct (ParseUint (TrimSpace p0)) as [lo | e] eqn:H0; [| left; now eexists].
    destruct (ParseUint (TrimSpace p1)) as [hi | e] eqn:H1; [| left; now eexists].
    right. exists (lo, hi). split; [| reflexivity].
    exists p0, p1. repeat split; assumption.
Qed.

Lemma unmarshal_segments_fails (before : list string) :
  forall bad after rs, malformed bad ->
    exists e decoded,
      unmarshal_segments (before ++ bad :: after) rs = (rs ++ decoded, Some e)
      /\ Forall2 segment_denotes (take (length decoded) before) decoded.
Proof.
  induction before as [|r before IH]; intros bad after rs Hbad.
  - destruct (unmarshal_segments_malformed bad after rs Hbad) as [e He].
    exists e, []. rewrite app_nil_r. split; [exact He | constructor].
  - destruct (unmarshal_segments_turn r (before ++ bad :: after) rs)
      as [[e He] | (p & Hp & Hgo)].
    + exists e, []. rewrite app_nil_r. split; [exact He | constructor].
    + destruct (IH bad after (rs ++ [p]) Hbad) as (e & decoded & He & Hden).
      exists e, (p :: decoded). split.
      * change ((r :: before) ++ bad :: after) with (r :: (before ++ bad :: after)).
        rewrite Hgo, He, <- app_assoc. reflexivity.
      * simpl. constructor; assumption.
Qed.

Lemma ranges_size_fold (rs : ranges) :
  forall acc,
    fold_left (fun sz r => (sz + (1 + (r.2 - r.1) mod 2 ^ 64) mod 2 ^ 64) mod 2 ^ 64)
      rs (acc mod 2 ^ 64)
    = (acc + sum_sizes rs) mod 2 ^ 64.
Proof.
  induction rs as [|[lo hi] rs IH]; intros acc; simpl.
  - now rewrite Z.add_0_r.
  - rewrite Z.add_mod_idemp_l, Z.add_mod_idemp_r by lia.
    replace (acc + (1 + (hi - lo) mod 2 ^ 64)) with (acc + 1 + (hi - lo) mod 2 ^ 64) by lia.
    rewrite Z.add_mod_idemp_r by lia.
    replace (acc + 1 + (hi - lo)) with (acc + (hi - lo + 1)) by lia.
    rewrite IH. f_equal. lia.
Qed.

Lemma ranges_size_sum (rs : ranges) : ranges_size rs = sum_sizes rs mod 2 ^ 64.
Proof. exact (ranges_size_fold rs 0). Qed.

Lemma digit_not_in_range_cutset (c : ascii) :
  is_digit c = true -> negb (mem_byte c range_cutset) = true.
Proof.
  intros H. unfold range_cutset, mem_byte.
  destruct (Ascii.eqb_spec c "["); [subst; discriminate |].
  destruct (Ascii.eqb_spec c "]"); [subst; discriminate |].
  destruct (Ascii.eqb_spec c dquote); [subst; discriminate | reflexivity].
Qed.

Lemma digit_not_byte (sep : ascii) (c : ascii) :
  is_digit sep = false -> is_digit c = true -> not_byte sep c = true.
Proof.
  intros Hsep Hc. unfold not_byte.
  destruct (Ascii.eqb_spec c sep); [subst; congruence | reflexivity].
Qed.

Lemma digits_no_sep (sep : ascii) (s : string) :
  is_digit sep = false -> all_bytes is_digit s = true -> all_bytes (not_byte sep) s = true.
Proof. intros Hsep. apply all_bytes_impl. intros c. now apply digit_not_byte. Qed.

Lemma interval_text_denotes (a b : Z) :
  0 <= a <= maxUint64 -> 0 <= b <= maxUint64 -> segment_denotes (interval_text a b) (a, b).
Proof.
  intros Ha Hb. exists (FormatUint a), (FormatUint b). split; [split |].
  - reflexivity.
  - apply digits_no_sep; [reflexivity | apply FormatUint_digits; lia].
  - rewrite !TrimSpace_digits by (apply FormatUint_digits; lia).
    split; now apply ParseUint_FormatUint.
Qed.

Lemma interval_text_bytes (p : ascii -> bool) (a b : Z) :
  (forall c, is_digit c = true -> p c = true) -> p "-"%char = true ->
  0 <= a -> 0 <= b -> all_bytes p (interval_text a b) = true.
Proof.
  intros Hp Hsep Ha Hb. unfold interval_text.
  rewrite all_bytes_append, append_cons, append_nil. simpl. rewrite Hsep.
  rewrite !(all_bytes_impl is_digit p _ Hp) by now apply FormatUint_digits.
  reflexivity.
Qed.

Lemma interval_text_nonempty (a b : Z) : interval_text a b <> "".
Proof.
  unfold interval_text. pose proof (FormatUint_nonempty a) as H.
  destruct (FormatUint a); [congruence | discriminate].
Qed.

Lemma segments_nonempty (data : string) :
  Trim data range_cutset <> "" -> segments data = Split (Trim data range_cutset) ",".
Proof. unfold segments. now destruct (Trim data range_cutset). Qed.

Lemma segments_range_text (a b c d : Z) :
  0 <= a -> 0 <= b -> 0 <= c -> 0 <= d ->
  segments (range_text a b c d) = [interval_text a b; interval_text c d].
Proof.
  intros Ha Hb Hc Hd.
  assert (range_text a b c d = interval_text a b +:+ String "," (interval_text c d)) as Htext
    by reflexivity.
  assert (Trim (range_text a b c d) range_cutset = range_text a b c d) as Htrim.
  { apply Trim_id. rewrite Htext, all_bytes_append. simpl.
    rewrite !interval_text_bytes;
      solve [reflexivity | assumption | apply digit_not_in_range_cutset]. }
  rewrite segments_nonempty; rewrite Htrim.
  - rewrite Htext.
    rewrite Split_append
      by (apply interval_text_bytes;
          solve [reflexivity | assumption | intros ch; now apply digit_not_byte]).
    rewrite Split_no_sep
      by (apply interval_text_bytes;
          solve [reflexivity | assumption | intros ch; now apply digit_not_byte]).
    reflexivity.
  - rewrite Htext. pose proof (interval_text_nonempty a b) as Hne.
    destruct (interval_text a b); [congruence | discriminate].
Qed.

(** Decoding the text of two intervals appends the two pairs. *)
Lemma UnmarshalJSON_range_text (rs : ranges) (a b c d : Z) :
  0 <= a <= maxUint64 -> 0 <= b <= maxUint64 ->
  0 <= c <= maxUint64 -> 0 <= d <= maxUint64 ->
  ranges_UnmarshalJSON rs (range_text a b c d) = (rs ++ [(a, b); (c, d)], None).
Proof.
  intros Ha Hb Hc Hd.
  rewrite UnmarshalJSON_segments, segments_range_text by lia.
  rewrite <- (app_nil_r [interval_text a b; interval_text c d]).
  rewrite (unmarshal_segments_denoted _ [(a, b); (c, d)]); [reflexivity |].
  repeat constructor; now apply interval_text_denotes.
Qed.

(** ** The settable counters *)

Lemma sent_more_nil (w : world) : sent_more [] w = w.
Proof. destruct w. unfold sent_more. simpl. now rewrite app_nil_r. Qed.

Lemma sent_more_app (a b : list Metric) (w : world) :
  sent_more b (sent_more a w) = sent_more (a ++ b) w.
Proof. unfold sent_more. simpl. now rewrite app_assoc. Qed.

Lemma send_all_sent (vs : list Metric) (w : world) :
  send_all vs w = (Ok tt, sent_more vs w).
Proof.
  revert w. induction vs as [|v vs IH]; intros w; simpl.
  - now rewrite sent_more_nil.
  - unfold bind, send. rewrite IH. f_equal. unfold sent_more. simpl.
    now rewrite <- app_assoc.
Qed.

Lemma settableCounterVec_Collect_sent (c : settableCounterVec) (w : world) :
  settableCounterVec_Collect c w
  = (Ok (mkSettableCounterVec (scv_desc c) []), sent_more (scv_values c) w).
Proof. unfold settableCounterVec_Collect, bind. now rewrite send_all_sent. Qed.

Lemma settableCounterVec_Set_inv (c c' : settableCounterVec) (value : float)
    (labelValues : list string) (w w' : world) :
  settableCounterVec_Set c value labelValues w = (Ok c', w') ->
  w' = w /\ scv_desc c' = scv_desc c
  /\ scv_values c' = scv_values c ++ [Sample (scv_desc c) CounterValue value labelValues]
  /\ length labelValues = length (variableLabels (scv_desc c)).
Proof.
  unfold settableCounterVec_Set, NewConstMetric.
  destruct (desc_err (scv_desc c)); [discriminate |].
  destruct (length labelValues =? length (variableLabels (scv_desc c)))%nat eqn:Hlen;
    [| discriminate].
  simpl. intros [= <- <-]. apply Nat.eqb_eq in Hlen. auto.
Qed.

Lemma set_each_inv (sets : list (float * list string)) :
  forall c c' w w',
    set_each c sets w = (Ok c', w') ->
    w' = w /\ scv_desc c' = scv_desc c
    /\ scv_values c'
       = scv_values c ++ map (fun s => Sample (scv_desc c) CounterValue s.1 s.2) sets.
Proof.
  induction sets as [|[value lvs] sets IH]; intros c c' w w'; simpl.
  - intros [= <- <-]. now rewrite app_nil_r.
  - unfold bind. destruct (settableCounterVec_Set c value lvs w) as [[c1| |] w1] eqn:Hset;
      try discriminate.
    intros Hrest. apply settableCounterVec_Set_inv in Hset as (-> & Hd & Hv & _).
    apply IH in Hrest as (-> & Hd' & Hv'). rewrite Hd', Hv', Hv, Hd, <- app_assoc.
    auto.
Qed.

(** ** Token refresh *)

Lemma authToken_not_expired (e : auth_env) (w : world) :
  now_auth e <= tokenExpire (auth (http w)) ->
  authToken e w = (Ok (token (auth (http w))), w).
Proof.
  intros H. unfold authToken, bind, get_world, ret.
  replace (tokenExpire (auth (http w)) <? now_auth e) with false
    by (symmetry; apply Z.ltb_ge; lia).
  reflexivity.
Qed.

Lemma authToken_each_not_expired (es : list auth_env) (w : world) :
  Forall (fun e => now_auth e <= tokenExpire (auth (http w))) es ->
  authToken_each es w = (Ok (map (fun _ => token (auth (http w))) es), w).
Proof.
  induction 1 as [|e es He _ IH]; simpl; [reflexivity |].
  unfold bind. rewrite (authToken_not_expired e w He). rewrite IH. reflexivity.
Qed.

Lemma signingToken_expiry (e : auth_env) (w : world) :
  key_parses e = true ->
  exists s w1,
    signingToken e w = (Ok s, w1)
    /\ tokenExpire (auth (http w1)) = now_sign e + 3600
    /\ token (auth (http w1)) = token (auth (http w))
    /\ errorCounter w1 = errorCounter w.
Proof.
  intros Hkey. unfold signingToken, bind, get_world, put_auth, log_entry_add, ret.
  rewrite Hkey. destruct (signed e); simpl; eexists _, _; repeat split; reflexivity.
Qed.

Lemma refresh_token_fails (e : auth_env) (w : world) :
  key_parses e = true ->
  refresh_fails e ->
  exists w1,
    refresh_token e w = (Ok (Some ""), w1)
    /\ tokenExpire (auth (http w1)) = now_sign e + 3600
    /\ token (auth (http w1)) = token (auth (http w)).
Proof.
  intros Hkey Hfail. unfold refresh_token, bind at 1, get_world. unfold bind at 1.
  destruct (signingToken_expiry e w Hkey) as (s & w0 & -> & Hexp & Htok & _).
  unfold bind, log_entry_add, errorCounter_Inc, ret.
  destruct (marshal_ok e) eqn:H1; simpl;
    [| eexists; repeat split; simpl; eassumption].
  destruct (login_request_ok e) eqn:H2; simpl;
    [| eexists; repeat split; simpl; eassumption].
  destruct (login_transport_ok e) eqn:H3; simpl;
    [| eexists; repeat split; simpl; eassumption].
  destruct (login_token e) eqn:Hdec; simpl; [| eexists; repeat split; simpl; eassumption].
  destruct Hfail as [? | [? | [? | ?]]]; congruence.
Qed.

(** ** Attribute labels *)

Lemma byte_val_inj (c d : ascii) : byte_val c = byte_val d -> c = d.
Proof.
  unfold byte_val. intros H. apply N2Z.inj in H.
  rewrite <- (ascii_N_embedding c), <- (ascii_N_embedding d). now f_equal.
Qed.

Lemma char_eq_val (c d : ascii) : c = d <-> byte_val c = byte_val d.
Proof. split; [now intros -> | apply byte_val_inj]. Qed.

Lemma text_class_char (c : ascii) : text_class c = true <-> text_char c.
Proof.
  unfold text_class, text_char, is_word, is_letter, is_digit, is_underscore. cbv zeta.
  rewrite !orb_true_iff, !andb_true_iff, !Z.eqb_eq, !Z.leb_le.
  rewrite !(char_eq_val c).
  change (byte_val "_") with 95. change (byte_val "-") with 45.
  change (byte_val "/") with 47. change (byte_val ".") with 46.
  lia.
Qed.

Lemma all_bytes_Forall (p : ascii -> bool) (s : string) :
  all_bytes p s = true <-> Forall (fun c => p c = true) (list_ascii_of_string s).
Proof.
  induction s as [|c s IH]; simpl.
  - split; [constructor | reflexivity].
  - rewrite andb_true_iff, IH. split.
    + intros [? ?]. now constructor.
    + now inversion 1.
Qed.

Lemma text_MatchString_chars (value : string) :
  text_MatchString value = true <-> Forall text_char (list_ascii_of_string value).
Proof.
  unfold text_MatchString. rewrite all_bytes_Forall.
  apply Forall_iff. intros c. apply text_class_char.
Qed.

Lemma getLabelValuesFromMap_map (m : gmap string string) (keys : list string) :
  getLabelValuesFromMap m keys = map (Labels_get m) keys.
Proof.
  unfold getLabelValuesFromMap.
  assert (forall acc, fold_left (fun labelValues label => labelValues ++ [Labels_get m label])
                        keys acc = acc ++ map (Labels_get m) keys) as H.
  { induction keys as [|k keys IH]; intros acc; simpl.
    - now rewrite app_nil_r.
    - now rewrite IH, <- app_assoc. }
  exact (H []).
Qed.

Lemma normaliseLabelList_map (l : list string) :
  normaliseLabelList l = map normaliseLabel l.
Proof.
  unfold normaliseLabelList.
  assert (forall acc, fold_left (fun acc label => acc ++ [normaliseLabel label]) l acc
                      = acc ++ map normaliseLabel l) as H.
  { induction l as [|x l IH]; intros acc; simpl.
    - now rewrite app_nil_r.
    - now rewrite IH, <- app_assoc. }
  exact (H []).
Qed.

Lemma stringInSlice_elem_of (x : string) (l : list string) :
  stringInSlice x l = true <-> x ∈ l.
Proof.
  induction l as [|y l IH]; simpl.
  - split; [discriminate | intros H; inversion H].
  - rewrite elem_of_cons. destruct (String.eqb_spec x y) as [-> | Hne].
    + split; auto.
    + rewrite IH. split; [auto | intros [? | ?]; [congruence | assumption]].
Qed.

Lemma Labels_get_insert (m : gmap string string) (k l v : string) :
  Labels_get (<[k := v]> m) l = if String.eqb k l then v else Labels_get m l.
Proof.
  unfold Labels_get. destruct (String.eqb_spec k l) as [-> | Hne].
  - now rewrite lookup_insert_eq.
  - now rewrite lookup_insert_ne.
Qed.

(** The loop over the attributes sets the value of each configured label on
    its own. *)
Lemma export_attributes_get (norm : list string) (label : string) :
  stringInSlice label norm = true ->
  forall attributes m,
    Labels_get (export_attributes norm attributes m) label
    = label_value label attributes (Labels_get m label).
Proof.
  intros Hin. induction attributes as [|[key raw] rest IH]; intros m; simpl; [reflexivity |].
  rewrite IH. f_equal.
  destruct (String.eqb_spec (normaliseLabel key) label) as [-> | Hne].
  - rewrite Hin. destruct (attributeString raw) as [value [e|]]; [reflexivity |].
    rewrite Labels_get_insert. now rewrite String.eqb_refl.
  - destruct (stringInSlice (normaliseLabel key) norm); [| reflexivity].
    destruct (attributeString raw) as [value [e|]]; [reflexivity |].
    rewrite Labels_get_insert.
    now destruct (String.eqb_spec (normaliseLabel key) label).
Qed.

(** Outside the configured labels the loop changes nothing. *)
Lemma export_attributes_other (norm : list string) (label : string) :
  stringInSlice label norm = false ->
  forall attributes m,
    Labels_get (export_attributes norm attributes m) label = Labels_get m label.
Proof.
  intros Hout. induction attributes as [|[key raw] rest IH]; intros m; simpl; [reflexivity |].
  rewrite IH.
  destruct (stringInSlice (normaliseLabel key) norm) eqn:Hkey; [| reflexivity].
  destruct (attributeString raw) as [value [e|]]; [reflexivity |].
  rewrite Labels_get_insert.
  destruct (String.eqb_spec (normaliseLabel key) label) as [E | _]; [| reflexivity].
  congruence.
Qed.

Lemma blank_labels_get (norm : list string) (label : string) :
  forall m,
    Labels_get (fold_left (fun m l => <[l := ""]> m) norm m) label
    = if stringInSlice label norm then "" else Labels_get m label.
Proof.
  induction norm as [|x norm IH]; intros m; simpl; [reflexivity |].
  rewrite IH, Labels_get_insert.
  destruct (String.eqb_spec label x) as [-> | Hne].
  - rewrite String.eqb_refl. now destruct (stringInSlice x norm).
  - destruct (String.eqb_spec x label); [congruence | reflexivity].
Qed.

Lemma slaveAttributesExport_configured (norm : list string) (s : slave) (label : string) :
  stringInSlice label norm = true ->
  Labels_get (slaveAttributesExport norm s) label = label_value label (Attributes s) "".
Proof.
  intros Hin. unfold slaveAttributesExport.
  rewrite (export_attributes_get norm label Hin), blank_labels_get, Hin. reflexivity.
Qed.

Lemma slaveAttributesExport_other (norm : list string) (s : slave) (label : string) :
  stringInSlice label norm = false ->
  Labels_get (slaveAttributesExport norm s) label
  = if String.eqb "slave" label then PID s else "".
Proof.
  intros Hout. unfold slaveAttributesExport.
  rewrite (export_attributes_other norm label Hout), blank_labels_get, Hout.
  unfold Labels_get. destruct (String.eqb_spec "slave" label) as [<- | Hne].
  - now rewrite lookup_singleton_eq.
  - now rewrite lookup_singleton_ne.
Qed.

(** A label with no attribute of its name on the node, or only rejected
    ones, keeps the value it had. *)
Lemma label_value_rejected (label : string) (attributes : list (string * string)) :
  (forall key raw, (key, raw) ∈ attributes -> normaliseLabel key = label ->
                   snd (attributeString raw) <> None) ->
  forall current, label_value label attributes current = current.
Proof.
  induction attributes as [|[key raw] rest IH]; intros Hrej current; simpl; [reflexivity |].
  rewrite IH by (intros k r Hin; apply Hrej; now right).
  destruct (String.eqb_spec (normaliseLabel key) label) as [E | _]; [| reflexivity].
  specialize (Hrej key raw ltac:(left) E).
  destruct (attributeString raw) as [value [e|]]; [reflexivity | now destruct Hrej].
Qed.

Lemma getLabelValuesFromMap_length (m : gmap string string) (keys : list string) :
  length (getLabelValuesFromMap m keys) = length keys.
Proof. rewrite getLabelValuesFromMap_map. apply length_map. Qed.

(** The attribute function buffers one sample per slave, in order, whatever
    the attributes of the slaves are; it panics only when the descriptor
    refuses samples. *)
Lemma set_slave_attributes_inv (norm exp : list string) (slaves : list slave) :
  forall v c' w w',
    set_slave_attributes norm exp slaves (CounterVecC v) w = (Ok c', w') ->
    w' = w
    /\ c' = CounterVecC
              (mkSettableCounterVec (scv_desc v)
                 (scv_values v
                  ++ map (fun s => Sample (scv_desc v) CounterValue 1%float
                                     (getLabelValuesFromMap (slaveAttributesExport norm s) exp))
                       slaves))
    /\ (slaves <> [] -> desc_err (scv_desc v) = false).
Proof.
  induction slaves as [|s rest IH]; intros v c' w w'; simpl.
  - intros [= <- <-]. rewrite app_nil_r. destruct v. simpl. repeat split. congruence.
  - unfold bind.
    destruct (settableCounterVec_Set v 1%float _ w) as [[v1| |] w1] eqn:Hset; try discriminate.
    intros Hrest.
    assert (desc_err (scv_desc v) = false) as Hok.
    { unfold settableCounterVec_Set, NewConstMetric in Hset.
      destruct (desc_err (scv_desc v)); [discriminate | reflexivity]. }
    apply settableCounterVec_Set_inv in Hset as (-> & Hd & Hv & _).
    apply IH in Hrest as (-> & -> & _).
    rewrite Hd, Hv, <- app_assoc. auto.
Qed.

Lemma set_slave_attributes_ok (norm exp : list string) (slaves : list slave) :
  forall v w,
    desc_err (scv_desc v) = false ->
    length exp = length (variableLabels (scv_desc v)) ->
    exists c', set_slave_attributes norm exp slaves (CounterVecC v) w = (Ok c', w).
Proof.
  induction slaves as [|s rest IH]; intros v w Hok Hlen; simpl; [now eexists |].
  unfold bind, settableCounterVec_Set, NewConstMetric.
  rewrite Hok, getLabelValuesFromMap_length, Hlen, Nat.eqb_refl. simpl.
  apply IH; assumption.
Qed.

Lemma no_duplicates_identity_labels (norm : list string) :
  has_duplicates (labels ++ norm) = false ->
  stringInSlice "slave" norm = false /\ stringInSlice "hostname" norm = false
  /\ stringInSlice "port" norm = false /\ stringInSlice "id" norm = false.
Proof.
  unfold labels. simpl.
  rewrite !orb_false_iff. tauto.
Qed.

Lemma NewDesc_no_duplicates (fqName help : string) (variableLabels : list string) :
  desc_err (NewDesc fqName help variableLabels) = false ->
  has_duplicates variableLabels = false.
Proof. unfold NewDesc. simpl. rewrite !orb_false_iff. tauto. Qed.

(** The label values the attribute function passes to [Set] for a slave, when
    no configured label repeats a label of the slave's identity. *)
Lemma attribute_values_of_slave (norm : list string) (s : slave) :
  has_duplicates (labels ++ norm) = false ->
  getLabelValuesFromMap (slaveAttributesExport norm s) (labels ++ norm)
  = attribute_label_values norm s.
Proof.
  intros (Hslave & Hhost & Hport & Hid)%no_duplicates_identity_labels.
  rewrite getLabelValuesFromMap_map, map_app. unfold attribute_label_values. f_equal.
  - unfold labels. simpl.
    rewrite !slaveAttributesExport_other by assumption. reflexivity.
  - apply map_ext_in. intros label Hin. apply slaveAttributesExport_configured.
    apply stringInSlice_elem_of, list_elem_of_In, Hin.
Qed.

Lemma slave_gauges_are_gauges (c : MetricVec) (set : setter) :
  (c, set) ∈ slave_gauges -> exists g, c = GaugeVecC g.
Proof.
  unfold slave_gauges, slave_gauge. intros H.
  repeat (apply elem_of_cons in H as [[= -> _] | H]; [now eexists |]).
  inversion H.
Qed.

(** ** Fetching *)

Lemma same_traffic_refl (w : world) : same_traffic w w.
Proof. repeat split. Qed.

Lemma same_traffic_trans (a b c : world) :
  same_traffic a b -> same_traffic b c -> same_traffic a c.
Proof. unfold same_traffic. intros (-> & -> & ->) (-> & -> & ->). auto. Qed.

(** [authToken] never blocks and touches neither the metrics sent nor the
    fetches; it panics exactly when it signs with a key that does not parse. *)
Lemma authToken_traffic (e : auth_env) (w : world) :
  exists r w1,
    authToken e w = (r, w1) /\ same_traffic w w1
    /\ r <> Blocked
    /\ (r = Panicked <-> signing_panics e (auth (http w)) = true).
Proof.
  unfold authToken, refresh_token, signingToken, bind, get_world, put_auth, log_entry_add,
    errorCounter_Inc, ret, panic, signing_panics.
  destruct (tokenExpire (auth (http w)) <? now_auth e);
    [| eexists _, _; repeat split; simpl; congruence].
  destruct (key_parses e), (signed e), (marshal_ok e), (login_request_ok e),
    (login_transport_ok e), (login_token e); simpl; eexists _, _;
    repeat split; simpl; congruence.
Qed.

(** The token step of [fetchAndDecode]. *)
Lemma fetch_token_step (e : auth_env) (strict : bool) (w : world) :
  exists r w1,
    (if strict then authToken e ;; ret tt else ret tt) w = (r, w1)
    /\ same_traffic w w1
    /\ (r = Ok tt \/ r = Panicked)
    /\ (r = Panicked <-> strict && signing_panics e (auth (http w)) = true)
    /\ (strict = false -> w1 = w).
Proof.
  destruct strict; cbn [andb].
  - destruct (authToken_traffic e w) as (r & w1 & Hrun & Hsame & Hnb & Hp).
    unfold bind. rewrite Hrun.
    destruct r as [s| |]; [| congruence |].
    + exists (Ok tt), w1. split; [reflexivity |]. split; [exact Hsame |].
      split; [now left |]. split; [| discriminate].
      split; [discriminate |]. intros H. apply Hp in H. discriminate.
    + exists Panicked, w1. split; [reflexivity |]. split; [exact Hsame |].
      split; [now right |]. split; [| discriminate].
      split; [intros _; now apply Hp | reflexivity].
  - exists (Ok tt), w. split; [reflexivity |]. split; [apply same_traffic_refl |].
    split; [now left |]. split; [| reflexivity].
    split; discriminate.
Qed.

(** [fetchAndDecode] never blocks; it counts one fetch and sends nothing. It
    panics exactly when it asks for a token and the signing panics. When it
    returns and the request could not be built or got no response, the target
    is as before and the flag is false; otherwise the target holds what the
    decoder left in it and the flag says whether decoding succeeded. *)
Lemma fetchAndDecode_returns {T : Type} (pick : fetch_env -> decoded T)
    (endpoint : string) (target : T) (w : world) :
  let e := network w (requests w) in
  exists r w1,
    fetchAndDecode pick endpoint target w = (r, w1)
    /\ sent w1 = sent w /\ network w1 = network w /\ requests w1 = S (requests w)
    /\ r <> Blocked
    /\ (r = Panicked <-> fetch_panics w = true)
    /\ (forall ok v, r = Ok (ok, v) ->
          (request_ok e = false \/ transport_ok e = false -> ok = false /\ v = target)
          /\ (request_ok e = true -> transport_ok e = true ->
              ok = dec_ok (pick e) /\ v = dec_value (pick e))).
Proof.
  intros e. unfold fetch_panics. fold e.
  unfold fetchAndDecode, bind at 1, next_fetch. unfold bind at 1, get_world.
  fold e. cbn [http auth].
  destruct (request_ok e) eqn:Hreq; cbn [negb andb].
  2:{ unfold bind, log_entry_add, ret. eexists _, _.
      split; [reflexivity |]. cbn [sent network requests].
      do 3 (split; [reflexivity |]). split; [discriminate |].
      split; [split; discriminate |].
      intros ok v [= <- <-]. split; [now intros _ | discriminate]. }
  set (w0 := mkWorld (errorCounter w) (logged w) (sent w) (http w) (S (requests w)) (network w)).
  destruct (fetch_token_step (refresh e) (strictMode (auth (http w))) w0)
    as (r1 & w1 & Hauth & (Hs & Hn & Hr) & Hcases & Hpanic & _).
  change (auth (http w0)) with (auth (http w)) in Hpanic.
  unfold bind at 1. rewrite Hauth.
  destruct Hcases as [-> | ->].
  2:{ eexists _, _. split; [reflexivity |].
      do 3 (split; [assumption |]). split; [discriminate |].
      split; [split; [intros _; now apply Hpanic | reflexivity] | discriminate]. }
  assert (strictMode (auth (http w)) && signing_panics (refresh e) (auth (http w)) = false)
    as Hnp.
  { destruct (strictMode (auth (http w)) && signing_panics (refresh e) (auth (http w)));
      [| reflexivity]. destruct Hpanic as [_ Hp]. discriminate (Hp eq_refl). }
  rewrite Hnp.
  unfold bind, log_entry_add, errorCounter_Inc, ret.
  destruct (transport_ok e) eqn:Htr; cbn [negb].
  2:{ eexists _, _. split; [reflexivity |]. cbn [sent network requests].
      do 3 (split; [assumption |]). split; [discriminate |].
      split; [split; discriminate |].
      intros ok v [= <- <-]. split; [now intros _ | discriminate]. }
  destruct (dec_ok (pick e)) eqn:Hdec; cbn [negb];
    eexists _, _; (split; [reflexivity |]); cbn [sent network requests];
    do 3 (split; [assumption |]); (split; [discriminate |]);
    (split; [split; discriminate |]);
    intros ok v [= <- <-]; (split; [intros [? | ?]; discriminate | now intros _ _]).
Qed.

(** Whatever its outcome, [fetchAndDecode] has sent nothing. *)
Lemma fetchAndDecode_sends_nothing {T : Type} (pick : fetch_env -> decoded T)
    (endpoint : string) (target : T) (w w1 : world) (r : result (bool * T)) :
  fetchAndDecode pick endpoint target w = (r, w1) -> sent w1 = sent w.
Proof.
  intros Hrun.
  destruct (fetchAndDecode_returns pick endpoint target w) as (r' & w' & Hrun' & Hsent & _).
  rewrite Hrun in Hrun'. injection Hrun' as _ <-. exact Hsent.
Qed.

(** ** The numeric-map collector *)

Lemma MetricVec_Collect_returns (c : MetricVec) (w : world) :
  exists c' w1,
    MetricVec_Collect c w = (Ok c', w1)
    /\ errorCounter w1 = errorCounter w
    /\ network w1 = network w /\ requests w1 = requests w /\ http w1 = http w
    /\ exists warnings, logged w1 = logged w ++ warnings
                        /\ Forall (fun e => level e = WarnLevel) warnings.
Proof.
  destruct c as [g | v | s]; simpl; unfold bind.
  - unfold GaugeVec_Collect, bind. rewrite send_all_sent. simpl.
    eexists _, _. repeat split. exists []. now rewrite app_nil_r.
  - rewrite settableCounterVec_Collect_sent. simpl.
    eexists _, _. repeat split. exists []. now rewrite app_nil_r.
  - unfold settableCounter_Collect, bind, log_entry_add, send, ret.
    destruct (sc_value s); simpl; eexists _, _; repeat split.
    + eexists. split; [reflexivity |]. repeat constructor.
    + exists []. now rewrite app_nil_r.
Qed.

Lemma collect_each_returns (m : metricMap) (metrics : list (MetricVec * metricsCollectorFunctor)) :
  forall w, exists w1,
    collect_each m metrics w = (Ok tt, w1)
    /\ errorCounter w1 = errorCounter w
    /\ network w1 = network w /\ requests w1 = requests w /\ http w1 = http w
    /\ exists warnings, logged w1 = logged w ++ warnings
                        /\ Forall (fun e => level e = WarnLevel) warnings.
Proof.
  induction metrics as [|[cm f] rest IH]; intros w; simpl.
  - exists w. repeat split. exists []. now rewrite app_nil_r.
  - unfold bind.
    destruct (MetricVec_Collect_returns (f m cm).1 w)
      as (c' & w0 & -> & He & Hn & Hr & Hh & l0 & Hl & Hw0).
    destruct (IH w0) as (w1 & -> & He1 & Hn1 & Hr1 & Hh1 & l1 & Hl1 & Hw1).
    exists w1. repeat split; try congruence.
    exists (l0 ++ l1). split; [now rewrite Hl1, Hl, app_assoc | now apply Forall_app].
Qed.

(** The loop stops for ever at the first function that returns an error: the
    world is the one after the metrics before it were collected. *)
Lemma collect_map_metrics_blocks (m : metricMap)
    (before : list (MetricVec * metricsCollectorFunctor)) :
  forall cm f after w,
    Forall (fun entry => (entry.2 m entry.1).2 = None) before ->
    (f m cm).2 <> None ->
    collect_map_metrics m (before ++ (cm, f) :: after) w
    = (Blocked, snd (collect_each m before w)).
Proof.
  induction before as [|[c g] before IH]; intros cm f after w Hbefore Herr; simpl.
  - destruct (f m cm) as [cm1 [err|]]; [reflexivity | now destruct Herr].
  - apply Forall_cons in Hbefore as [Hg Hbefore]. simpl in Hg.
    destruct (g m c) as [c1 err] eqn:Egc. simpl in Hg. subst err. simpl.
    unfold bind at 1. unfold bind at 2.
    destruct (MetricVec_Collect_returns c1 w) as (c' & w0 & -> & _).
    unfold bind at 1. rewrite (IH cm f after w0 Hbefore Herr). reflexivity.
Qed.

(** ** The state collector *)

Lemma set_slave_gauges_returns (value : slave -> float) (slaves : list slave) :
  forall g w,
    length (variableLabels (gv_desc g)) = 4%nat ->
    set_slave_gauges value slaves (GaugeVecC g) w
    = (Ok (GaugeVecC (mkGaugeVec (gv_desc g) (set_children value slaves (gv_children g)))), w).
Proof.
  induction slaves as [|s rest IH]; intros g w Hlen; simpl.
  - now destruct g.
  - unfold bind, GaugeVec_Set. rewrite Hlen. simpl. now rewrite IH.
Qed.

Lemma set_children_nonempty (value : slave -> float) (slaves : list slave) :
  forall children, slaves <> [] -> set_children value slaves children <> ∅.
Proof.
  induction slaves as [|s rest IH]; intros children Hne; [congruence |].
  unfold set_children. simpl. destruct rest as [|s' rest'].
  - simpl. apply insert_non_empty.
  - apply IH. discriminate.
Qed.

Lemma gauge_samples_nonempty (g : GaugeVec) :
  gv_children g <> ∅ -> MetricVec_samples (GaugeVecC g) <> [].
Proof.
  intros Hne Hnil. apply Hne. simpl in Hnil.
  apply map_eq_nil in Hnil. now apply map_to_list_empty_iff.
Qed.

Lemma GaugeVec_Collect_sent (g : GaugeVec) (w : world) :
  GaugeVec_Collect g w = (Ok g, sent_more (MetricVec_samples (GaugeVecC g)) w).
Proof. unfold GaugeVec_Collect, bind. now rewrite send_all_sent. Qed.

(** A scrape of slave gauges returns; it sends the gauges the vectors hold
    after they were set. With no slave in the state the vectors are as
    before; with a slave every vector holds a gauge. *)
Lemma collect_state_gauges (st : state) (metrics : list (MetricVec * setter)) :
  forall w,
    Forall slave_gauge_entry metrics ->
    exists metrics',
      collect_state_metrics st metrics w
      = (Ok metrics', sent_more (entries_samples metrics') w)
      /\ Forall slave_gauge_entry metrics'
      /\ length metrics' = length metrics
      /\ (Slaves st = [] -> metrics' = metrics)
      /\ (Slaves st <> [] -> Forall (fun entry => MetricVec_samples entry.1 <> []) metrics').
Proof.
  induction metrics as [|[c set] rest IH]; intros w Hall; simpl.
  - exists []. rewrite sent_more_nil. repeat split; auto.
  - apply Forall_cons in Hall as [(g & value & [= -> ->] & Hlen) Hrest].
    unfold bind at 1. rewrite (set_slave_gauges_returns value (Slaves st) g w Hlen).
    set (g' := mkGaugeVec (gv_desc g) (set_children value (Slaves st) (gv_children g))).
    unfold bind at 1. cbn [MetricVec_Collect]. unfold bind at 1.
    rewrite GaugeVec_Collect_sent. cbn [ret]. unfold bind at 1.
    destruct (IH (sent_more (MetricVec_samples (GaugeVecC g')) w) Hrest)
      as (rest' & -> & Hall' & Hlen' & Hsame & Hfull).
    cbn [ret].
    exists ((GaugeVecC g', fun st c => set_slave_gauges value (Slaves st) c) :: rest').
    split; [| split; [| split; [| split]]].
    + unfold entries_samples. cbn [flat_map fst]. now rewrite sent_more_app.
    + constructor; [| exact Hall']. exists g', value. split; [reflexivity | exact Hlen].
    + simpl. now rewrite Hlen'.
    + intros Hnone. rewrite (Hsame Hnone). do 2 f_equal.
      unfold g'. rewrite Hnone. now destruct g.
    + intros Hsome. constructor; [| exact (Hfull Hsome)].
      apply gauge_samples_nonempty. now apply set_children_nonempty.
Qed.

Lemma slave_gauges_entries : Forall slave_gauge_entry slave_gauges.
Proof.
  unfold slave_gauges, slave_gauge.
  repeat (constructor; [eexists _, _; split; reflexivity |]). constructor.
Qed.

Lemma entries_samples_length (metrics : list (MetricVec * setter)) :
  Forall (fun entry => MetricVec_samples entry.1 <> []) metrics ->
  (length metrics <= length (entries_samples metrics))%nat.
Proof.
  induction 1 as [|entry rest Hne _ IH]; simpl; [lia |].
  rewrite length_app. destruct (MetricVec_samples entry.1); [congruence | simpl; lia].
Qed.

(** The numeric-map collector stops at the first function that returns an
    error, after the fetch and the metrics before it. *)
Lemma metricCollector_Collect_stops
    (before after : list (MetricVec * metricsCollectorFunctor))
    (cm : MetricVec) (f : metricsCollectorFunctor)
    (ok : bool) (m : metricMap) (w w1 : world) :
  fetchAndDecode body_metrics "/metrics/snapshot" (∅ : metricMap) w = (Ok (ok, m), w1) ->
  Forall (fun entry => (entry.2 m entry.1).2 = None) before ->
  (f m cm).2 <> None ->
  metricCollector_Collect (newMetricCollector (before ++ (cm, f) :: after)) w
  = (Blocked, snd (collect_each m before w1)).
Proof.
  intros Hfetch Hbefore Herr.
  unfold metricCollector_Collect, bind at 1. rewrite Hfetch.
  unfold newMetricCollector. cbn [mc_metrics]. unfold bind.
  now rewrite collect_map_metrics_blocks.
Qed.

(** A standard collector whose numeric-map member stops never reaches its
    version member: the version endpoint is not fetched. *)
Lemma standardCollector_stops_with_metricCollector (Sprintf_f : float -> string)
    (before after : list (MetricVec * metricsCollectorFunctor))
    (cm : MetricVec) (f : metricsCollectorFunctor)
    (ok : bool) (m : metricMap) (w w1 : world) :
  fetchAndDecode body_metrics "/metrics/snapshot" (∅ : metricMap) w = (Ok (ok, m), w1) ->
  Forall (fun entry => (entry.2 m entry.1).2 = None) before ->
  (f m cm).2 <> None ->
  Collect Sprintf_f (newStandardCollector (before ++ (cm, f) :: after)) w
  = (Blocked, snd (collect_each m before w1))
  /\ requests (snd (collect_each m before w1)) = S (requests w).
Proof.
  intros Hfetch Hbefore Herr. split.
  - unfold newStandardCollector, newGroupedCollector. simpl. unfold bind.
    now rewrite (metricCollector_Collect_stops _ _ _ _ _ _ _ _ Hfetch Hbefore Herr).
  - destruct (collect_each_returns m before w1) as (w2 & E & _ & _ & Hr & _).
    rewrite E. simpl. rewrite Hr.
    destruct (fetchAndDecode_returns body_metrics "/metrics/snapshot" (∅ : metricMap) w)
      as (r' & w' & Hrun & _ & _ & Hreq & _).
    rewrite Hfetch in Hrun. injection Hrun as _ <-. exact Hreq.
Qed.

(** When no function returns an error the loop returns, after the metrics
    were collected one after the other. *)
Lemma collect_map_metrics_returns (m : metricMap)
    (metrics : list (MetricVec * metricsCollectorFunctor)) :
  forall w,
    Forall (fun entry => (entry.2 m entry.1).2 = None) metrics ->
    exists metrics',
      collect_map_metrics m metrics w = (Ok metrics', snd (collect_each m metrics w))
      /\ length metrics' = length metrics.
Proof.
  induction metrics as [|[c g] rest IH]; intros w Hall; simpl.
  - now exists [].
  - apply Forall_cons in Hall as [Hg Hrest]. simpl in Hg.
    destruct (g m c) as [c1 err] eqn:Egc. simpl in Hg. subst err. simpl.
    unfold bind at 1. unfold bind at 2.
    destruct (MetricVec_Collect_returns c1 w) as (c' & w0 & -> & _).
    unfold bind at 1.
    destruct (IH w0 Hrest) as (rest' & -> & Hlen).
    exists ((c', g) :: rest'). split; [reflexivity | simpl; now rewrite Hlen].
Qed.

(** ** Label names *)

Lemma normalise_from_word (first : bool) (skip : nat) (s : string) :
  all_bytes is_word (normalise_from first skip s) = true.
Proof.
  revert first skip. induction s as [|c r IH]; intros first skip; simpl; [reflexivity |].
  destruct skip as [|k]; [| apply IH].
  destruct (is_letter c || is_underscore c || negb first && is_digit c) eqn:Hc; simpl.
  - rewrite IH, andb_true_r. unfold is_word.
    destruct (is_letter c), (is_underscore c), (is_digit c), first; simpl in *;
      congruence.
  - apply IH.
Qed.

Lemma normalise_from_fixes_words (s : string) :
  all_bytes is_word s = true -> normalise_from false 0 s = s.
Proof.
  induction s as [|c r IH]; simpl; [reflexivity |].
  intros [Hc Hr]%andb_true_iff. unfold is_word in Hc.
  replace (is_letter c || is_underscore c || is_digit c) with true
    by (destruct (is_letter c), (is_underscore c), (is_digit c); simpl in *; congruence).
  now rewrite (IH Hr).
Qed.

Lemma normalise_from_length (s : string) :
  forall first skip,
    (String.length (normalise_from first skip s) <= String.length s)%nat.
Proof.
  induction s as [|c r IH]; intros first skip; simpl; [lia |].
  destruct skip as [|k]; [| specialize (IH false k); lia].
  destruct (is_letter c || is_underscore c || negb first && is_digit c); simpl.
  - specialize (IH false 0%nat). lia.
  - match goal with
    | |- context [normalise_from false ?k r] => specialize (IH false k)
    end. lia.
Qed.

Lemma rune_len_ascii (c : ascii) (r : string) :
  is_ascii c = true -> rune_len (String c r) = 1%nat.
Proof.
  unfold is_ascii, rune_len. intros H%Z.ltb_lt. cbv zeta.
  replace (byte_val c <? 194) with true by (symmetry; apply Z.ltb_lt; lia).
  reflexivity.
Qed.

Lemma normalise_from_ascii_length (s : string) :
  forall first,
    all_bytes is_ascii s = true ->
    String.length (normalise_from first 0 s) = String.length s.
Proof.
  induction s as [|c r IH]; intros first; simpl; [reflexivity |].
  intros [Hc Hr]%andb_true_iff.
  destruct (is_letter c || is_underscore c || negb first && is_digit c); simpl.
  - now rewrite IH.
  - pose proof (rune_len_ascii c r Hc) as Hlen. simpl in Hlen. rewrite Hlen.
    simpl. now rewrite IH.
Qed.

Lemma normaliseLabel_valid_name (c : ascii) (r : string) :
  valid_name false (normaliseLabel (String c r)) = true.
Proof.
  unfold normaliseLabel, valid_name.
  cbn [normalise_from negb andb].
  destruct (is_letter c) eqn:Hl, (is_underscore c) eqn:Hu; cbn [orb];
    rewrite ?Hl, ?Hu; cbn [orb andb];
    (apply (all_bytes_impl is_word); [now intros ch -> | apply normalise_from_word]).
Qed.

(** ** The range codec, further *)

Lemma digits_value_mono (s : string) :
  forall n, all_bytes is_digit s = true -> 0 <= n -> n <= digits_value s n.
Proof.
  induction s as [|c r IH]; intros n; simpl; [lia |].
  intros [Hc Hr]%andb_true_iff Hn. apply is_digit_bounds in Hc.
  specialize (IH (n * 10 + (byte_val c - 48)) Hr). lia.
Qed.

(** The loop of [ParseUint] on a text of digits gives the number the text
    stands for, or the range error when that number is above 2^64-1. *)
Lemma parse_digits_value (s : string) :
  forall n, all_bytes is_digit s = true -> 0 <= n <= maxUint64 ->
    parse_digits s n
    = if digits_value s n <=? maxUint64 then inl (digits_value s n) else inr true.
Proof.
  induction s as [|c r IH]; intros n; simpl.
  - intros _ Hn. now replace (n <=? maxUint64) with true by (symmetry; apply Z.leb_le; lia).
  - intros [Hc Hr]%andb_true_iff Hn. rewrite Hc.
    apply is_digit_bounds in Hc.
    pose proof (digits_value_mono r (n * 10 + (byte_val c - 48)) Hr ltac:(lia)) as Hmono.
    unfold maxUint64 in *.
    change ((2 ^ 64 - 1) / 10 + 1) with 1844674407370955162.
    change (2 ^ 64) with 18446744073709551616 in *.
    destruct (Z.leb_spec 1844674407370955162 n) as [Hcut | Hcut].
    { replace (digits_value r (n * 10 + (byte_val c - 48)) <=? 18446744073709551616 - 1)
        with false by (symmetry; apply Z.leb_gt; lia). reflexivity. }
    rewrite (Z.mod_small (n * 10)) by lia.
    destruct (Z.le_gt_cases (n * 10 + (byte_val c - 48)) (18446744073709551616 - 1))
      as [Hfit | Hover].
    + rewrite (Z.mod_small (n * 10 + (byte_val c - 48))) by lia.
      replace (n * 10 + (byte_val c - 48) <? n * 10) with false
        by (symmetry; apply Z.ltb_ge; lia).
      replace (18446744073709551616 - 1 <? n * 10 + (byte_val c - 48)) with false
        by (symmetry; apply Z.ltb_ge; lia).
      simpl. apply IH; [exact Hr | lia].
    + replace ((n * 10 + (byte_val c - 48)) mod 18446744073709551616)
        with (n * 10 + (byte_val c - 48) - 18446744073709551616).
      2:{ apply Z.mod_unique with (q := 1); lia. }
      replace (n * 10 + (byte_val c - 48) - 18446744073709551616 <? n * 10) with true
        by (symmetry; apply Z.ltb_lt; lia).
      replace (digits_value r (n * 10 + (byte_val c - 48)) <=? 18446744073709551616 - 1)
        with false by (symmetry; apply Z.leb_gt; lia).
      reflexivity.
Qed.

Lemma ParseUint_value (s : string) (v : Z) :
  ParseUint s = inl v <->
  numeric s = true /\ decimal_value s = v /\ 0 <= v <= maxUint64.
Proof.
  split.
  - intros Hp. pose proof (ParseUint_numeric s v Hp) as Hnum. split; [exact Hnum |].
    unfold ParseUint, numeric in *. destruct s as [|c r]; [discriminate |].
    rewrite (parse_digits_value _ 0 Hnum) in Hp by (unfold maxUint64; lia).
    fold (decimal_value (String c r)) in Hp.
    destruct (Z.leb_spec (decimal_value (String c r)) maxUint64); [| discriminate].
    injection Hp as <-. split; [reflexivity |]. split; [| assumption].
    apply (digits_value_mono _ 0 Hnum). lia.
  - intros (Hnum & <- & Hrange). unfold ParseUint, numeric in *.
    destruct s as [|c r]; [discriminate |].
    rewrite (parse_digits_value _ 0 Hnum) by (unfold maxUint64; lia).
    fold (decimal_value (String c r)).
    now replace (decimal_value (String c r) <=? maxUint64) with true
      by (symmetry; apply Z.leb_le; lia).
Qed.

Lemma segment_denotes_reads (r : string) (p : Z * Z) :
  segment_denotes r p <-> segment_reads r p.
Proof.
  unfold segment_denotes, segment_reads. split.
  - intros (p0 & p1 & Hb & H0 & H1).
    apply ParseUint_value in H0 as (? & ? & ?). apply ParseUint_value in H1 as (? & ? & ?).
    exists p0, p1. tauto.
  - intros (p0 & p1 & Hb & Hn0 & Hv0 & Hn1 & Hv1 & Hr0 & Hr1).
    exists p0, p1. split; [exact Hb |].
    split; apply ParseUint_value; tauto.
Qed.

(** The loop returns no error exactly when every segment denotes a pair, and
    it has then appended the pairs in order. *)
Lemma unmarshal_segments_succeeds (segs : list string) :
  forall rs rs',
    unmarshal_segments segs rs = (rs', None) <->
    exists pairs, Forall2 segment_denotes segs pairs /\ rs' = rs ++ pairs.
Proof.
  induction segs as [|r rest IH]; intros rs rs'.
  - simpl. split.
    + intros [= <-]. exists []. split; [constructor | now rewrite app_nil_r].
    + intros (pairs & Hall & ->). inversion Hall. now rewrite app_nil_r.
  - split.
    + intros Hrun.
      destruct (unmarshal_segments_turn r rest rs) as [[e He] | (p & Hp & Hgo)].
      * rewrite He in Hrun. discriminate.
      * rewrite Hgo in Hrun. apply IH in Hrun as (pairs & Hall & ->).
        exists (p :: pairs). split; [now constructor | now rewrite <- app_assoc].
    + intros (pairs & Hall & ->).
      rewrite <- (app_nil_r (r :: rest)).
      now rewrite (unmarshal_segments_denoted _ _ Hall).
Qed.

(** Whatever the loop returns, the slice it was given is a prefix of the
    slice it leaves, and what it appended are pairs of segments. *)
Lemma unmarshal_segments_appends (segs : list string) :
  forall rs, exists added,
    fst (unmarshal_segments segs rs) = rs ++ added
    /\ Forall2 segment_denotes (take (length added) segs) added.
Proof.
  induction segs as [|r rest IH]; intros rs.
  - exists []. simpl. split; [now rewrite app_nil_r | constructor].
  - destruct (unmarshal_segments_turn r rest rs) as [[e He] | (p & Hp & Hgo)].
    + exists []. rewrite He. simpl. split; [now rewrite app_nil_r | constructor].
    + destruct (IH (rs ++ [p])) as (added & Hfst & Hall).
      exists (p :: added). rewrite Hgo, Hfst, <- app_assoc.
      split; [reflexivity | simpl; now constructor].
Qed.

Lemma trimRightASCII_all_cut (cutset s : string) :
  all_bytes (fun c => mem_byte c cutset) s = true -> trimRightASCII cutset s = "".
Proof.
  induction s as [|c r IH]; simpl; [reflexivity |].
  intros [Hc Hr]%andb_true_iff. now rewrite (IH Hr), Hc.
Qed.

Lemma trimRightASCII_suffix (cutset s post : string) :
  all_bytes (fun c => mem_byte c cutset) post = true ->
  trimRightASCII cutset (s +:+ post) = trimRightASCII cutset s.
Proof.
  intros Hpost. induction s as [|c r IH].
  - rewrite append_nil. now rewrite trimRightASCII_all_cut.
  - rewrite append_cons. simpl. now rewrite IH.
Qed.

Lemma trimLeftASCII_prefix (cutset pre s : string) :
  all_bytes (fun c => mem_byte c cutset) pre = true ->
  trimLeftASCII cutset (pre +:+ s) = trimLeftASCII cutset s.
Proof.
  induction pre as [|c r IH]; [reflexivity |].
  rewrite append_cons. simpl. intros [Hc Hr]%andb_true_iff. rewrite Hc. now apply IH.
Qed.

(** The wrapping is sliced off a text that holds none of its bytes. *)
Lemma Trim_wrapped (cutset pre s post : string) :
  all_bytes (fun c => mem_byte c cutset) pre = true ->
  all_bytes (fun c => mem_byte c cutset) post = true ->
  all_bytes (fun c => negb (mem_byte c cutset)) s = true ->
  Trim (pre +:+ s +:+ post) cutset = s.
Proof.
  intros Hpre Hpost Hs. unfold Trim.
  rewrite <- append_assoc, (trimRightASCII_suffix _ _ _ Hpost).
  destruct s as [|c r].
  - rewrite append_empty_r, (trimRightASCII_all_cut _ _ Hpre). reflexivity.
  - assert (trimRightASCII cutset (pre +:+ String c r) = pre +:+ String c r) as ->.
    { clear Hpre. induction pre as [|x pre IH].
      - rewrite append_nil. now apply trimRightASCII_id.
      - rewrite append_cons. simpl. rewrite IH.
        destruct pre; reflexivity. }
    rewrite (trimLeftASCII_prefix _ _ _ Hpre). now apply trimLeftASCII_id.
Qed.

Lemma TrimSpace_leading_space (s : string) : TrimSpace (String " " s) = TrimSpace s.
Proof. reflexivity. Qed.

Lemma spaced_interval_denotes (a b : Z) :
  0 <= a <= maxUint64 -> 0 <= b <= maxUint64 ->
  segment_denotes (String " " (interval_text a b)) (a, b).
Proof.
  intros Ha Hb. exists (String " " (FormatUint a)), (FormatUint b). split; [split |].
  - reflexivity.
  - simpl. apply digits_no_sep; [reflexivity | apply FormatUint_digits; lia].
  - rewrite TrimSpace_leading_space.
    rewrite !TrimSpace_digits by (apply FormatUint_digits; lia).
    split; now apply ParseUint_FormatUint.
Qed.

Lemma intervals_text_bytes (pairs : list (Z * Z)) :
  in_uint64 pairs -> all_bytes interval_byte (intervals_text pairs) = true.
Proof.
  assert (forall a b, 0 <= a -> 0 <= b -> all_bytes interval_byte (interval_text a b) = true)
    as Hone.
  { intros a b Ha Hb. apply interval_text_bytes; try assumption; [| reflexivity].
    intros c Hc. unfold interval_byte. now rewrite Hc. }
  induction 1 as [|[a b] rest [Ha Hb] _ IH]; [reflexivity |]. simpl in Ha, Hb.
  destruct rest as [|q rest'].
  - apply Hone; simpl; lia.
  - change (intervals_text ((a, b) :: q :: rest'))
      with (interval_text a b +:+ String "," (String " " (intervals_text (q :: rest')))).
    rewrite all_bytes_append. cbn [all_bytes].
    rewrite IH, Hone by lia. reflexivity.
Qed.

Lemma interval_bytes_not_cut (s : string) :
  all_bytes interval_byte s = true ->
  all_bytes (fun c => negb (mem_byte c range_cutset)) s = true.
Proof.
  apply all_bytes_impl. intros c. unfold interval_byte.
  rewrite !orb_true_iff.
  intros [[[H | H] | H] | H].
  - now apply digit_not_in_range_cutset.
  - apply Ascii.eqb_eq in H. now subst.
  - apply Ascii.eqb_eq in H. now subst.
  - apply Ascii.eqb_eq in H. now subst.
Qed.

(** The segments of the text of intervals: the first interval, then every
    other one after a space. *)
Lemma Split_intervals_text (p : Z * Z) (rest : list (Z * Z)) :
  in_uint64 (p :: rest) ->
  Split (intervals_text (p :: rest)) ","
  = interval_text p.1 p.2 :: map (fun q => String " " (interval_text q.1 q.2)) rest.
Proof.
  assert (forall a b, 0 <= a -> 0 <= b ->
            all_bytes (not_byte ",") (interval_text a b) = true) as Hone.
  { intros a b Ha Hb.
    apply interval_text_bytes; solve [reflexivity | assumption
                                      | intros ch; now apply digit_not_byte]. }
  revert p. induction rest as [|q rest IH]; intros [a b] Hall.
  - apply Forall_cons in Hall as [[Ha Hb] _]. simpl in *.
    apply Split_no_sep, Hone; simpl; lia.
  - apply Forall_cons in Hall as [[Ha Hb] Hrest]. simpl in Ha, Hb.
    change (intervals_text ((a, b) :: q :: rest))
      with (interval_text a b +:+ String "," (String " " (intervals_text (q :: rest)))).
    rewrite Split_append by (apply Hone; lia).
    cbn [Split]. change (Ascii.eqb " " ",") with false. cbv iota.
    rewrite (IH q Hrest). reflexivity.
Qed.

Lemma segments_empty_field (data : string) :
  all_bytes (fun c => mem_byte c range_cutset) data = true -> segments data = [].
Proof.
  intros H. unfold segments, Trim. now rewrite (trimRightASCII_all_cut _ _ H).
Qed.

Lemma segments_ranges_text (p : Z * Z) (rest : list (Z * Z)) :
  in_uint64 (p :: rest) ->
  segments (ranges_text (p :: rest))
  = interval_text p.1 p.2 :: map (fun q => String " " (interval_text q.1 q.2)) rest.
Proof.
  intros Hall.
  assert (Trim (ranges_text (p :: rest)) range_cutset = intervals_text (p :: rest)) as Htrim.
  { change (ranges_text (p :: rest))
      with (String dquote "[" +:+ intervals_text (p :: rest) +:+ String "]" (String dquote "")).
    apply Trim_wrapped; [reflexivity | reflexivity |].
    now apply interval_bytes_not_cut, intervals_text_bytes. }
  rewrite segments_nonempty; rewrite Htrim.
  - now apply Split_intervals_text.
  - destruct p as [a b]. pose proof (interval_text_nonempty a b) as Hne.
    destruct rest as [|q rest']; simpl.
    + exact Hne.
    + destruct (interval_text a b); [congruence | discriminate].
Qed.

Lemma sum_sizes_app (a b : ranges) : sum_sizes (a ++ b) = sum_sizes a + sum_sizes b.
Proof.
  unfold sum_sizes. induction a as [|[lo hi] a IH]; simpl; [reflexivity |].
  rewrite IH. lia.
Qed.

(** ** The attribute map of a node *)

Lemma export_attributes_cons (norm : list string) (attribute : string * string)
    (rest : list (string * string)) (m : gmap string string) :
  export_attributes norm (attribute :: rest) m
  = export_attributes norm rest (export_attribute norm attribute m).
Proof. destruct attribute as [key raw]. reflexivity. Qed.

Lemma export_attribute_comm (norm : list string) (x y : string * string)
    (m : gmap string string) :
  normaliseLabel x.1 <> normaliseLabel y.1 ->
  export_attribute norm x (export_attribute norm y m)
  = export_attribute norm y (export_attribute norm x m).
Proof.
  intros Hne. unfold export_attribute.
  destruct (stringInSlice (normaliseLabel x.1) norm); [| reflexivity].
  destruct (stringInSlice (normaliseLabel y.1) norm); [| reflexivity].
  destruct (attributeString x.2) as [vx [ex|]]; [reflexivity |].
  destruct (attributeString y.2) as [vy [ey|]]; [reflexivity |].
  now apply insert_insert_ne.
Qed.

(** The loop over the attributes gives the same map in whatever order it
    ranges over them, when no two keys normalise to the same label. *)
Lemma export_attributes_permutation (norm : list string)
    (attributes attributes' : list (string * string)) :
  attributes ≡ₚ attributes' ->
  NoDup (normalised_keys attributes) ->
  forall m, export_attributes norm attributes m = export_attributes norm attributes' m.
Proof.
  induction 1 as [| x l l' _ IH | x y l | l l' l'' Hp1 IH1 Hp2 IH2]; intros Hnd m.
  - reflexivity.
  - rewrite !export_attributes_cons. apply IH.
    unfold normalised_keys in Hnd. simpl in Hnd. now apply NoDup_cons in Hnd as [_ Hnd].
  - rewrite !export_attributes_cons. f_equal. apply export_attribute_comm.
    unfold normalised_keys in Hnd. simpl in Hnd.
    apply NoDup_cons in Hnd as [Hnotin _]. intros Heq. apply Hnotin. rewrite Heq. left.
  - rewrite IH1 by exact Hnd. apply IH2.
    unfold normalised_keys in *. now rewrite <- Hp1.
Qed.

Lemma export_attribute_dom (norm : list string) (attribute : string * string)
    (m : gmap string string) :
  list_to_set norm ⊆ dom m -> dom (export_attribute norm attribute m) = dom m.
Proof.
  intros Hsub. unfold export_attribute.
  destruct (stringInSlice (normaliseLabel attribute.1) norm) eqn:Hin; [| reflexivity].
  destruct (attributeString attribute.2) as [v [e|]]; [reflexivity |].
  apply stringInSlice_elem_of in Hin. rewrite dom_insert_L.
  assert (normaliseLabel attribute.1 ∈ dom m) by (apply Hsub; now apply elem_of_list_to_set).
  set_solver.
Qed.

Lemma export_attributes_dom (norm : list string) (attributes : list (string * string)) :
  forall m, list_to_set norm ⊆ dom m -> dom (export_attributes norm attributes m) = dom m.
Proof.
  induction attributes as [|a rest IH]; intros m Hsub; [reflexivity |].
  rewrite export_attributes_cons, IH; rewrite export_attribute_dom by exact Hsub;
    [reflexivity | exact Hsub].
Qed.

Lemma blank_labels_dom (norm : list string) :
  forall m : gmap string string,
    dom (fold_left (fun m l => <[l := ""]> m) norm m) = dom m ∪ list_to_set norm.
Proof.
  induction norm as [|x norm IH]; intros m; simpl.
  - set_solver.
  - rewrite IH, dom_insert_L. set_solver.
Qed.

(** ** Token refresh and fetching, further *)

(** ** The state collector, further *)

Lemma has_duplicates_NoDup (l : list string) : has_duplicates l = false <-> NoDup l.
Proof.
  induction l as [|x r IH]; simpl.
  - split; [constructor | reflexivity].
  - rewrite orb_false_iff, NoDup_cons, IH, <- stringInSlice_elem_of.
    destruct (stringInSlice x r); intuition congruence.
Qed.

Lemma checkLabelName_normaliseLabel (label : string) :
  checkLabelName (normaliseLabel label) = true
  <-> label <> "" /\ reserved_label (normaliseLabel label) = false.
Proof.
  unfold checkLabelName. fold (reserved_label (normaliseLabel label)).
  destruct label as [|c r].
  - simpl. intuition congruence.
  - rewrite normaliseLabel_valid_name. simpl.
    rewrite negb_true_iff. intuition congruence.
Qed.

Lemma attributes_desc_err (slaveAttributeLabels : list string) :
  desc_err (attributes_desc slaveAttributeLabels) = false <-> usable_labels slaveAttributeLabels.
Proof.
  unfold attributes_desc, counter, usable_labels. cbn [scv_desc NewDesc desc_err].
  replace (valid_name true (BuildFQName "mesos" "slave" "attributes")) with true
    by (vm_compute; reflexivity).
  rewrite forallb_app.
  replace (forallb checkLabelName labels) with true by (vm_compute; reflexivity).
  cbn [negb orb andb]. rewrite orb_false_iff, negb_false_iff, has_duplicates_NoDup.
  rewrite normaliseLabelList_map, forallb_forall, Forall_forall.
  split; intros [Hnames Hdup]; (split; [| exact Hdup]).
  - intros label Hin. apply checkLabelName_normaliseLabel, Hnames.
    apply in_map. now apply list_elem_of_In.
  - intros name Hin. apply in_map_iff in Hin as (label & <- & Hin).
    apply checkLabelName_normaliseLabel, Hnames. now apply list_elem_of_In.
Qed.

Lemma set_children_snoc (value : slave -> float) (slaves : list slave) (s : slave)
    (children : gmap (list string) float) :
  set_children value (slaves ++ [s]) children
  = <[slave_label_values s := value s]> (set_children value slaves children).
Proof. unfold set_children. now rewrite fold_left_app. Qed.

Lemma set_children_lookup (value : slave -> float) (slaves : list slave)
    (children : gmap (list string) float) (lvs : list string) :
  set_children value slaves children !! lvs
  = match slave_labelled lvs slaves with
    | Some s => Some (value s)
    | None => children !! lvs
    end.
Proof.
  induction slaves as [|s slaves IH] using rev_ind; [reflexivity |].
  rewrite set_children_snoc. unfold slave_labelled in *. rewrite filter_app.
  destruct (decide (slave_label_values s = lvs)) as [Heq | Hne].
  - rewrite (filter_cons_True _ s []) by exact Heq. rewrite filter_nil, last_snoc.
    rewrite Heq. apply lookup_insert_eq.
  - rewrite (filter_cons_False _ s []) by exact Hne. rewrite filter_nil, app_nil_r.
    rewrite lookup_insert_ne by exact Hne. exact IH.
Qed.

Lemma slave_labelled_Some (lvs : list string) (slaves : list slave) (s : slave) :
  slave_labelled lvs slaves = Some s -> s ∈ slaves /\ slave_label_values s = lvs.
Proof.
  unfold slave_labelled. intros H%last_Some_elem_of.
  apply list_elem_of_filter in H. tauto.
Qed.

Lemma slave_labelled_NoDup (slaves : list slave) (s : slave) :
  NoDup (map slave_label_values slaves) -> s ∈ slaves ->
  slave_labelled (slave_label_values s) slaves = Some s.
Proof.
  unfold slave_labelled.
  induction slaves as [|x slaves IH] using rev_ind; [now intros _ ?%elem_of_nil |].
  rewrite map_app, filter_app. simpl. intros Hnd Hin.
  apply NoDup_app in Hnd as (Hnd & Hfresh & _).
  apply elem_of_app in Hin as [Hin | Hin%list_elem_of_singleton].
  2:{ subst x. rewrite (filter_cons_True _ s []) by reflexivity.
      now rewrite filter_nil, last_snoc. }
  rewrite (filter_cons_False _ x []), filter_nil, app_nil_r; [now apply IH |].
  intros Heq. apply (Hfresh (slave_label_values s)).
  - apply (list_elem_of_fmap_2 slave_label_values). exact Hin.
  - rewrite <- Heq. apply list_elem_of_here.
Qed.

Lemma gauge_samples_elem_of (g : GaugeVec) (m : Metric) :
  m ∈ MetricVec_samples (GaugeVecC g)
  <-> exists lvs v, gv_children g !! lvs = Some v /\ m = Sample (gv_desc g) GaugeValue v lvs.
Proof.
  simpl. change (map ?f ?l) with (f <$> l). rewrite list_elem_of_fmap. split.
  - intros ([lvs v] & -> & Hin%elem_of_map_to_list). now exists lvs, v.
  - intros (lvs & v & Hin & ->). exists (lvs, v). split; [reflexivity |].
    now apply elem_of_map_to_list.
Qed.

Lemma set_children_size (value : slave -> float) (slaves : list slave) :
  NoDup (map slave_label_values slaves) ->
  size (set_children value slaves ∅) = length slaves.
Proof.
  induction slaves as [|s slaves IH] using rev_ind; [reflexivity |].
  rewrite map_app. simpl. intros Hnd. apply NoDup_app in Hnd as (Hnd & Hfresh & _).
  rewrite set_children_snoc, map_size_insert_None.
  - rewrite IH by exact Hnd. rewrite length_app. simpl. lia.
  - rewrite set_children_lookup, lookup_empty.
    destruct (slave_labelled _ slaves) as [s'|] eqn:Hs'; [| reflexivity].
    apply slave_labelled_Some in Hs' as [Hin Heq]. exfalso.
    apply (Hfresh (slave_label_values s)); [| apply list_elem_of_here].
    rewrite <- Heq. apply (list_elem_of_fmap_2 slave_label_values). exact Hin.
Qed.

Lemma collect_state_metrics_app (st : state) (a b : list (MetricVec * setter)) :
  forall w,
    collect_state_metrics st (a ++ b) w
    = match collect_state_metrics st a w with
      | (Ok a', w1) =>
          match collect_state_metrics st b w1 with
          | (Ok b', w2) => (Ok (a' ++ b'), w2)
          | (Blocked, w2) => (Blocked, w2)
          | (Panicked, w2) => (Panicked, w2)
          end
      | (Blocked, w1) => (Blocked, w1)
      | (Panicked, w1) => (Panicked, w1)
      end.
Proof.
  induction a as [|[c set] a IH]; intros w; simpl.
  - unfold ret. destruct (collect_state_metrics st b w) as [[b'| |] w2]; reflexivity.
  - unfold bind, ret. destruct (set st c w) as [[c1| |] w1]; try reflexivity.
    destruct (MetricVec_Collect c1 w1) as [[c2| |] w2]; try reflexivity.
    rewrite IH.
    destruct (collect_state_metrics st a w2) as [[a'| |] w3]; try reflexivity.
    destruct (collect_state_metrics st b w3) as [[b'| |] w4]; reflexivity.
Qed.

Lemma collect_gauge_entries (st : state) (gs : list (GaugeVec * (slave -> float))) :
  forall w,
    Forall (fun p => length (variableLabels (gv_desc p.1)) = 4%nat) gs ->
    collect_state_metrics st (map gauge_entry gs) w
    = (Ok (map (fun p => gauge_entry (gauge_after st p, p.2)) gs),
       sent_more (flat_map (fun p => MetricVec_samples (GaugeVecC (gauge_after st p))) gs) w).
Proof.
  induction gs as [|[g value] gs IH]; intros w Hall.
  - simpl. now rewrite sent_more_nil.
  - inversion Hall as [|? ? Hlen Hrest]; subst. cbn [map gauge_entry fst snd collect_state_metrics].
    unfold bind at 1. rewrite set_slave_gauges_returns by exact Hlen.
    unfold bind at 1. cbn [MetricVec_Collect]. unfold bind at 1.
    rewrite GaugeVec_Collect_sent. unfold ret at 1.
    unfold bind at 1. rewrite IH by exact Hrest. unfold ret.
    rewrite sent_more_app. reflexivity.
Qed.

Lemma slave_gauges_table :
  slave_gauges
  = map gauge_entry
      (map (fun t => (gauge "slave" t.1.1 t.1.2 labels, t.2)) slave_gauge_table).
Proof. reflexivity. Qed.

Lemma slave_gauge_table_labels :
  Forall (fun p : GaugeVec * (slave -> float) => length (variableLabels (gv_desc p.1)) = 4%nat)
    (map (fun t => (gauge "slave" t.1.1 t.1.2 labels, t.2)) slave_gauge_table).
Proof. apply Forall_fmap, Forall_forall. intros ? _. reflexivity. Qed.

Lemma newMasterStateCollector_entries (slaveAttributeLabels : list string) :
  master_metrics (newMasterStateCollector slaveAttributeLabels)
  = map gauge_entry new_slave_gauges
    ++ match slaveAttributeLabels with
       | [] => []
       | _ => [attributes_entry slaveAttributeLabels]
       end.
Proof. destruct slaveAttributeLabels; reflexivity. Qed.

Lemma set_slave_attributes_new (slaveAttributeLabels : list string) (slaves : list slave)
    (w : world) :
  (attributes_entry slaveAttributeLabels).2 (mkState slaves)
    (attributes_entry slaveAttributeLabels).1 w
  = if desc_err (attributes_desc slaveAttributeLabels) && bool_decide (slaves <> [])
    then (Panicked, w)
    else (Ok (CounterVecC (mkSettableCounterVec (attributes_desc slaveAttributeLabels)
                             (map (attribute_sample slaveAttributeLabels) slaves))), w).
Proof.
  unfold attributes_entry. cbn [fst snd Slaves].
  set (norm := normaliseLabelList slaveAttributeLabels).
  destruct (desc_err (attributes_desc slaveAttributeLabels)) eqn:Herr; cbn [andb].
  - destruct slaves as [|s rest]; [reflexivity |].
    rewrite bool_decide_eq_true_2 by discriminate.
    cbn [set_slave_attributes]. unfold bind, settableCounterVec_Set, NewConstMetric.
    unfold attributes_desc in Herr. fold norm in Herr. now rewrite Herr.
  - destruct (set_slave_attributes_ok norm (labels ++ norm) slaves
                (counter "slave" "attributes" "Attributes assigned to slaves" (labels ++ norm))
                w Herr eq_refl) as [c' Hrun].
    rewrite Hrun. apply set_slave_attributes_inv in Hrun as (_ & -> & _).
    apply (f_equal (fun x => (Ok (CounterVecC (mkSettableCounterVec _ x)), w))).
    cbn [scv_values counter app]. apply map_ext. intros s. unfold attribute_sample.
    apply (f_equal (Sample _ _ _)). apply attribute_values_of_slave.
    now apply (NewDesc_no_duplicates (BuildFQName "mesos" "slave" "attributes")
                 "Attributes assigned to slaves").
Qed.

(** A scrape of a new state collector whose fetch returned, step by step:
    the gauges, then the attribute metric if there is one. *)
Lemma masterCollector_Collect_new (slaveAttributeLabels : list string)
    (ok : bool) (st : state) (w wa : world) :
  fetchAndDecode body_state "/state" (mkState []) w = (Ok (ok, st), wa) ->
  masterCollector_Collect (newMasterStateCollector slaveAttributeLabels) w
  = match slaveAttributeLabels with
    | [] => (Ok (mkMasterCollector
                   (map (fun p => gauge_entry (gauge_after st p, p.2)) new_slave_gauges)),
             sent_more (slave_gauge_samples st) wa)
    | _ =>
        if desc_err (attributes_desc slaveAttributeLabels)
           && bool_decide (Slaves st <> [])
        then (Panicked, sent_more (slave_gauge_samples st) wa)
        else (Ok (mkMasterCollector
                    (map (fun p => gauge_entry (gauge_after st p, p.2)) new_slave_gauges
                     ++ [((attributes_entry slaveAttributeLabels).1,
                          (attributes_entry slaveAttributeLabels).2)])),
              sent_more (slave_gauge_samples st ++
                         map (attribute_sample slaveAttributeLabels) (Slaves st)) wa)
    end.
Proof.
  intros Hfetch.
  unfold masterCollector_Collect, bind at 1. rewrite Hfetch.
  rewrite newMasterStateCollector_entries. unfold bind at 1.
  rewrite collect_state_metrics_app.
  rewrite collect_gauge_entries by apply slave_gauge_table_labels.
  fold (slave_gauge_samples st).
  destruct slaveAttributeLabels as [|l ls].
  - cbn [collect_state_metrics]. unfold ret. cbv beta iota. now rewrite app_nil_r.
  - set (attrs := l :: ls). cbv beta iota. cbn [collect_state_metrics].
    destruct (attributes_entry attrs) as [c set] eqn:Hentry.
    unfold bind at 1.
    pose proof (set_slave_attributes_new attrs (Slaves st)
                  (sent_more (slave_gauge_samples st) wa)) as Hset.
    rewrite Hentry in Hset. cbn [fst snd] in Hset.
    destruct st as [slaves]. cbn [Slaves] in *. rewrite Hset.
    destruct (desc_err (attributes_desc attrs) && bool_decide (slaves <> [])); [reflexivity |].
    unfold bind at 1. cbn [MetricVec_Collect]. unfold bind at 1.
    rewrite settableCounterVec_Collect_sent. cbn [scv_desc scv_values].
    unfold ret, bind. rewrite sent_more_app.
    assert (c = CounterVecC (mkSettableCounterVec (attributes_desc attrs) [])) as ->
      by (now injection Hentry as <- _).
    reflexivity.
Qed.

(** A scrape of a state collector whose fetch panics panics with it. *)
Lemma masterCollector_Collect_fetch_panics (c : masterCollector) (w wa : world) :
  fetchAndDecode body_state "/state" (mkState []) w = (Panicked, wa) ->
  masterCollector_Collect c w = (Panicked, wa).
Proof. intros Hfetch. unfold masterCollector_Collect, bind. now rewrite Hfetch. Qed.

Lemma slave_gauge_samples_elem_of (st : state) (m : Metric) :
  m ∈ slave_gauge_samples st
  <-> exists name help value lvs s,
        (name, help, value) ∈ slave_gauge_table
        /\ slave_labelled lvs (Slaves st) = Some s
        /\ m = gauge_sample name help (value s) lvs.
Proof.
  unfold slave_gauge_samples, new_slave_gauges.
  rewrite list_elem_of_In, in_flat_map. split.
  - intros (p & Hp & Hm). apply in_map_iff in Hp as ([[name help] value] & <- & Ht).
    apply list_elem_of_In, gauge_samples_elem_of in Hm as (lvs & v & Hlook & ->).
    cbn [gauge_after gv_children fst snd gauge NewGaugeVec] in Hlook.
    rewrite set_children_lookup, lookup_empty in Hlook.
    destruct (slave_labelled lvs (Slaves st)) as [s|] eqn:Hs; [| discriminate].
    injection Hlook as <-. exists name, help, value, lvs, s.
    split; [now apply list_elem_of_In | split; [exact Hs | reflexivity]].
  - intros (name & help & value & lvs & s & Ht & Hs & ->).
    exists (gauge "slave" name help labels, value). split.
    + apply in_map_iff. exists (name, help, value). split; [reflexivity |].
      now apply list_elem_of_In.
    + apply list_elem_of_In, gauge_samples_elem_of. exists lvs, (value s). split; [| reflexivity].
      cbn [gauge_after gv_children fst snd gauge NewGaugeVec].
      now rewrite set_children_lookup, Hs.
Qed.

Lemma slave_gauge_samples_length (st : state) :
  NoDup (map slave_label_values (Slaves st)) ->
  length (slave_gauge_samples st) = (12 * length (Slaves st))%nat.
Proof.
  intros Hnd. unfold slave_gauge_samples.
  assert (forall gs : list (GaugeVec * (slave -> float)),
             Forall (fun p => gv_children p.1 = ∅) gs ->
             length (flat_map (fun p => MetricVec_samples (GaugeVecC (gauge_after st p))) gs)
             = (length gs * length (Slaves st))%nat) as Hlen.
  { induction 1 as [|[g value] gs Hg _ IH]; [reflexivity |].
    cbn [flat_map]. rewrite length_app, IH.
    cbn [MetricVec_samples gauge_after fst snd gv_children gv_desc length] in Hg |- *.
    rewrite length_map, length_map_to_list, Hg.
    rewrite set_children_size by exact Hnd. lia. }
  rewrite Hlen; [reflexivity |].
  apply Forall_fmap, Forall_forall. intros ? _. reflexivity.
Qed.

Lemma slave_gauge_samples_described (st : state) (descs : list Desc) (m : Metric) :
  (forall name help value, (name, help, value) ∈ slave_gauge_table ->
                           gv_desc (gauge "slave" name help labels) ∈ descs) ->
  m ∈ slave_gauge_samples st -> described descs m.
Proof.
  intros Hdescs (name & help & value & lvs & s & Ht & Hs & ->)%slave_gauge_samples_elem_of.
  apply slave_labelled_Some in Hs as [_ <-].
  exists (gv_desc (gauge "slave" name help labels)), GaugeValue, (value s),
    (slave_label_values s).
  split; [reflexivity |]. split; [now apply (Hdescs name help value) | reflexivity].
Qed.

Lemma Ok_inj {A : Type} (a b : A) : Ok a = Ok b -> a = b.
Proof. congruence. Qed.

Lemma masterCollector_Describe_new (slaveAttributeLabels : list string) :
  masterCollector_Describe (newMasterStateCollector slaveAttributeLabels)
  = map (fun t => gv_desc (gauge "slave" t.1.1 t.1.2 labels)) slave_gauge_table
    ++ match slaveAttributeLabels with
       | [] => []
       | _ => [attributes_desc slaveAttributeLabels]
       end.
Proof. destruct slaveAttributeLabels; reflexivity. Qed.

(** ** The version collector and the grouped collector, further *)

Lemma Collect_members (Sprintf_f : float -> string) (cs : list Collector) (w : world) :
  Collect Sprintf_f (GroupedCollector cs) w
  = (cs' <- collect_members Sprintf_f cs ;; ret (GroupedCollector cs')) w.
Proof.
  cbn [Collect].
  match goal with
  | |- bind (?F cs) _ w = _ => set (inner := F)
  end.
  assert (forall l w', inner l w' = collect_members Sprintf_f l w') as Hsame.
  { induction l as [|c l IH]; intros w'; [reflexivity |].
    transitivity (bind (Collect Sprintf_f c)
                    (fun c' => bind (inner l) (fun rest' => ret (c' :: rest'))) w');
      [reflexivity |].
    cbn [collect_members]. unfold bind.
    destruct (Collect Sprintf_f c w') as [[c'| |] w1]; try reflexivity.
    now rewrite IH. }
  unfold bind. now rewrite Hsame.
Qed.

Lemma collect_members_app (Sprintf_f : float -> string) (a b : list Collector) :
  forall w,
    collect_members Sprintf_f (a ++ b) w
    = match collect_members Sprintf_f a w with
      | (Ok a', w1) =>
          match collect_members Sprintf_f b w1 with
          | (Ok b', w2) => (Ok (a' ++ b'), w2)
          | (Blocked, w2) => (Blocked, w2)
          | (Panicked, w2) => (Panicked, w2)
          end
      | (Blocked, w1) => (Blocked, w1)
      | (Panicked, w1) => (Panicked, w1)
      end.
Proof.
  induction a as [|c a IH]; intros w; cbn [app collect_members].
  - unfold ret. destruct (collect_members Sprintf_f b w) as [[b'| |] w2]; reflexivity.
  - unfold bind, ret. destruct (Collect Sprintf_f c w) as [[c'| |] w1]; try reflexivity.
    rewrite IH.
    destruct (collect_members Sprintf_f a w1) as [[a'| |] w2]; try reflexivity.
    destruct (collect_members Sprintf_f b w2) as [[b'| |] w3]; reflexivity.
Qed.

Lemma Describe_members (cs : list Collector) :
  Describe (GroupedCollector cs) = flat_map Describe cs.
Proof.
  cbn [Describe]. induction cs as [|c cs IH]; [reflexivity |].
  cbn [flat_map]. now rewrite <- IH.
Qed.

(** * The properties *)

(** ** The range codec *)

Module RangeCodec.

(** C6. [size] of a range set is the sum over its intervals of [hi - lo + 1]
    in arithmetic modulo 2^64. The text [a-b,c-d] of four 64-bit numbers
    decodes to a set whose size is [(b-a+1)+(d-c+1)] modulo 2^64, and is that
    number itself when both intervals have [lo <= hi] and the sum fits 64 bits;
    [0-100,200-200] decodes to size 102, and [5-3] to 2^64-1, the value of
    [1 + (3 - 5)] under the wrap-around. *)
Theorem size_is_inclusive_sum_mod_2_64 :
  (forall rs : ranges, ranges_size rs = sum_sizes rs mod 2 ^ 64)
  /\ (forall a b c d : Z,
        0 <= a <= maxUint64 -> 0 <= b <= maxUint64 ->
        0 <= c <= maxUint64 -> 0 <= d <= maxUint64 ->
        exists rs,
          ranges_UnmarshalJSON [] (range_text a b c d) = (rs, None)
          /\ ranges_size rs = ((b - a + 1) + (d - c + 1)) mod 2 ^ 64
          /\ (a <= b -> c <= d -> (b - a + 1) + (d - c + 1) <= maxUint64 ->
              ranges_size rs = (b - a + 1) + (d - c + 1)))
  /\ (exists rs, ranges_UnmarshalJSON [] "0-100,200-200" = (rs, None)
                 /\ ranges_size rs = 102)
  /\ (exists rs, ranges_UnmarshalJSON [] "5-3" = (rs, None)
                 /\ ranges_size rs = (1 + (3 - 5)) mod 2 ^ 64
                 /\ ranges_size rs = 18446744073709551615).
Proof.
  split; [exact ranges_size_sum |]. split; [| split].
  - intros a b c d Ha Hb Hc Hd. exists [(a, b); (c, d)].
    split; [exact (UnmarshalJSON_range_text [] a b c d Ha Hb Hc Hd) |].
    assert (ranges_size [(a, b); (c, d)] = ((b - a + 1) + (d - c + 1)) mod 2 ^ 64) as Hsz.
    { rewrite ranges_size_sum. unfold sum_sizes. simpl. f_equal. lia. }
    split; [exact Hsz |].
    intros Hab Hcd Hfit. rewrite Hsz. apply Z.mod_small. unfold maxUint64 in Hfit. lia.
  - exists [(0, 100); (200, 200)]. split; vm_compute; reflexivity.
  - exists [(5, 3)]. repeat split; vm_compute; reflexivity.
Qed.

Lemma size_is_inclusive_sum_mod_2_64_witness :
  exists rs, ranges_UnmarshalJSON [] (range_text 0 100 200 200) = (rs, None)
             /\ ranges_size rs = 102.
Proof.
  destruct (proj1 (proj2 size_is_inclusive_sum_mod_2_64) 0 100 200 200)
    as (rs & Hdec & _ & Hsize); try (unfold maxUint64; lia).
  exists rs. split; [exact Hdec |].
  rewrite Hsize; unfold maxUint64; lia.
Defined.

(** C3, as the code has it. When a segment of the input is malformed,
    decoding returns an error; the pairs of the segments before the first one
    that fails have been appended to the target by then, and nothing else is
    changed. So the target is unchanged when no segment is decoded before the
    failure, as when the malformed segment is the first. *)
Theorem UnmarshalJSON_malformed_keeps_decoded_prefix
    (rs : ranges) (data : string) (before : list string) (bad : string)
    (after : list string) :
  segments data = before ++ bad :: after ->
  malformed bad ->
  (exists e decoded,
      ranges_UnmarshalJSON rs data = (rs ++ decoded, Some e)
      /\ Forall2 segment_denotes (take (length decoded) before) decoded)
  /\ (forall pairs, Forall2 segment_denotes before pairs ->
        exists e, ranges_UnmarshalJSON rs data = (rs ++ pairs, Some e))
  /\ (before = [] -> exists e, ranges_UnmarshalJSON rs data = (rs, Some e)).
Proof.
  intros Hsegs Hbad. rewrite UnmarshalJSON_segments, Hsegs.
  assert (forall pairs, Forall2 segment_denotes before pairs ->
            exists e, unmarshal_segments (before ++ bad :: after) rs = (rs ++ pairs, Some e))
    as Hpairs.
  { intros pairs Hden. rewrite (unmarshal_segments_denoted _ _ Hden).
    exact (unmarshal_segments_malformed bad after (rs ++ pairs) Hbad). }
  split; [exact (unmarshal_segments_fails before bad after rs Hbad) |].
  split; [exact Hpairs |].
  intros ->. destruct (Hpairs [] ltac:(constructor)) as [e He].
  exists e. now rewrite app_nil_r in He.
Qed.

Lemma UnmarshalJSON_malformed_keeps_decoded_prefix_witness :
  exists e, ranges_UnmarshalJSON [(7, 9)] "[1-2,x,5-6]" = ([(7, 9); (1, 2)], Some e).
Proof.
  refine (proj1 (proj2 (UnmarshalJSON_malformed_keeps_decoded_prefix
            [(7, 9)] "[1-2,x,5-6]" ["1-2"] "x" ["5-6"] _ _)) [(1, 2)] _).
  - reflexivity.
  - left. reflexivity.
  - repeat constructor. exists "1", "2". repeat split; reflexivity.
Defined.

(** C3 as stated fails: the segment ["x"] has no separator, decoding
    ["1-2,x"] into an empty set returns an error, and the set holds [(1, 2)]. *)
Lemma UnmarshalJSON_partial_result :
  segments "1-2,x" = ["1-2"; "x"]
  /\ malformed "x"
  /\ ranges_UnmarshalJSON [] "1-2,x" = ([(1, 2)], Some (ErrBadRange "x"))
  /\ fst (ranges_UnmarshalJSON [] "1-2,x") <> [].
Proof.
  split; [reflexivity |]. split; [left; reflexivity |].
  split; [reflexivity | discriminate].
Qed.

(** X5. [UnmarshalJSON] returns no error exactly when every segment of the
    input is of the form [lo-hi] with, white space apart, the decimal digits
    of two numbers below 2^64 around its first [-]; the target is then the
    target from before followed by the pairs of these numbers, in the order
    of the segments. *)
Theorem UnmarshalJSON_succeeds_iff_segments_read (rs rs' : ranges) (data : string) :
  ranges_UnmarshalJSON rs data = (rs', None) <->
  exists pairs, Forall2 segment_reads (segments data) pairs /\ rs' = rs ++ pairs.
Proof.
  rewrite UnmarshalJSON_segments, unmarshal_segments_succeeds.
  split; intros (pairs & Hall & ->); exists pairs; (split; [| reflexivity]).
  - eapply Forall2_impl; [exact Hall |]. intros r p. apply segment_denotes_reads.
  - eapply Forall2_impl; [exact Hall |]. intros r p. apply segment_denotes_reads.
Qed.

(** X6. Whether it fails or not, [UnmarshalJSON] only appends: the target
    from before is a prefix of the target it leaves, what follows it are
    pairs read from the first segments of the input, and every bound of them
    is a [uint64]. Decoding into a target that is not empty does not reset it. *)
Theorem UnmarshalJSON_only_appends (rs : ranges) (data : string) :
  exists added,
    fst (ranges_UnmarshalJSON rs data) = rs ++ added
    /\ Forall2 segment_reads (take (length added) (segments data)) added
    /\ in_uint64 added.
Proof.
  rewrite UnmarshalJSON_segments.
  destruct (unmarshal_segments_appends (segments data) rs) as (added & Hfst & Hall).
  assert (Forall2 segment_reads (take (length added) (segments data)) added) as Hreads.
  { eapply Forall2_impl; [exact Hall |]. intros r p. apply segment_denotes_reads. }
  exists added. split; [exact Hfst |]. split; [exact Hreads |].
  clear Hfst Hall. induction Hreads as [|r p l l' (p0 & p1 & _ & _ & _ & _ & _ & H0 & H1) _ IH].
  - constructor.
  - constructor; [split; assumption | exact IH].
Qed.

(** X7. A field that holds nothing but brackets and quotes (the empty text,
    an empty list, an empty JSON string) decodes to no range: there is no
    error and the target is as before. *)
Theorem UnmarshalJSON_empty_field_adds_nothing (rs : ranges) (data : string) :
  all_bytes (fun c => mem_byte c range_cutset) data = true ->
  ranges_UnmarshalJSON rs data = (rs, None).
Proof.
  intros H. now rewrite UnmarshalJSON_segments, (segments_empty_field _ H).
Qed.

Lemma UnmarshalJSON_empty_field_adds_nothing_witness :
  ranges_UnmarshalJSON [(1, 2)] (String dquote ("[]" +:+ String dquote "")) = ([(1, 2)], None).
Proof. apply UnmarshalJSON_empty_field_adds_nothing. reflexivity. Defined.

(** X8. Round trip. The text of any list of intervals of [uint64] bounds,
    written as a JSON string with the intervals in brackets and separated by
    a comma and a space, decodes without error to the target from before
    followed by exactly these intervals. *)
Theorem UnmarshalJSON_reads_back_ranges_text (rs : ranges) (pairs : list (Z * Z)) :
  in_uint64 pairs ->
  ranges_UnmarshalJSON rs (ranges_text pairs) = (rs ++ pairs, None).
Proof.
  intros Hall. destruct pairs as [|[a b] rest].
  - rewrite app_nil_r, UnmarshalJSON_segments, segments_empty_field; reflexivity.
  - rewrite UnmarshalJSON_segments, segments_ranges_text by exact Hall.
    apply unmarshal_segments_succeeds. exists ((a, b) :: rest). split; [| reflexivity].
    apply Forall_cons in Hall as [[Ha Hb] Hrest]. simpl in Ha, Hb.
    constructor; [now apply interval_text_denotes |].
    clear Ha Hb. induction Hrest as [|[c d] rest [Hc Hd] _ IH]; simpl; constructor.
    + now apply spaced_interval_denotes.
    + exact IH.
Qed.

Lemma UnmarshalJSON_reads_back_ranges_text_witness :
  ranges_UnmarshalJSON [] (ranges_text [(31000, 32000); (8080, 8080); (0, 18446744073709551615)])
  = ([(31000, 32000); (8080, 8080); (0, 18446744073709551615)], None).
Proof.
  apply (UnmarshalJSON_reads_back_ranges_text []).
  repeat constructor; simpl; unfold maxUint64; lia.
Defined.

(** X9. [size] stays below 2^64, is zero for the empty set, and the size of
    two sets one after the other is the sum of their sizes modulo 2^64. When
    every interval has [lo <= hi] and the sum of the interval sizes fits 64
    bits, [size] is that sum, without wrap-around. *)
Theorem ranges_size_composes (a b : ranges) :
  0 <= ranges_size a < 2 ^ 64
  /\ ranges_size [] = 0
  /\ ranges_size (a ++ b) = (ranges_size a + ranges_size b) mod 2 ^ 64
  /\ (Forall (fun p => p.1 <= p.2) a -> sum_sizes a < 2 ^ 64 ->
      ranges_size a = sum_sizes a).
Proof.
  split; [| split; [reflexivity | split]].
  - rewrite ranges_size_sum. apply Z.mod_pos_bound. lia.
  - rewrite !ranges_size_sum, sum_sizes_app.
    now rewrite <- Z.add_mod by lia.
  - intros Hord Hfit. rewrite ranges_size_sum. apply Z.mod_small.
    split; [| exact Hfit]. clear Hfit.
    induction Hord as [|[lo hi] rest Hp _ IH]; unfold sum_sizes in *; simpl in *; lia.
Qed.

Lemma ranges_size_composes_witness :
  ranges_size [(31000, 32000); (8080, 8080)] = sum_sizes [(31000, 32000); (8080, 8080)].
Proof.
  apply (proj2 (proj2 (proj2 (ranges_size_composes [(31000, 32000); (8080, 8080)] [])))).
  - repeat constructor; simpl; lia.
  - vm_compute. reflexivity.
Defined.

End RangeCodec.

(** ** The settable counters *)

Module MetricCache.

(** C5. Whatever the buffer of a dynamic-label counter holds, and whatever
    calls of [Set] follow (all of them returning), a drain sends the buffered
    samples followed by one sample per [Set], each once and in order, and
    empties the buffer; a second drain right after it sends nothing. *)
Theorem settableCounterVec_drains_each_sample_once
    (c c1 : settableCounterVec) (sets : list (float * list string)) (w w1 : world) :
  set_each c sets w = (Ok c1, w1) ->
  let samples := map (fun s => Sample (scv_desc c) CounterValue s.1 s.2) sets in
  exists c2,
    scv_values c1 = scv_values c ++ samples
    /\ length samples = length sets
    /\ settableCounterVec_Collect c1 w1 = (Ok c2, sent_more (scv_values c ++ samples) w)
    /\ scv_values c2 = []
    /\ settableCounterVec_Collect c2 (sent_more (scv_values c ++ samples) w)
       = (Ok c2, sent_more (scv_values c ++ samples) w).
Proof.
  intros Hsets samples. apply set_each_inv in Hsets as (-> & Hd & Hv).
  exists (mkSettableCounterVec (scv_desc c1) []).
  split; [exact Hv |]. split; [apply length_map |].
  rewrite !settableCounterVec_Collect_sent, Hv. simpl.
  rewrite sent_more_nil. auto.
Qed.

Lemma settableCounterVec_drains_each_sample_once_witness :
  exists c1 c2,
    set_each attributes_counter two_sets idle_world = (Ok c1, idle_world)
    /\ length (scv_values c1) = 2%nat
    /\ settableCounterVec_Collect c1 idle_world = (Ok c2, sent_more (scv_values c1) idle_world)
    /\ scv_values c2 = []
    /\ settableCounterVec_Collect c2 (sent_more (scv_values c1) idle_world)
       = (Ok c2, sent_more (scv_values c1) idle_world).
Proof.
  pose proof (settableCounterVec_drains_each_sample_once attributes_counter _
                two_sets idle_world idle_world eq_refl) as H.
  cbv zeta in H. destruct H as (c2 & Hvalues & _ & Hdrain & Hempty & Hagain).
  eexists _, c2. split; [reflexivity |].
  rewrite Hvalues. split; [reflexivity |]. auto.
Defined.

(** C10. A drain of a single-value counter on which [Set] was never called
    logs the warning [NIL value] and still sends the nil metric on the output
    channel, and the counter is as before: however many drains come before
    the first [Set], each of them logs the warning and sends a nil metric. *)
Theorem settableCounter_Collect_unset_sends_nil
    (subsystem name help : string) (n : nat) (w : world) :
  settableCounter_Collect (newSettableCounter subsystem name help) w
  = (Ok (newSettableCounter subsystem name help),
     sent_more [NilMetric] (logged_more nil_value_warning w))
  /\ drain_times n (newSettableCounter subsystem name help) w
     = (Ok (newSettableCounter subsystem name help),
        mkWorld (errorCounter w) (logged w ++ repeat nil_value_warning n)
          (sent w ++ repeat NilMetric n) (http w) (requests w) (network w)).
Proof.
  split; [reflexivity |].
  revert w. induction n as [|n IH]; intros w.
  - simpl. unfold ret. rewrite !app_nil_r. now destruct w.
  - cbn [drain_times]. unfold bind.
    change (settableCounter_Collect (newSettableCounter subsystem name help) w)
      with (Ok (newSettableCounter subsystem name help),
            sent_more [NilMetric] (logged_more nil_value_warning w)).
    cbv beta iota. rewrite IH. unfold sent_more, logged_more. simpl.
    now rewrite <- !app_assoc.
Qed.

(** C4, as the code has it. The single-value counter keeps one value, which
    [Set] overwrites and a drain does not clear: after a [Set], every drain
    sends the stored sample and leaves the counter as it is, so a second
    drain without a [Set] in between sends the same sample once more. *)
Theorem settableCounter_drain_keeps_value
    (c c1 : settableCounter) (value : float) (w w1 : world) :
  settableCounter_Set c value w = (Ok c1, w1) ->
  sc_value c1 = Sample (sc_desc c) CounterValue value []
  /\ settableCounter_Collect c1 w1 = (Ok c1, sent_more [sc_value c1] w)
  /\ settableCounter_Collect c1 (sent_more [sc_value c1] w)
     = (Ok c1, sent_more [sc_value c1; sc_value c1] w).
Proof.
  unfold settableCounter_Set, NewConstMetric.
  destruct (desc_err (sc_desc c)); [discriminate |].
  destruct (variableLabels (sc_desc c)); [| discriminate].
  simpl. intros [= <- <-]. simpl.
  split; [reflexivity |].
  unfold settableCounter_Collect, bind, send, ret, sent_more. simpl.
  rewrite <- app_assoc. split; reflexivity.
Qed.

Lemma settableCounter_drain_keeps_value_witness :
  exists c1,
    settableCounter_Set uptime_counter 5%float idle_world = (Ok c1, idle_world)
    /\ sc_value c1 = Sample (sc_desc uptime_counter) CounterValue 5%float []
    /\ settableCounter_Collect c1 (sent_more [sc_value c1] idle_world)
       = (Ok c1, sent_more [sc_value c1; sc_value c1] idle_world).
Proof.
  pose proof (settableCounter_drain_keeps_value uptime_counter _ 5%float idle_world idle_world
                eq_refl) as (Hvalue & _ & Hagain).
  eexists. split; [reflexivity |]. split; [exact Hvalue | exact Hagain].
Defined.

(** C4 as stated fails: after [Set 5] and one drain, a second drain
    with no [Set] in between sends one sample, the one of the first drain. *)
Lemma settableCounter_second_drain_resends :
  sent (snd ((c1 <- settableCounter_Set uptime_counter 5%float ;;
              c2 <- settableCounter_Collect c1 ;;
              settableCounter_Collect c2) idle_world))
  = [Sample (sc_desc uptime_counter) CounterValue 5%float [];
     Sample (sc_desc uptime_counter) CounterValue 5%float []]
  /\ sent (snd ((c1 <- settableCounter_Set uptime_counter 5%float ;;
                 settableCounter_Collect c1) idle_world))
     = [Sample (sc_desc uptime_counter) CounterValue 5%float []].
Proof. split; reflexivity. Qed.

End MetricCache.

(** ** Label names *)

Module Labels.

(** X3. [normaliseLabel] turns every non-empty text into a label name of
    the form the metrics library asks for: the first character is an ASCII
    letter or an underscore and every other one an ASCII letter, a digit or an
    underscore. The empty text stays empty. The result is never longer than
    the text, and as long as the text when it is made of ASCII bytes: each
    byte is kept or replaced by one underscore. *)
Theorem normaliseLabel_gives_label_name (label : string) :
  (label <> "" -> valid_name false (normaliseLabel label) = true)
  /\ (label = "" -> normaliseLabel label = "")
  /\ (String.length (normaliseLabel label) <= String.length label)%nat
  /\ (all_bytes is_ascii label = true ->
      String.length (normaliseLabel label) = String.length label).
Proof.
  split; [| split; [| split]].
  - destruct label as [|c r]; [congruence |]. intros _. apply normaliseLabel_valid_name.
  - now intros ->.
  - apply normalise_from_length.
  - apply normalise_from_ascii_length.
Qed.

Lemma normaliseLabel_gives_label_name_witness :
  valid_name false (normaliseLabel "foo.bar-1") = true
  /\ String.length (normaliseLabel "foo.bar-1") = 9%nat.
Proof.
  destruct (normaliseLabel_gives_label_name "foo.bar-1") as (Hvalid & _ & _ & Hlen).
  split; [apply Hvalid; discriminate | apply Hlen; reflexivity].
Defined.

(** X4. A text that already is a label name is left as it is, so
    normalising twice gives what normalising once gives. *)
Theorem normaliseLabel_idempotent (label : string) :
  (valid_name false label = true -> normaliseLabel label = label)
  /\ normaliseLabel (normaliseLabel label) = normaliseLabel label.
Proof.
  assert (forall s, valid_name false s = true -> normaliseLabel s = s) as Hfix.
  { intros [|c r]; [discriminate |]. unfold valid_name, normaliseLabel.
    cbn [normalise_from negb andb]. rewrite !orb_false_r.
    intros [Hc Hr]%andb_true_iff. rewrite Hc.
    rewrite normalise_from_fixes_words; [reflexivity |].
    apply (all_bytes_impl (fun ch => is_word ch || false && (byte_val ch =? 58))); [| exact Hr].
    intros ch. now rewrite orb_false_r. }
  split; [apply Hfix |].
  destruct label as [|c r]; [reflexivity |].
  apply Hfix. apply normaliseLabel_valid_name.
Qed.

Lemma normaliseLabel_idempotent_witness :
  normaliseLabel "rack_1" = "rack_1".
Proof. apply (proj1 (normaliseLabel_idempotent "rack_1")). reflexivity. Defined.

End Labels.

(** ** Attribute labels *)

Module Attributes.

(** C8. The attribute metric of the state collector, after its function ran
    over a decoded state and it was collected, has sent one sample per slave;
    the sample of a slave carries one label value per label name of the
    descriptor, in the order of the names: the slave's PID and three empty
    values for the identity labels, then, for each configured label in the
    configured order, the accepted value of the slave's attribute of that
    name. A label with no attribute of its name on the slave, or only
    rejected ones, carries the empty string. *)
Theorem attribute_sample_has_one_value_per_label
    (slaveAttributeLabels : list string) (st : state) (c c2 : MetricVec) (set : setter)
    (w w2 : world) :
  (c, set) ∈ master_metrics (newMasterStateCollector slaveAttributeLabels) ->
  (forall g, c <> GaugeVecC g) ->
  (c1 <- set st c ;; MetricVec_Collect c1) w = (Ok c2, w2) ->
  let norm := normaliseLabelList slaveAttributeLabels in
  exists desc,
    variableLabels desc = labels ++ norm
    /\ w2 = sent_more
              (map (fun s => Sample desc CounterValue 1%float (attribute_label_values norm s))
                 (Slaves st)) w
    /\ (forall s, length (attribute_label_values norm s) = length (variableLabels desc))
    /\ (forall s i label, norm !! i = Some label ->
          attribute_label_values norm s !! (4 + i)%nat
          = Some (label_value label (Attributes s) ""))
    /\ (forall s label,
          (forall key raw, (key, raw) ∈ Attributes s -> normaliseLabel key = label ->
                           snd (attributeString raw) <> None) ->
          label_value label (Attributes s) "" = "").
Proof.
  intros Hin Hnot Hrun norm.
  unfold newMasterStateCollector in Hin. cbn [master_metrics] in Hin.
  apply elem_of_app in Hin as [Hin | Hin].
  { apply slave_gauges_are_gauges in Hin as [g ->]. now destruct (Hnot g). }
  destruct (0 <? length slaveAttributeLabels)%nat; [| inversion Hin].
  apply list_elem_of_singleton in Hin. injection Hin as -> ->.
  set (desc := NewDesc (BuildFQName "mesos" "slave" "attributes")
                 "Attributes assigned to slaves" (labels ++ norm)).
  change ((c1 <- set_slave_attributes norm (labels ++ norm) (Slaves st)
                   (CounterVecC (mkSettableCounterVec desc [])) ;;
           MetricVec_Collect c1) w = (Ok c2, w2)) in Hrun.
  exists desc. split; [reflexivity |].
  unfold bind in Hrun.
  destruct (set_slave_attributes _ _ _ _ w) as [[c1| |] w1] eqn:Hset; try discriminate.
  apply set_slave_attributes_inv in Hset as (-> & -> & Hok).
  simpl in Hrun. unfold bind in Hrun.
  rewrite settableCounterVec_Collect_sent in Hrun. simpl in Hrun.
  injection Hrun as _ <-.
  split; [| split; [| split]].
  - f_equal. destruct (Slaves st) as [|s0 rest] eqn:Hslaves; [reflexivity |].
    apply map_ext. intros s. f_equal. apply attribute_values_of_slave.
    apply (NewDesc_no_duplicates (BuildFQName "mesos" "slave" "attributes")
             "Attributes assigned to slaves"). now apply Hok.
  - intros s. unfold attribute_label_values, desc, labels. cbn [variableLabels NewDesc].
    now rewrite !length_app, !length_map.
  - intros s i label Hi. unfold attribute_label_values.
    rewrite lookup_app_r by (simpl; lia).
    replace (4 + i - length [PID s; ""; ""; ""])%nat with i by (simpl; lia).
    now rewrite list_lookup_fmap, Hi.
  - intros s label Hrej. now apply label_value_rejected.
Qed.

Lemma attribute_sample_has_one_value_per_label_witness :
  exists desc,
    variableLabels desc = ["slave"; "hostname"; "port"; "id"; "rack"]
    /\ sent (snd ((c1 <- rack_metric.2 rack_state rack_metric.1 ;; MetricVec_Collect c1)
                    idle_world))
       = [Sample desc CounterValue 1%float ["slave(1)@10.0.0.1:5051"; ""; ""; ""; "3"]].
Proof.
  assert ((rack_metric.1, rack_metric.2)
          ∈ master_metrics (newMasterStateCollector ["rack"])) as Hin.
  { unfold newMasterStateCollector. cbn [master_metrics].
    apply elem_of_app. right. apply list_elem_of_here. }
  assert (forall g, rack_metric.1 <> GaugeVecC g) as Hnot by (intros g; discriminate).
  assert ((c1 <- rack_metric.2 rack_state rack_metric.1 ;; MetricVec_Collect c1) idle_world
          = (Ok (CounterVecC (counter "slave" "attributes" "Attributes assigned to slaves"
                                (labels ++ normaliseLabelList ["rack"]))),
             snd ((c1 <- rack_metric.2 rack_state rack_metric.1 ;; MetricVec_Collect c1)
                    idle_world))) as Hrun by reflexivity.
  destruct (attribute_sample_has_one_value_per_label ["rack"] rack_state
              _ _ _ _ _ Hin Hnot Hrun) as (desc & Hlabels & Hworld & _).
  exists desc. split; [exact Hlabels |].
  rewrite Hworld. reflexivity.
Defined.

(** C7, as the code has it. [attributeString] strips the wrapping quotes and
    keeps the value exactly when every character of it is an ASCII letter, a
    digit, an underscore, [-], [/] or [.]; otherwise it returns
    [errDropAttribute]. When every attribute of a node whose normalised key is
    a configured label is rejected, the label is empty in the map built for
    the node. The attribute function buffers one sample for every node,
    whatever its attributes are, after the samples it held: the sample of a
    node carries the values read from the map built for the node. *)
Theorem attributeString_keeps_text_values :
  (forall attribute : string,
      let value := Trim attribute (String dquote "") in
      (Forall text_char (list_ascii_of_string value) ->
       attributeString attribute = (value, None))
      /\ (~ Forall text_char (list_ascii_of_string value) ->
          attributeString attribute = ("", Some errDropAttribute)))
  /\ (forall (norm : list string) (s : slave) (label : string),
        stringInSlice label norm = true ->
        (forall key raw, (key, raw) ∈ Attributes s -> normaliseLabel key = label ->
                         snd (attributeString raw) <> None) ->
        Labels_get (slaveAttributesExport norm s) label = "")
  /\ (forall (norm exp : list string) (v : settableCounterVec) (slaves : list slave)
             (w : world),
        desc_err (scv_desc v) = false ->
        length exp = length (variableLabels (scv_desc v)) ->
        set_slave_attributes norm exp slaves (CounterVecC v) w
        = (Ok (CounterVecC
                 (mkSettableCounterVec (scv_desc v)
                    (scv_values v
                     ++ map (fun s => Sample (scv_desc v) CounterValue 1%float
                                        (getLabelValuesFromMap
                                           (slaveAttributesExport norm s) exp))
                          slaves))), w)).
Proof.
  split; [| split].
  - intros attribute value. unfold attributeString. fold value.
    rewrite <- text_MatchString_chars.
    destruct (text_MatchString value); split; intros H; congruence.
  - intros norm s label Hin Hrej.
    rewrite slaveAttributesExport_configured by exact Hin.
    now apply label_value_rejected.
  - intros norm exp v slaves w Hdesc Hlen.
    destruct (set_slave_attributes_ok norm exp slaves v w Hdesc Hlen) as [c' Hrun].
    rewrite Hrun. now apply set_slave_attributes_inv in Hrun as (_ & -> & _).
Qed.

Lemma attributeString_keeps_text_values_witness :
  attributeString (String dquote ("abc/def.gh" +:+ String dquote "")) = ("abc/def.gh", None)
  /\ attributeString (String dquote ("a b" +:+ String dquote "")) = ("", Some errDropAttribute)
  /\ set_slave_attributes ["rack"] ["slave"; "rack"] [spaced_slave]
       (CounterVecC attributes_counter) idle_world
     = (Ok (CounterVecC
              (mkSettableCounterVec (scv_desc attributes_counter)
                 [Sample (scv_desc attributes_counter) CounterValue 1%float
                    ["slave(2)@10.0.0.2:5051"; ""]])), idle_world).
Proof.
  split; [| split].
  - apply (proj1 (proj1 attributeString_keeps_text_values
                    (String dquote ("abc/def.gh" +:+ String dquote "")))).
    apply text_MatchString_chars. reflexivity.
  - apply (proj2 (proj1 attributeString_keeps_text_values
                    (String dquote ("a b" +:+ String dquote "")))).
    rewrite <- text_MatchString_chars. discriminate.
  - apply (proj2 (proj2 attributeString_keeps_text_values) ["rack"] ["slave"; "rack"]
             attributes_counter [spaced_slave] idle_world); reflexivity.
Defined.

(** C7 as stated fails: [-] is none of the word characters, [/] and
    [.], and the value [a-b] is kept. *)
Lemma attributeString_keeps_hyphen :
  attributeString (String dquote ("a-b" +:+ String dquote "")) = ("a-b", None)
  /\ ~ Forall spec_char (list_ascii_of_string "a-b").
Proof.
  split; [reflexivity |].
  intros H. inversion H as [|c l _ Hrest]. inversion Hrest as [|c' l' Hc _].
  unfold spec_char in Hc. rewrite !(char_eq_val "-") in Hc. vm_compute in Hc.
  intuition congruence.
Qed.

(** X10. The map the attribute function builds for a node has exactly the
    keys [slave] and the configured (normalised) labels: an attribute whose
    normalised key is not configured leaves no trace. The key [slave] holds
    the PID of the node unless [slave] is itself a configured label, and a
    configured label holds the accepted value of the last attribute with its
    name, or the empty text. *)
Theorem slaveAttributesExport_keys (norm : list string) (s : slave) :
  dom (slaveAttributesExport norm s) = {["slave"]} ∪ list_to_set norm
  /\ (stringInSlice "slave" norm = false ->
      slaveAttributesExport norm s !! "slave" = Some (PID s))
  /\ (forall label, stringInSlice label norm = true ->
        slaveAttributesExport norm s !! label = Some (label_value label (Attributes s) "")).
Proof.
  assert (dom (slaveAttributesExport norm s) = {["slave"]} ∪ list_to_set norm) as Hdom.
  { unfold slaveAttributesExport. rewrite export_attributes_dom.
    - rewrite blank_labels_dom, dom_singleton_L. reflexivity.
    - rewrite blank_labels_dom. set_solver. }
  assert (forall label, label ∈ dom (slaveAttributesExport norm s) ->
            slaveAttributesExport norm s !! label
            = Some (Labels_get (slaveAttributesExport norm s) label)) as Hget.
  { intros label [v Hv]%elem_of_dom. unfold Labels_get. now rewrite Hv. }
  split; [exact Hdom |]. split.
  - intros Hout. rewrite Hget by (rewrite Hdom; set_solver).
    now rewrite (slaveAttributesExport_other norm s "slave" Hout).
  - intros label Hin. rewrite Hget.
    + now rewrite (slaveAttributesExport_configured norm s label Hin).
    + rewrite Hdom. apply stringInSlice_elem_of in Hin.
      apply elem_of_union_r. now apply elem_of_list_to_set.
Qed.

Lemma slaveAttributesExport_keys_witness :
  slaveAttributesExport ["rack"] rack_slave !! "slave" = Some "slave(1)@10.0.0.1:5051"
  /\ slaveAttributesExport ["rack"] rack_slave !! "rack" = Some "3"
  /\ slaveAttributesExport ["rack"] rack_slave !! "zone" = None.
Proof.
  destruct (slaveAttributesExport_keys ["rack"] rack_slave) as (Hdom & Hslave & Hlabel).
  split; [apply Hslave; reflexivity |]. split; [apply (Hlabel "rack"); reflexivity |].
  apply not_elem_of_dom. rewrite Hdom. set_solver.
Defined.

(** X11. Go ranges over the attributes of a node in no fixed order. When no
    two attribute keys of the node normalise to the same label, the map built
    for the node, and with it the label values of its sample, are the same
    for every order. *)
Theorem slaveAttributesExport_order_independent (norm : list string) (s s' : slave) :
  PID s' = PID s ->
  Attributes s' ≡ₚ Attributes s ->
  NoDup (normalised_keys (Attributes s)) ->
  slaveAttributesExport norm s' = slaveAttributesExport norm s
  /\ forall keys, getLabelValuesFromMap (slaveAttributesExport norm s') keys
                  = getLabelValuesFromMap (slaveAttributesExport norm s) keys.
Proof.
  intros Hpid Hperm Hnd.
  assert (slaveAttributesExport norm s' = slaveAttributesExport norm s) as Heq.
  { unfold slaveAttributesExport. rewrite Hpid. symmetry.
    apply export_attributes_permutation; [now symmetry | exact Hnd]. }
  split; [exact Heq | intros keys; now rewrite Heq].
Qed.

Lemma slaveAttributesExport_order_independent_witness :
  slaveAttributesExport ["rack"]
    (mkSlave (PID rack_slave) (Hostname rack_slave) (Id rack_slave) (Port rack_slave)
       (Used rack_slave) (Unreserved rack_slave) (Total rack_slave)
       (reverse (Attributes rack_slave)))
  = slaveAttributesExport ["rack"] rack_slave.
Proof.
  apply (slaveAttributesExport_order_independent ["rack"] rack_slave).
  - reflexivity.
  - simpl. apply Permutation_swap.
  - unfold normalised_keys. simpl. repeat constructor; set_solver.
Defined.

(** X12. The three small helpers do what their names say: [stringInSlice]
    is true exactly for the elements of the slice; [normaliseLabelList]
    normalises every label at its place; [getLabelValuesFromMap] returns, for
    each key in order, the value the map holds for it, and the empty text for
    a key the map does not hold. *)
Theorem label_helpers_are_elementwise (m : gmap string string) (l : list string)
    (x : string) (i : nat) :
  (stringInSlice x l = true <-> x ∈ l)
  /\ normaliseLabelList l !! i = normaliseLabel <$> l !! i
  /\ length (getLabelValuesFromMap m l) = length l
  /\ getLabelValuesFromMap m l !! i = (fun key => default "" (m !! key)) <$> l !! i.
Proof.
  split; [apply stringInSlice_elem_of |]. split; [| split].
  - rewrite normaliseLabelList_map. apply list_lookup_fmap.
  - apply getLabelValuesFromMap_length.
  - rewrite getLabelValuesFromMap_map. apply list_lookup_fmap.
Qed.

End Attributes.

(** ** Token refresh *)

Module Auth.

(** C9. When the stored expiry has passed, the key parses and the refresh
    fails after the signing step, [authToken] returns the empty string, the
    stored expiry is the time of signing plus one hour and the stored token
    is the one from before. Every later call whose clock is not past that
    expiry returns the stored token without a refresh and changes nothing.
    With a clock that does not run backwards the expiry has moved forward:
    the state of the client is not the one from before the failed call. *)
Theorem authToken_failed_refresh_serves_stale_token (e : auth_env) (w : world) :
  tokenExpire (auth (http w)) < now_auth e ->
  key_parses e = true ->
  refresh_fails e ->
  exists w1,
    authToken e w = (Ok "", w1)
    /\ tokenExpire (auth (http w1)) = now_sign e + 3600
    /\ token (auth (http w1)) = token (auth (http w))
    /\ (forall later : list auth_env,
          Forall (fun e' => now_auth e' <= now_sign e + 3600) later ->
          authToken_each later w1
          = (Ok (map (fun _ => token (auth (http w))) later), w1))
    /\ (now_auth e <= now_sign e ->
        tokenExpire (auth (http w)) < tokenExpire (auth (http w1))).
Proof.
  intros Hexpired Hkey Hfail.
  destruct (refresh_token_fails e w Hkey Hfail) as (w1 & Hrun & Hexp & Htok).
  exists w1. split; [| split; [exact Hexp | split; [exact Htok | split]]].
  - unfold authToken, bind at 1, get_world. unfold bind.
    replace (tokenExpire (auth (http w)) <? now_auth e) with true
      by (symmetry; apply Z.ltb_lt; lia).
    now rewrite Hrun.
  - intros later Hlater. rewrite <- Htok. apply authToken_each_not_expired.
    now rewrite Hexp.
  - lia.
Qed.

Lemma authToken_failed_refresh_serves_stale_token_witness :
  exists w1,
    authToken (login_down 1000) stale_world = (Ok "", w1)
    /\ tokenExpire (auth (http w1)) = 4600
    /\ authToken_each [login_down 1001; login_down 4600] w1
       = (Ok ["token=old"; "token=old"], w1).
Proof.
  destruct (authToken_failed_refresh_serves_stale_token (login_down 1000) stale_world)
    as (w1 & Hrun & Hexp & _ & Hlater & _).
  - simpl. lia.
  - reflexivity.
  - right. right. left. reflexivity.
  - exists w1. split; [exact Hrun |]. split; [exact Hexp |].
    apply (Hlater [login_down 1001; login_down 4600]).
    repeat constructor; simpl; lia.
Defined.

(** X13. [signingToken] stores the time of signing plus one hour as the
    expiry of the token in every case, before it signs, and changes nothing
    else of the client, neither the error counter nor the metrics sent. With
    a key that parses it returns the signed assertion, or the empty text
    when signing fails, which is logged. With a key that does not parse it
    logs the error, goes on with the nil key and panics when it signs. *)
Theorem signingToken_always_moves_expiry (e : auth_env) (w : world) :
  exists r w1,
    signingToken e w = (r, w1)
    /\ http w1 = set_auth (set_tokenExpire (now_sign e + 3600) (auth (http w))) (http w)
    /\ errorCounter w1 = errorCounter w /\ sent w1 = sent w
    /\ (key_parses e = true ->
        r = Ok (default "" (signed e))
        /\ (signed e = None ->
            mkLog ErrorLevel "Error creating login token" [F_error] ∈ logged w1))
    /\ (key_parses e = false ->
        r = Panicked
        /\ mkLog ErrorLevel "Error parsing privateKey" [F_error] ∈ logged w1).
Proof.
  unfold signingToken, bind, get_world, put_auth, log_entry_add, ret, panic.
  destruct (key_parses e), (signed e); simpl; eexists _, _; (split; [reflexivity |]); simpl;
    repeat split; intros; try congruence; set_solver.
Qed.

(** X14. When the stored expiry has passed and the whole refresh works,
    [authToken] returns the text [token=] followed by the token of the login
    response and stores it, with the time of signing plus one hour as its
    expiry; the error counter is as before. Every later call whose clock is
    not past that expiry returns the stored token without a refresh and
    changes nothing. *)
Theorem authToken_refreshes_and_caches (e : auth_env) (tok : string) (w : world) :
  tokenExpire (auth (http w)) < now_auth e ->
  refresh_succeeds e tok ->
  exists w1,
    authToken e w = (Ok ("token=" +:+ tok), w1)
    /\ token (auth (http w1)) = "token=" +:+ tok
    /\ tokenExpire (auth (http w1)) = now_sign e + 3600
    /\ errorCounter w1 = errorCounter w
    /\ (forall later : list auth_env,
          Forall (fun e' => now_auth e' <= now_sign e + 3600) later ->
          authToken_each later w1 = (Ok (map (fun _ => "token=" +:+ tok) later), w1)).
Proof.
  intros Hexpired (Hkey & Hm & Hr & Ht & Hd).
  assert (exists w1, authToken e w = (Ok ("token=" +:+ tok), w1)
                     /\ token (auth (http w1)) = "token=" +:+ tok
                     /\ tokenExpire (auth (http w1)) = now_sign e + 3600
                     /\ errorCounter w1 = errorCounter w) as (w1 & Hrun & Htok & Hexp & Herr).
  { unfold authToken, refresh_token, signingToken, bind, get_world, put_auth, log_entry_add,
      errorCounter_Inc, ret.
    replace (tokenExpire (auth (http w)) <? now_auth e) with true
      by (symmetry; apply Z.ltb_lt; lia).
    rewrite Hkey, Hm, Hr, Ht, Hd.
    destruct (signed e); simpl; eexists; repeat split. }
  exists w1. split; [exact Hrun |]. split; [exact Htok |]. split; [exact Hexp |].
  split; [exact Herr |].
  intros later Hlater. rewrite <- Htok. apply authToken_each_not_expired.
  now rewrite Hexp.
Qed.

Lemma authToken_refreshes_and_caches_witness :
  exists w1,
    authToken (mkAuthEnv 1000 true 1000 (Some "assertion") true true true (Some "abc"))
      stale_world
    = (Ok "token=abc", w1)
    /\ tokenExpire (auth (http w1)) = 4600
    /\ authToken_each [login_down 2000; login_down 4600] w1
       = (Ok ["token=abc"; "token=abc"], w1).
Proof.
  destruct (authToken_refreshes_and_caches
              (mkAuthEnv 1000 true 1000 (Some "assertion") true true true (Some "abc"))
              "abc" stale_world) as (w1 & Hrun & _ & Hexp & _ & Hlater).
  - simpl. lia.
  - repeat split.
  - exists w1. split; [exact Hrun |]. split; [exact Hexp |].
    apply (Hlater [login_down 2000; login_down 4600]).
    repeat constructor; simpl; lia.
Defined.

(** X15. [authToken] sends no metric and never waits on a channel. It panics
    exactly when the stored expiry has passed and the key does not parse.
    Otherwise it returns, having added one to the error counter exactly when
    it attempted a refresh whose POST got no response or whose response did
    not decode; a refresh that fails earlier, or is not due, adds nothing.
    When the stored expiry has not passed, it returns the stored token and
    leaves the world as it is. *)
Theorem authToken_counts_network_errors (e : auth_env) (w : world) :
  exists r w1,
    authToken e w = (r, w1)
    /\ sent w1 = sent w
    /\ (r = Panicked <-> signing_panics e (auth (http w)) = true)
    /\ (signing_panics e (auth (http w)) = false ->
        exists s, r = Ok s
          /\ errorCounter w1 = (errorCounter w + refresh_errors e (auth (http w)))%nat)
    /\ (now_auth e <= tokenExpire (auth (http w)) ->
        r = Ok (token (auth (http w))) /\ w1 = w).
Proof.
  unfold refresh_errors, signing_panics.
  destruct (Z.ltb_spec (tokenExpire (auth (http w))) (now_auth e)) as [Hexp | Hfresh].
  2:{ exists (Ok (token (auth (http w)))), w. rewrite authToken_not_expired by exact Hfresh.
      cbn [andb]. split; [reflexivity |]. split; [reflexivity |].
      split; [split; discriminate |].
      split; [intros _; eexists; split; [reflexivity | lia] | now intros _]. }
  unfold authToken, refresh_token, signingToken, bind, get_world, put_auth, log_entry_add,
    errorCounter_Inc, ret, panic.
  replace (tokenExpire (auth (http w)) <? now_auth e) with true
    by (symmetry; apply Z.ltb_lt; lia).
  destruct (key_parses e), (signed e), (marshal_ok e), (login_request_ok e),
    (login_transport_ok e), (login_token e); simpl;
    eexists _, _; (split; [reflexivity |]); simpl;
    (split; [reflexivity |]); (split; [split; congruence |]);
    (split; [| intros; lia]); intros Hnp; try discriminate Hnp;
    eexists; (split; [reflexivity | lia]).
Qed.

(** X16. [fetchAndDecode] counts as one fetch, sends no metric and never
    waits on a channel. It panics exactly when the request was built, the
    client is in strict mode and the token it asks for is signed with a key
    that does not parse. Otherwise it returns: its flag is true exactly when
    the request could be built, got a response, and the body decoded; the
    target is as before when no response came, and holds what the decoder
    left in it otherwise, also when decoding failed; every failure is logged
    as an error with the requested URL. Outside strict mode the client is
    not touched, and the error counter grows by one when the GET gets no
    response or the body does not decode, and not at all when the request
    cannot be built. *)
Theorem fetchAndDecode_flag_and_errors {T : Type} (pick : fetch_env -> decoded T)
    (endpoint : string) (target : T) (w : world) :
  let e := network w (requests w) in
  exists r w1,
    fetchAndDecode pick endpoint target w = (r, w1)
    /\ requests w1 = S (requests w) /\ sent w1 = sent w
    /\ (r = Panicked <-> fetch_panics w = true)
    /\ (fetch_panics w = false ->
        exists ok v,
          r = Ok (ok, v)
          /\ ok = request_ok e && transport_ok e && dec_ok (pick e)
          /\ v = (if request_ok e && transport_ok e then dec_value (pick e) else target)
          /\ (ok = false ->
              exists msg,
                last (logged w1)
                = Some (mkLog ErrorLevel msg
                          [F_url (request_url (http w) endpoint); F_error])))
    /\ (strictMode (auth (http w)) = false ->
        http w1 = http w
        /\ errorCounter w1
           = (errorCounter w
              + if request_ok e && negb (transport_ok e && dec_ok (pick e))
                then 1 else 0)%nat).
Proof.
  intros e. unfold fetch_panics. fold e.
  unfold fetchAndDecode, bind at 1, next_fetch. unfold bind at 1, get_world.
  fold e. cbn [http auth]. fold (request_url (http w) endpoint).
  destruct (request_ok e) eqn:Hreq; cbn [negb andb].
  2:{ unfold bind, log_entry_add, ret. eexists _, _.
      split; [reflexivity |]. cbn [requests sent http errorCounter logged].
      do 2 (split; [reflexivity |]). split; [split; discriminate |].
      split; [| intros _; split; [reflexivity | lia]].
      intros _. exists false, target. repeat split.
      intros _. eexists. now rewrite last_snoc. }
  set (w0 := mkWorld (errorCounter w) (logged w) (sent w) (http w) (S (requests w)) (network w)).
  destruct (fetch_token_step (refresh e) (strictMode (auth (http w))) w0)
    as (r1 & w1 & Hauth & (Hs & Hn & Hr) & Hcases & Hpanic & Hplain).
  change (auth (http w0)) with (auth (http w)) in Hpanic.
  unfold bind at 1. rewrite Hauth.
  destruct Hcases as [-> | ->].
  2:{ assert (strictMode (auth (http w)) && signing_panics (refresh e) (auth (http w)) = true)
        as Hp by now apply Hpanic.
      rewrite Hp. eexists _, _. split; [reflexivity |].
      do 2 (split; [assumption |]). split; [split; reflexivity |].
      split; [discriminate |]. intros Hstrict. rewrite Hstrict in Hp. discriminate. }
  assert (strictMode (auth (http w)) && signing_panics (refresh e) (auth (http w)) = false)
    as Hnp.
  { destruct (strictMode (auth (http w)) && signing_panics (refresh e) (auth (http w)));
      [| reflexivity]. destruct Hpanic as [_ Hp]. discriminate (Hp eq_refl). }
  rewrite Hnp.
  unfold bind, log_entry_add, errorCounter_Inc, ret.
  destruct (transport_ok e) eqn:Htr; cbn [negb andb].
  2:{ eexists _, _. split; [reflexivity |]. cbn [requests sent http errorCounter logged].
      do 2 (split; [assumption |]). split; [split; discriminate |].
      split.
      - intros _. exists false, target. repeat split.
        intros _. eexists. now rewrite last_snoc.
      - intros Hstrict. rewrite (Hplain Hstrict). simpl. split; [reflexivity | lia]. }
  destruct (dec_ok (pick e)) eqn:Hdec; cbn [negb andb];
    eexists _, _; (split; [reflexivity |]); cbn [requests sent http errorCounter logged];
    do 2 (split; [assumption |]); (split; [split; discriminate |]); split.
  - intros _. exists true, (dec_value (pick e)). repeat split. discriminate.
  - intros Hstrict. rewrite (Hplain Hstrict). simpl. split; [reflexivity | lia].
  - intros _. exists false, (dec_value (pick e)). repeat split.
    intros _. eexists. now rewrite last_snoc.
  - intros Hstrict. rewrite (Hplain Hstrict). simpl. split; [reflexivity | lia].
Qed.

Lemma fetchAndDecode_flag_and_errors_witness :
  exists w1 w2,
    fetchAndDecode body_state "/state" (mkState []) flaky_world = (Ok (true, rack_state), w1)
    /\ errorCounter w1 = 0%nat /\ requests w1 = 1%nat
    /\ fetchAndDecode body_state "/state" (mkState []) unsigned_world = (Panicked, w2).
Proof.
  destruct (fetchAndDecode_flag_and_errors body_state "/state" (mkState []) flaky_world)
    as (r & w1 & Hrun & Hreq & _ & _ & Hok & Hplain).
  destruct (Hok eq_refl) as (ok & v & -> & -> & -> & _).
  destruct (Hplain eq_refl) as [_ Herr].
  destruct (fetchAndDecode_flag_and_errors body_state "/state" (mkState []) unsigned_world)
    as (r2 & w2 & Hrun2 & _ & _ & Hpanic & _).
  exists w1, w2. split; [exact Hrun |]. split; [exact Herr |]. split; [exact Hreq |].
  rewrite Hrun2. f_equal. apply Hpanic. reflexivity.
Defined.

End Auth.

(** ** The numeric-map collector *)

Module NumericMap.

(** C1, as the code has it. When the function of an entry returns an error
    for the fetched snapshot (every function ranged over before it returning
    none), [Collect] never returns: it waits for ever on the channel it has
    just made. The error is neither logged nor added to the error counter,
    and no metric of the entries after it is collected: the world is the one
    after the fetch and after the metrics before the entry were collected. *)
Theorem metricCollector_Collect_blocks_on_extraction_error
    (before after : list (MetricVec * metricsCollectorFunctor))
    (cm : MetricVec) (f : metricsCollectorFunctor)
    (ok : bool) (m : metricMap) (w w1 : world) :
  fetchAndDecode body_metrics "/metrics/snapshot" (∅ : metricMap) w = (Ok (ok, m), w1) ->
  Forall (fun entry => (entry.2 m entry.1).2 = None) before ->
  (f m cm).2 <> None ->
  exists w2,
    metricCollector_Collect (newMetricCollector (before ++ (cm, f) :: after)) w
    = (Blocked, w2)
    /\ w2 = snd (collect_each m before w1)
    /\ errorCounter w2 = errorCounter w1
    /\ exists warnings, logged w2 = logged w1 ++ warnings
                        /\ Forall (fun e => level e = WarnLevel) warnings.
Proof.
  intros Hfetch Hbefore Herr.
  exists (snd (collect_each m before w1)).
  split; [| split; [reflexivity |]].
  - unfold metricCollector_Collect, bind at 1. rewrite Hfetch.
    unfold newMetricCollector. cbn [mc_metrics]. unfold bind.
    now rewrite collect_map_metrics_blocks.
  - destruct (collect_each_returns m before w1) as (w2 & E & He & _ & _ & _ & Hlog).
    rewrite E. simpl. auto.
Qed.

Lemma metricCollector_Collect_blocks_on_extraction_error_witness :
  exists w2,
    metricCollector_Collect
      (newMetricCollector
         ([(CounterC elected_counter, counter_from_key "master/elected")]
          ++ (CounterC uptime_counter, counter_from_key "master/uptime_secs")
          :: [(CounterC elected_counter, counter_from_key "master/elected")]))
      flaky_world
    = (Blocked, w2)
    /\ errorCounter w2 = 0%nat
    /\ length (sent w2) = 1%nat.
Proof.
  assert (fetchAndDecode body_metrics "/metrics/snapshot" (∅ : metricMap) flaky_world
          = (Ok (true, ({["master/elected" := 1%float]} : metricMap)),
             snd (fetchAndDecode body_metrics "/metrics/snapshot" (∅ : metricMap) flaky_world)))
    as Hfetch by reflexivity.
  destruct (metricCollector_Collect_blocks_on_extraction_error
              [(CounterC elected_counter, counter_from_key "master/elected")]
              [(CounterC elected_counter, counter_from_key "master/elected")]
              (CounterC uptime_counter) (counter_from_key "master/uptime_secs")
              _ _ _ _ Hfetch)
    as (w2 & Hrun & Hw2 & _).
  - repeat constructor.
  - discriminate.
  - exists w2. split; [exact Hrun |]. rewrite Hw2. split; reflexivity.
Defined.

(** X2. When no function of the numeric-map collector returns an error for
    the fetched snapshot, [Collect] returns: every metric was collected once,
    in the order of the entries, each after its function ran, and the error
    counter is as the fetch left it. *)
Theorem metricCollector_Collect_returns_without_errors
    (metrics : list (MetricVec * metricsCollectorFunctor))
    (ok : bool) (m : metricMap) (w w1 : world) :
  fetchAndDecode body_metrics "/metrics/snapshot" (∅ : metricMap) w = (Ok (ok, m), w1) ->
  Forall (fun entry => (entry.2 m entry.1).2 = None) metrics ->
  exists c' w2,
    metricCollector_Collect (newMetricCollector metrics) w = (Ok c', w2)
    /\ w2 = snd (collect_each m metrics w1)
    /\ length (mc_metrics c') = length metrics
    /\ errorCounter w2 = errorCounter w1.
Proof.
  intros Hfetch Hall.
  destruct (collect_map_metrics_returns m metrics w1 Hall) as (metrics' & Hrun & Hlen).
  exists (mkMetricCollector metrics'), (snd (collect_each m metrics w1)).
  split; [| split; [reflexivity | split; [exact Hlen |]]].
  - unfold metricCollector_Collect, bind at 1. rewrite Hfetch.
    unfold newMetricCollector. cbn [mc_metrics]. unfold bind. now rewrite Hrun.
  - destruct (collect_each_returns m metrics w1) as (w2 & -> & He & _). exact He.
Qed.

Lemma metricCollector_Collect_returns_without_errors_witness :
  exists c' w2,
    metricCollector_Collect
      (newMetricCollector [(CounterC elected_counter, counter_from_key "master/elected")])
      flaky_world
    = (Ok c', w2)
    /\ sent w2 = [Sample (sc_desc elected_counter) CounterValue 1%float []]
    /\ errorCounter w2 = 0%nat.
Proof.
  assert (fetchAndDecode body_metrics "/metrics/snapshot" (∅ : metricMap) flaky_world
          = (Ok (true, ({["master/elected" := 1%float]} : metricMap)),
             snd (fetchAndDecode body_metrics "/metrics/snapshot" (∅ : metricMap) flaky_world)))
    as Hfetch by reflexivity.
  destruct (metricCollector_Collect_returns_without_errors
              [(CounterC elected_counter, counter_from_key "master/elected")]
              _ _ _ _ Hfetch)
    as (c' & w2 & Hrun & Hw2 & _ & _).
  - repeat constructor.
  - exists c', w2. split; [exact Hrun |]. rewrite Hw2. split; reflexivity.
Defined.

End NumericMap.

(** ** The state collector *)

Module StateCollector.

(** C2, as the code has it. A state collector with no attribute labels is
    scraped twice. The first fetch returns with a decoded state that has a
    slave; the second fetch fails before any body is read: it returns the
    flag false and leaves the target empty. Both scrapes return, and the
    second sends again every sample the first one sent, twelve or more, in
    whatever order: the gauge vectors keep the gauges of the slaves, and
    [Collect] runs them whatever [fetchAndDecode] returned. *)
Theorem masterCollector_resends_after_failed_fetch (w0 wa : world) (st : state) :
  fetchAndDecode body_state "/state" (mkState []) w0 = (Ok (true, st), wa) ->
  Slaves st <> [] ->
  exists mc1 w1 samples1,
    masterCollector_Collect (newMasterStateCollector []) w0 = (Ok mc1, w1)
    /\ sent w1 = sent w0 ++ samples1
    /\ (12 <= length samples1)%nat
    /\ forall wb : world,
         fetchAndDecode body_state "/state" (mkState []) w1 = (Ok (false, mkState []), wb) ->
         exists mc2 w2 samples2,
           masterCollector_Collect mc1 w1 = (Ok mc2, w2)
           /\ sent w2 = sent w1 ++ samples2
           /\ samples2 ≡ₚ samples1.
Proof.
  intros Hfetch1 Hslaves.
  pose proof (fetchAndDecode_sends_nothing _ _ _ _ _ _ Hfetch1) as Hsa.
  destruct (collect_state_gauges st slave_gauges wa slave_gauges_entries)
    as (ms1 & Hrun1 & Hall1 & Hlen1 & _ & Hfull).
  set (w1 := sent_more (entries_samples ms1) wa) in *.
  exists (mkMasterCollector ms1), w1, (entries_samples ms1).
  split; [| split; [| split]].
  - unfold masterCollector_Collect, bind at 1. rewrite Hfetch1.
    unfold newMasterStateCollector. cbn [master_metrics Nat.ltb Nat.leb length].
    rewrite app_nil_r. unfold bind. now rewrite Hrun1.
  - unfold w1, sent_more. simpl. now rewrite Hsa.
  - etransitivity; [| apply entries_samples_length, Hfull, Hslaves].
    rewrite Hlen1. reflexivity.
  - intros wb Hfetch2.
    pose proof (fetchAndDecode_sends_nothing _ _ _ _ _ _ Hfetch2) as Hsb.
    destruct (collect_state_gauges (mkState []) ms1 wb Hall1)
      as (ms2 & Hrun2 & _ & _ & Hsame & _).
    rewrite (Hsame eq_refl) in Hrun2.
    exists (mkMasterCollector ms1), (sent_more (entries_samples ms1) wb), (entries_samples ms1).
    split; [| split; [| reflexivity]].
    + unfold masterCollector_Collect, bind at 1. rewrite Hfetch2.
      cbn [master_metrics]. unfold bind. now rewrite Hrun2.
    + unfold sent_more. simpl. now rewrite Hsb.
Qed.

Lemma masterCollector_resends_after_failed_fetch_witness :
  exists mc1 w1 samples1 mc2 w2 samples2,
    masterCollector_Collect (newMasterStateCollector []) flaky_world = (Ok mc1, w1)
    /\ sent w1 = sent flaky_world ++ samples1
    /\ (12 <= length samples1)%nat
    /\ masterCollector_Collect mc1 w1 = (Ok mc2, w2)
    /\ sent w2 = sent w1 ++ samples2
    /\ samples2 ≡ₚ samples1.
Proof.
  destruct (masterCollector_resends_after_failed_fetch flaky_world
              (snd (fetchAndDecode body_state "/state" (mkState []) flaky_world)) rack_state)
    as (mc1 & w1 & samples1 & Hrun1 & Hsent1 & Hlen & Hsecond).
  - reflexivity.
  - discriminate.
  - assert (w1 = snd (masterCollector_Collect (newMasterStateCollector []) flaky_world))
      as Hw1 by (now rewrite Hrun1).
    destruct (Hsecond (snd (fetchAndDecode body_state "/state" (mkState []) w1)))
      as (mc2 & w2 & samples2 & Hrun2 & Hsent2 & Hperm).
    + rewrite Hw1. vm_compute. reflexivity.
    + exists mc1, w1, samples1, mc2, w2, samples2. repeat (split; [assumption |]). assumption.
Defined.

(** X17. A new state collector without attribute labels whose fetch
    returns a decoded state: the scrape returns, and what it sends is, for
    each of the twelve gauges and each tuple of identity label values that a
    slave of the state has, one sample with those label values and the value
    of the gauge for the last slave of the state with that tuple: CPUs as
    they are, memory and disk times 1024, ports as the size of the range set.
    When no two slaves share their identity labels, every slave has its
    sample in every gauge and twelve samples per slave are sent. *)
Theorem masterCollector_Collect_sends_slave_gauges (st : state) (w wa : world) :
  fetchAndDecode body_state "/state" (mkState []) w = (Ok (true, st), wa) ->
  exists mc1 w1 samples,
    masterCollector_Collect (newMasterStateCollector []) w = (Ok mc1, w1)
    /\ sent w1 = sent w ++ samples
    /\ (forall m, m ∈ samples
          <-> exists name help value lvs s,
                (name, help, value) ∈ slave_gauge_table
                /\ slave_labelled lvs (Slaves st) = Some s
                /\ m = gauge_sample name help (value s) lvs)
    /\ (NoDup (map slave_label_values (Slaves st)) ->
        length samples = (12 * length (Slaves st))%nat
        /\ forall name help value s,
             (name, help, value) ∈ slave_gauge_table -> s ∈ Slaves st ->
             gauge_sample name help (value s) (slave_label_values s) ∈ samples).
Proof.
  intros Hfetch.
  pose proof (fetchAndDecode_sends_nothing _ _ _ _ _ _ Hfetch) as Hsent.
  pose proof (masterCollector_Collect_new [] _ _ _ _ Hfetch) as Hcollect.
  eexists _, _, (slave_gauge_samples st). split; [exact Hcollect |].
  split; [simpl; now rewrite Hsent |].
  split; [apply slave_gauge_samples_elem_of |].
  intros Hnd. split; [now apply slave_gauge_samples_length |].
  intros name help value s Ht Hs. apply slave_gauge_samples_elem_of.
  exists name, help, value, (slave_label_values s), s.
  split; [exact Ht | split; [now apply slave_labelled_NoDup | reflexivity]].
Qed.

Lemma masterCollector_Collect_sends_slave_gauges_witness :
  exists mc1 w1 samples,
    masterCollector_Collect (newMasterStateCollector []) flaky_world = (Ok mc1, w1)
    /\ sent w1 = sent flaky_world ++ samples
    /\ length samples = 12%nat
    /\ gauge_sample "mem_bytes" "Total slave memory in bytes"
         (times_1024 (Mem (Total rack_slave))) (slave_label_values rack_slave) ∈ samples.
Proof.
  destruct (masterCollector_Collect_sends_slave_gauges rack_state flaky_world
              (snd (fetchAndDecode body_state "/state" (mkState []) flaky_world)))
    as (mc1 & w1 & samples & Hrun & Hsent & _ & Hall).
  - reflexivity.
  - destruct Hall as [Hlen Hin]; [apply NoDup_singleton |].
    exists mc1, w1, samples. split; [exact Hrun |]. split; [exact Hsent |].
    split; [exact Hlen |].
    apply (Hin "mem_bytes" "Total slave memory in bytes"
             (fun s => times_1024 (Mem (Total s))) rack_slave).
    + do 3 apply list_elem_of_further. apply list_elem_of_here.
    + apply list_elem_of_here.
Defined.

(** X18. A new state collector with usable attribute labels whose fetch
    returns a decoded state: the scrape returns and sends what the collector
    without attribute labels sends and, in whatever order the metrics are
    ranged over, one sample of the attribute metric per slave, each with the
    value 1 and the label values of the slave; the attribute samples follow
    the order of the slaves in the state. The attribute metric is empty again
    afterwards. *)
Theorem masterCollector_Collect_sends_attribute_samples
    (slaveAttributeLabels : list string) (st : state) (w wa : world) :
  slaveAttributeLabels <> [] ->
  usable_labels slaveAttributeLabels ->
  fetchAndDecode body_state "/state" (mkState []) w = (Ok (true, st), wa) ->
  exists mc0 w0 samples0 mc1 w1 samples1,
    masterCollector_Collect (newMasterStateCollector []) w = (Ok mc0, w0)
    /\ sent w0 = sent w ++ samples0
    /\ masterCollector_Collect (newMasterStateCollector slaveAttributeLabels) w = (Ok mc1, w1)
    /\ sent w1 = sent w ++ samples1
    /\ samples1 ≡ₚ samples0 ++ map (attribute_sample slaveAttributeLabels) (Slaves st)
    /\ map (attribute_sample slaveAttributeLabels) (Slaves st) `sublist_of` samples1
    /\ exists set,
         (CounterVecC (mkSettableCounterVec (attributes_desc slaveAttributeLabels) []), set)
         ∈ master_metrics mc1.
Proof.
  intros Hsome Husable Hfetch.
  pose proof (fetchAndDecode_sends_nothing _ _ _ _ _ _ Hfetch) as Hsent.
  pose proof (masterCollector_Collect_new [] _ _ _ _ Hfetch) as Hcollect0.
  pose proof (masterCollector_Collect_new slaveAttributeLabels _ _ _ _ Hfetch) as Hcollect1.
  apply attributes_desc_err in Husable. rewrite Husable in Hcollect1.
  destruct slaveAttributeLabels as [|l ls]; [congruence |].
  cbn [andb] in Hcollect1.
  eexists _, _, (slave_gauge_samples st), _, _,
    (slave_gauge_samples st ++ map (attribute_sample (l :: ls)) (Slaves st)).
  split; [exact Hcollect0 |]. split; [cbn [sent sent_more]; now rewrite Hsent |].
  split; [exact Hcollect1 |]. split; [cbn [sent sent_more]; now rewrite Hsent |].
  split; [reflexivity |]. split; [apply sublist_inserts_l; reflexivity |].
  eexists. cbn [master_metrics]. apply elem_of_app. right. apply list_elem_of_here.
Qed.

Lemma masterCollector_Collect_sends_attribute_samples_witness :
  exists mc1 w1 samples1,
    masterCollector_Collect (newMasterStateCollector ["rack"]) flaky_world = (Ok mc1, w1)
    /\ sent w1 = sent flaky_world ++ samples1
    /\ [attribute_sample ["rack"] rack_slave] `sublist_of` samples1
    /\ attribute_label_values (normaliseLabelList ["rack"]) rack_slave
       = ["slave(1)@10.0.0.1:5051"; ""; ""; ""; "3"].
Proof.
  destruct (masterCollector_Collect_sends_attribute_samples ["rack"] rack_state flaky_world
              (snd (fetchAndDecode body_state "/state" (mkState []) flaky_world)))
    as (mc0 & w0 & samples0 & mc1 & w1 & samples1 & _ & _ & Hrun1 & Hsent1 & _ & Hsub & _).
  - discriminate.
  - apply attributes_desc_err. reflexivity.
  - reflexivity.
  - exists mc1, w1, samples1. split; [exact Hrun1 |]. split; [exact Hsent1 |].
    split; [exact Hsub | reflexivity].
Defined.

(** X19. A scrape of a new state collector whose fetch returns a decoded
    state never waits on a channel, and panics exactly when attribute labels
    are configured that are not usable and the state has a slave: the
    attribute metric then has a descriptor with an error, and the first
    sample built from it panics. In every other case the scrape returns. *)
Theorem masterCollector_Collect_panics_iff_labels_unusable
    (slaveAttributeLabels : list string) (st : state) (w wa : world) :
  fetchAndDecode body_state "/state" (mkState []) w = (Ok (true, st), wa) ->
  exists r w1,
    masterCollector_Collect (newMasterStateCollector slaveAttributeLabels) w = (r, w1)
    /\ r <> Blocked
    /\ (r = Panicked
        <-> slaveAttributeLabels <> [] /\ ~ usable_labels slaveAttributeLabels
            /\ Slaves st <> []).
Proof.
  intros Hfetch.
  pose proof (masterCollector_Collect_new slaveAttributeLabels _ _ _ _ Hfetch) as Hcollect.
  pose proof (attributes_desc_err slaveAttributeLabels) as Herr.
  destruct slaveAttributeLabels as [|l ls].
  { eexists _, _. split; [exact Hcollect |]. split; [discriminate |].
    split; [discriminate | intros [? _]; congruence]. }
  set (attrs := l :: ls) in *.
  destruct (desc_err (attributes_desc attrs)) eqn:Hdesc; cbn [andb] in Hcollect.
  - destruct (decide (Slaves st <> [])) as [Hslaves | Hnone].
    + rewrite bool_decide_eq_true_2 in Hcollect by exact Hslaves.
      eexists _, _. split; [exact Hcollect |]. split; [discriminate |].
      split; [| reflexivity]. intros _. split; [discriminate |].
      split; [| exact Hslaves]. intros Hus%Herr. discriminate.
    + rewrite bool_decide_eq_false_2 in Hcollect by exact Hnone.
      eexists _, _. split; [exact Hcollect |]. split; [discriminate |].
      split; [discriminate | intros (_ & _ & ?); contradiction].
  - eexists _, _. split; [exact Hcollect |]. split; [discriminate |].
    split; [discriminate |]. intros (_ & Hnot & _). exfalso. apply Hnot, Herr. reflexivity.
Qed.

Lemma masterCollector_Collect_panics_iff_labels_unusable_witness :
  exists w1 w2,
    masterCollector_Collect (newMasterStateCollector ["hostname"]) flaky_world = (Panicked, w1)
    /\ masterCollector_Collect (newMasterStateCollector ["a.b"; "a-b"]) flaky_world
       = (Panicked, w2).
Proof.
  destruct (masterCollector_Collect_panics_iff_labels_unusable ["hostname"] rack_state
              flaky_world (snd (fetchAndDecode body_state "/state" (mkState []) flaky_world)))
    as (r1 & w1 & Hrun1 & _ & Hiff1); [reflexivity |].
  destruct (masterCollector_Collect_panics_iff_labels_unusable ["a.b"; "a-b"] rack_state
              flaky_world (snd (fetchAndDecode body_state "/state" (mkState []) flaky_world)))
    as (r2 & w2 & Hrun2 & _ & Hiff2); [reflexivity |].
  exists w1, w2. split.
  - rewrite Hrun1. f_equal. apply Hiff1. split; [discriminate |].
    split; [| discriminate]. intros Hus%attributes_desc_err. discriminate.
  - rewrite Hrun2. f_equal. apply Hiff2. split; [discriminate |].
    split; [| discriminate]. intros Hus%attributes_desc_err. discriminate.
Defined.

(** X20. [Describe] of a new state collector announces the descriptors of
    the twelve gauges, and that of the attribute metric when attribute labels
    are configured; their names differ from one another. None of them
    carries an error exactly when the attribute labels, if any, are usable. *)
Theorem masterCollector_Describe_distinct_names (slaveAttributeLabels : list string) :
  let descs := masterCollector_Describe (newMasterStateCollector slaveAttributeLabels) in
  length descs = (12 + if bool_decide (slaveAttributeLabels = []) then 0 else 1)%nat
  /\ NoDup (map fqName descs)
  /\ (Forall (fun d => desc_err d = false) descs
      <-> slaveAttributeLabels = [] \/ usable_labels slaveAttributeLabels).
Proof.
  cbv zeta. rewrite masterCollector_Describe_new.
  assert (Forall (fun d => desc_err d = false)
            (map (fun t : string * string * (slave -> float) =>
                    gv_desc (gauge "slave" t.1.1 t.1.2 labels)) slave_gauge_table)) as Hgauges.
  { apply Forall_fmap. unfold slave_gauge_table. repeat constructor. }
  destruct slaveAttributeLabels as [|l ls].
  - rewrite app_nil_r. split; [reflexivity |]. split.
    + apply NoDup_ListNoDup. vm_compute.
      repeat (constructor; [simpl; intuition discriminate |]). constructor.
    + split; [now left | intros _; exact Hgauges].
  - set (attrs := l :: ls). split; [reflexivity |]. split.
    + rewrite map_app. apply NoDup_ListNoDup. vm_compute.
      repeat (constructor; [simpl; intuition discriminate |]). constructor.
    + rewrite Forall_app, Forall_singleton, attributes_desc_err.
      split; [intros [_ ?]; now right |]. intros [? | ?]; [discriminate | now split].
Qed.

(** X21. Whatever the outside world answers, every metric that a scrape of
    a new state collector sends is a sample of a descriptor that [Describe]
    announced, with one label value per label name of the descriptor; and a
    scrape that returns leaves a collector that announces the same
    descriptors, whatever the order. *)
Theorem masterCollector_Collect_sends_described_samples
    (slaveAttributeLabels : list string) (w : world) :
  let descs := masterCollector_Describe (newMasterStateCollector slaveAttributeLabels) in
  exists r w1 samples,
    masterCollector_Collect (newMasterStateCollector slaveAttributeLabels) w = (r, w1)
    /\ sent w1 = sent w ++ samples
    /\ Forall (described descs) samples
    /\ (forall mc1, r = Ok mc1 -> masterCollector_Describe mc1 ≡ₚ descs).
Proof.
  cbv zeta.
  destruct (fetchAndDecode_returns body_state "/state" (mkState []) w)
    as (r0 & wa & Hrun & Hsent & _ & _ & Hnb & _).
  destruct r0 as [[ok st]| |]; [| congruence |].
  2:{ exists Panicked, wa, []. split; [now apply masterCollector_Collect_fetch_panics |].
      split; [now rewrite app_nil_r |]. split; [constructor | discriminate]. }
  pose proof (masterCollector_Collect_new slaveAttributeLabels _ _ _ _ Hrun) as Hcollect.
  assert (forall m, m ∈ slave_gauge_samples st ->
                    described (masterCollector_Describe
                                 (newMasterStateCollector slaveAttributeLabels)) m)
    as Hgauges.
  { intros m. apply slave_gauge_samples_described. intros name help value Ht.
    rewrite masterCollector_Describe_new. apply elem_of_app. left.
    apply (list_elem_of_fmap_2 (fun t : string * string * (slave -> float) =>
                                  gv_desc (gauge "slave" t.1.1 t.1.2 labels)) _ _ Ht). }
  assert (forall gs : list (GaugeVec * (slave -> float)),
             flat_map (fun entry : MetricVec * setter => MetricVec_Describe entry.1)
               (map (fun p => gauge_entry (gauge_after st p, p.2)) gs)
             = flat_map (fun entry : MetricVec * setter => MetricVec_Describe entry.1)
                 (map gauge_entry gs)) as Hsame.
  { induction gs as [|p gs IH]; [reflexivity |]. simpl. now rewrite IH. }
  destruct slaveAttributeLabels as [|l ls].
  - eexists _, _, (slave_gauge_samples st). split; [exact Hcollect |].
    split; [simpl; now rewrite Hsent |].
    split; [apply Forall_forall; exact Hgauges |].
    intros mc1 <-%Ok_inj. unfold masterCollector_Describe.
    rewrite newMasterStateCollector_entries. cbn [master_metrics].
    rewrite app_nil_r, Hsame. reflexivity.
  - set (attrs := l :: ls) in *.
    destruct (desc_err (attributes_desc attrs) && bool_decide (Slaves st <> [])).
    + eexists _, _, (slave_gauge_samples st). split; [exact Hcollect |].
      split; [simpl; now rewrite Hsent |].
      split; [apply Forall_forall; exact Hgauges | discriminate].
    + eexists _, _, (slave_gauge_samples st ++ map (attribute_sample attrs) (Slaves st)).
      split; [exact Hcollect |].
      split; [simpl; now rewrite Hsent |]. split.
      * apply Forall_app. split; [apply Forall_forall; exact Hgauges |].
        apply Forall_fmap, Forall_forall. intros s _.
        exists (attributes_desc attrs), CounterValue, 1%float,
          (attribute_label_values (normaliseLabelList attrs) s).
        split; [reflexivity |]. split.
        -- rewrite masterCollector_Describe_new. apply elem_of_app. right.
           apply list_elem_of_here.
        -- unfold attribute_label_values, attributes_desc, counter, labels.
           cbn [scv_desc variableLabels NewDesc].
           now rewrite !length_app, !length_map.
      * intros mc1 <-%Ok_inj. unfold masterCollector_Describe.
        rewrite newMasterStateCollector_entries. cbn [master_metrics].
        rewrite !flat_map_app, Hsame. reflexivity.
Qed.

End StateCollector.

(** ** The version collector *)

Module VersionCollector.

(** X1. When the request of the version collector cannot be built, gets no
    response, or its body does not decode, the scrape sends nothing. It
    panics exactly when the fetch does, asking for a token that is signed
    with a key that does not parse; otherwise it returns and the gauge vector
    is as before: a later scrape starts from the same collector. *)
Theorem versionCollector_Collect_failed_fetch (Sprintf_f : float -> string)
    (v : versionCollector) (w : world) :
  let e := network w (requests w) in
  request_ok e = false \/ transport_ok e = false \/ dec_ok (body_version e) = false ->
  exists r w1,
    versionCollector_Collect Sprintf_f v w = (r, w1)
    /\ sent w1 = sent w
    /\ (r = Panicked <-> fetch_panics w = true)
    /\ (fetch_panics w = false -> r = Ok v).
Proof.
  intros e Hfail. unfold versionCollector_Collect, bind.
  destruct (fetchAndDecode_returns body_version "/version" zero_versionFields w)
    as (r0 & w1 & -> & Hsent & _ & _ & Hnb & Hpanic & Hok).
  fold e in Hok.
  destruct r0 as [[ok vf]| |]; [| congruence |].
  2:{ exists Panicked, w1. split; [reflexivity |]. split; [exact Hsent |].
      assert (fetch_panics w = true) as Hp by now apply Hpanic.
      split; [now split |]. rewrite Hp. discriminate. }
  assert (ok = false) as ->.
  { destruct (Hok ok vf eq_refl) as [Hbad Hgood].
    destruct (request_ok e) eqn:Hreq; [| now apply Hbad; left].
    destruct (transport_ok e) eqn:Htr; [| now apply Hbad; right].
    destruct (Hgood eq_refl eq_refl) as [-> _].
    destruct Hfail as [? | [? | ?]]; congruence. }
  exists (Ok v), w1. split; [reflexivity |]. split; [exact Hsent |].
  split; [| reflexivity]. split; [discriminate |].
  intros Hp. apply Hpanic in Hp. discriminate.
Qed.

Lemma versionCollector_Collect_failed_fetch_witness :
  exists w1,
    versionCollector_Collect six_decimals newVersionCollector idle_world
    = (Ok newVersionCollector, w1)
    /\ sent w1 = sent idle_world.
Proof.
  destruct (versionCollector_Collect_failed_fetch six_decimals newVersionCollector idle_world)
    as (r & w1 & Hrun & Hsent & _ & Hok).
  - left. reflexivity.
  - exists w1. split; [| exact Hsent]. rewrite Hrun. f_equal. apply Hok. reflexivity.
Defined.

(** X22. A version collector whose fetch returns the version fields sets
    the gauge of the build to 1 and sends the gauges of its vector: the
    sample of the build, with the build date, the build time as [%f] renders
    it, the commit, the tag and the version as label values, and the gauges
    the vector held for other builds. A new version collector sends the
    sample of the build alone. *)
Theorem versionCollector_Collect_sends_build (Sprintf_f : float -> string)
    (v : versionCollector) (vf : versionFields) (w wa : world) :
  length (variableLabels (gv_desc (version_metric v))) = 5%nat ->
  fetchAndDecode body_version "/version" zero_versionFields w = (Ok (true, vf), wa) ->
  let desc := gv_desc (version_metric v) in
  let lvs := version_label_values Sprintf_f vf in
  exists v1 w1 samples,
    versionCollector_Collect Sprintf_f v w = (Ok v1, w1)
    /\ sent w1 = sent w ++ samples
    /\ (forall m, m ∈ samples
          <-> m = Sample desc GaugeValue 1%float lvs
              \/ exists lvs' x, lvs' <> lvs
                   /\ gv_children (version_metric v) !! lvs' = Some x
                   /\ m = Sample desc GaugeValue x lvs')
    /\ (gv_children (version_metric v) = ∅ -> samples = [Sample desc GaugeValue 1%float lvs])
    /\ gv_desc (version_metric v1) = desc.
Proof.
  intros Hlen Hrun desc lvs.
  pose proof (fetchAndDecode_sends_nothing _ _ _ _ _ _ Hrun) as Hsent.
  unfold versionCollector_Collect, bind at 1. rewrite Hrun.
  fold (version_label_values Sprintf_f vf). fold lvs.
  unfold bind at 1, GaugeVec_Set. rewrite Hlen. fold desc.
  change (length lvs =? 5)%nat with true. cbv iota. unfold ret at 1.
  unfold bind at 1. rewrite GaugeVec_Collect_sent. unfold ret.
  set (g1 := mkGaugeVec desc (<[lvs := 1%float]> (gv_children (version_metric v)))).
  exists (mkVersionCollector g1), (sent_more (MetricVec_samples (GaugeVecC g1)) wa),
    (MetricVec_samples (GaugeVecC g1)).
  split; [reflexivity |]. split; [simpl; now rewrite Hsent |].
  split; [| split; [| reflexivity]].
  - intros m. rewrite gauge_samples_elem_of. cbn [g1 gv_children gv_desc]. split.
    + intros (lvs' & x & Hlook & ->).
      destruct (decide (lvs' = lvs)) as [-> | Hne].
      * rewrite lookup_insert_eq in Hlook. injection Hlook as <-. now left.
      * rewrite lookup_insert_ne in Hlook by congruence. right. now exists lvs', x.
    + intros [-> | (lvs' & x & Hne & Hlook & ->)].
      * exists lvs, 1%float. split; [apply lookup_insert_eq | reflexivity].
      * exists lvs', x. split; [| reflexivity]. now rewrite lookup_insert_ne by congruence.
  - intros Hnew. cbn [MetricVec_samples g1 gv_children gv_desc]. rewrite Hnew.
    rewrite insert_empty, map_to_list_singleton. reflexivity.
Qed.

Lemma versionCollector_Collect_sends_build_witness :
  exists v1 w1,
    versionCollector_Collect six_decimals newVersionCollector flaky_world = (Ok v1, w1)
    /\ sent w1
       = [Sample (gv_desc (version_metric newVersionCollector)) GaugeValue 1%float
            ["2019-05-02"; "0.000000"; "58cc918"; "1.7.2"; "1.7.2"]].
Proof.
  destruct (versionCollector_Collect_sends_build six_decimals newVersionCollector
              (mkVersionFields "2019-05-02" 0%float "58cc918" "1.7.2" "1.7.2") flaky_world
              (snd (fetchAndDecode body_version "/version" zero_versionFields flaky_world)))
    as (v1 & w1 & samples & Hrun & Hsent & _ & Hnew & _).
  - reflexivity.
  - reflexivity.
  - exists v1, w1. split; [exact Hrun |]. rewrite Hsent, (Hnew eq_refl). reflexivity.
Defined.

End VersionCollector.

(** ** The grouped collector *)

Module GroupedCollector.

(** X23. A grouped collector collects its members in the order of the
    slice, each in the world the one before left: collecting the members [a]
    followed by [b] is collecting [a] and then [b], and when a member of [a]
    blocks or panics no member after it is collected. [Describe] announces
    the descriptors of the members in the same order. *)
Theorem groupedCollector_Collect_in_order (Sprintf_f : float -> string)
    (a b : list Collector) (w : world) :
  Collect Sprintf_f (newGroupedCollector (a ++ b)) w
  = match Collect Sprintf_f (newGroupedCollector a) w with
    | (Ok (GroupedCollector a'), w1) =>
        match Collect Sprintf_f (newGroupedCollector b) w1 with
        | (Ok (GroupedCollector b'), w2) => (Ok (GroupedCollector (a' ++ b')), w2)
        | other => other
        end
    | other => other
    end
  /\ Describe (newGroupedCollector (a ++ b))
     = Describe (newGroupedCollector a) ++ Describe (newGroupedCollector b).
Proof.
  unfold newGroupedCollector. split.
  - rewrite !Collect_members. unfold bind at 1 2. rewrite collect_members_app.
    destruct (collect_members Sprintf_f a w) as [[a'| |] w1]; try reflexivity.
    unfold ret at 2. cbv iota. rewrite Collect_members. unfold bind, ret.
    destruct (collect_members Sprintf_f b w1) as [[b'| |] w2]; reflexivity.
  - rewrite !Describe_members. apply flat_map_app.
Qed.

End GroupedCollector.

(** ** Examples from the specification *)

Module Examples.

Example cpu_gauges_of_one_node :
  let sent1 := sent (snd (masterCollector_Collect (newMasterStateCollector []) flaky_world)) in
  sent1 !! 0%nat
  = Some (Sample (gv_desc (gauge "slave" "cpus" "Total slave CPUs (fractional)" labels))
            GaugeValue 4%float ["slave(1)@10.0.0.1:5051"; "node1"; "5051"; "S1"])
  /\ sent1 !! 1%nat
     = Some (Sample (gv_desc (gauge "slave" "cpus_used" "Used slave CPUs (fractional)" labels))
               GaugeValue 1.5%float ["slave(1)@10.0.0.1:5051"; "node1"; "5051"; "S1"])
  /\ sent1 !! 9%nat
     = Some (Sample (gv_desc (gauge "slave" "ports" "Total slave ports" labels))
               GaugeValue 1001%float ["slave(1)@10.0.0.1:5051"; "node1"; "5051"; "S1"])
  /\ length sent1 = 12%nat.
Proof. vm_compute. repeat split; reflexivity. Qed.

Example normaliseLabel_dots_and_dashes : normaliseLabel "foo.bar-1" = "foo_bar_1".
Proof. reflexivity. Qed.

Example normaliseLabel_leading_digit : normaliseLabel "1cpu" = "_cpu".
Proof. reflexivity. Qed.

Example UnmarshalJSON_empty_field :
  ranges_UnmarshalJSON [] "[]" = ([], None) /\ ranges_size [] = 0.
Proof. split; reflexivity. Qed.

Example UnmarshalJSON_wrapped_ranges :
  ranges_UnmarshalJSON [] (String dquote ("[31000-32000, 8080-8080]" +:+ String dquote ""))
  = ([(31000, 32000); (8080, 8080)], None).
Proof. reflexivity. Qed.

Example UnmarshalJSON_out_of_range :
  ranges_UnmarshalJSON [] "0-18446744073709551616"
  = ([], Some (ErrRange "ParseUint" "18446744073709551616")).
Proof. reflexivity. Qed.

End Examples.
